(** * Concurrency scripts of Agents_Demystified: models and properties

    The scripts of the repository are short programs whose behaviour is
    decided by how their threads, processes or coroutines are interleaved.
    Those that the properties below are about are embedded here, each as an
    executable transition function: the
    state holds the shared objects of the script and one program counter per
    thread of control, a scheduler decision selects which of them performs
    its next statement, and [exec] folds a list of decisions (a schedule)
    over the initial state.  A property that must hold "for every
    interleaving" is a statement about every schedule. *)

From Stdlib Require Import ZArith Lia Strings.Byte.
From stdpp Require Import base option list numbers strings pretty.

Local Open Scope Z_scope.

(** ** Schedules *)

Section Exec.
Context {D C E : Type}.
Variable step : D → C → option (E * C).

(** Runs a schedule from left to right; the events of the steps taken are
    collected in order.  [None]: some decision was not enabled. *)
Fixpoint exec (sch : list D) (c : C) : option (list E * C) :=
  match sch with
  | [] => Some ([], c)
  | d :: sch' =>
      '(e, c') ← step d c;
      '(tr, c'') ← exec sch' c';
      Some (e :: tr, c'')
  end.

(** No decision of the scheduler is enabled. *)
Definition stuck (c : C) : Prop := ∀ d, step d c = None.
End Exec.

(** The line feed that some messages of the scripts start or end with. *)
Definition nl : string := String (Ascii.ascii_of_nat 10) "".

(** Sum of an integer weight over a list. *)
Definition sumZ {A} (f : A → Z) (l : list A) : Z :=
  foldr (λ x acc, f x + acc) 0 l.

(** ** threading.Lock

    A lock is free or held.  The holder is recorded for the statements of
    the properties only: [release] does not look at it, as in CPython, where
    any thread may release a held [Lock]. *)
Module Lock.
Definition t : Type := option nat.

Definition new : t := None.

(** [acquire()]: [None] when the caller has to wait. *)
Definition acquire (me : nat) (l : t) : option t :=
  match l with
  | None => Some (Some me)
  | Some _ => None
  end.

(** [acquire(timeout=...)] once the wait is over: the flag returned and
    the lock afterwards. *)
Definition acquire_timeout (me : nat) (l : t) : bool * t :=
  match l with
  | None => (true, Some me)
  | Some _ => (false, l)
  end.

(** [release()]: [None] stands for the RuntimeError raised on a free
    lock. *)
Definition release (l : t) : option t :=
  match l with
  | Some _ => Some None
  | None => None
  end.
End Lock.

(** ** The guarded increment loop

    08_thread_lock.py and 12_process_value.py run the same loop,
<<
    for _ in range(100000):
        with lock:            # with counter.get_lock():
            counter += 1      #     counter.value += 1
>>
    in several threads (processes).  They differ in the cell that holds the
    counter: a Python global holds any integer, a [Value('i', 0)] holds a C
    int.  [cell] is what the cell holds after an integer is assigned to
    it.  The main thread starts the workers, joins them all and then reads
    the counter, so what it prints is the counter of a state in which every
    worker is done; a worker that has not been started yet is one that has
    not been scheduled yet. *)
Module Counter.
Record shared := Shared { value : Z; lock : Lock.t }.

(** Program counter of one worker; [n] is the number of iterations of the
    [for] loop that remain after the current one. *)
Inductive thread :=
| AtFor (n : N)            (* at the loop head, outside the with block *)
| Entered (n : N)          (* lock acquired, about to read the counter *)
| Read (n : N) (v : Z)     (* read the counter: v *)
| Added (n : N) (v : Z)    (* computed v = old + 1, about to write it *)
| Stored (n : N).          (* wrote the counter, about to leave the block *)

Inductive event :=
| Acquire
| Load (v : Z)
| Add
| Store (v : Z)
| Release.

Definition config : Type := shared * list thread.

Section Cell.
Variable cell : Z → Z.

(** Next statement of worker [me]. [None]: it waits for the lock, or is
    done. *)
Definition tstep (me : nat) (σ : shared) (t : thread)
  : option (event * shared * thread) :=
  match t with
  | AtFor n =>
      if decide (n = 0%N) then None
      else l' ← Lock.acquire me (lock σ);
           Some (Acquire, Shared (value σ) l', Entered (N.pred n))
  | Entered n => Some (Load (value σ), σ, Read n (value σ))
  | Read n v => Some (Add, σ, Added n (v + 1))
  | Added n v => Some (Store (cell v), Shared (cell v) (lock σ), Stored n)
  | Stored n =>
      l' ← Lock.release (lock σ);
      Some (Release, Shared (value σ) l', AtFor n)
  end.

(** The scheduler lets worker [i] perform its next statement. *)
Definition step (i : nat) (c : config) : option ((nat * event) * config) :=
  t ← c.2 !! i;
  '(e, σ', t') ← tstep i c.1 t;
  Some ((i, e), (σ', <[i := t']> c.2)).

Definition run := exec step.
End Cell.

(** [workers] workers, each about to run [iters] iterations; counter 0,
    lock free. *)
Definition init (workers : nat) (iters : N) : config :=
  (Shared 0 Lock.new, replicate workers (AtFor iters)).

Definition finished (c : config) : Prop := Forall (λ t, t = AtFor 0) c.2.

Global Instance thread_eq_dec : EqDecision thread.
Proof. solve_decision. Defined.

Global Instance finished_dec c : Decision (finished c).
Proof. unfold finished. apply _. Defined.

Definition in_block (t : thread) : bool :=
  match t with AtFor _ => false | _ => true end.

(** Number of completed bodies [counter += 1] in a trace. *)
Definition stores (tr : list (nat * event)) : Z :=
  sumZ (λ e, match e.2 with Store _ => 1 | _ => 0 end) tr.

(** Number of completed with blocks in a trace. *)
Definition releases (tr : list (nat * event)) : Z :=
  sumZ (λ e, match e.2 with Release => 1 | _ => 0 end) tr.

(** Iterations a worker still has to complete. *)
Definition pending (t : thread) : Z :=
  match t with
  | AtFor n | Stored n => Z.of_N n
  | Entered n | Read n _ | Added n _ => Z.of_N n + 1
  end.

(** Statements a worker still has to perform. *)
Definition statements_left (t : thread) : Z :=
  match t with
  | AtFor n => 5 * Z.of_N n
  | Entered n => 5 * Z.of_N n + 4
  | Read n _ => 5 * Z.of_N n + 3
  | Added n _ => 5 * Z.of_N n + 2
  | Stored n => 5 * Z.of_N n + 1
  end.

Definition at_stored (t : thread) : Z :=
  match t with Stored _ => 1 | _ => 0 end.

(** What worker [i] knows agrees with the shared state: it is inside the
    with block exactly when it holds the lock, and the value it works on
    is the current one. *)
Definition coherent (σ : shared) (i : nat) (t : thread) : Prop :=
  (in_block t = true ↔ lock σ = Some i) ∧
  match t with
  | Read _ v => v = value σ
  | Added _ v => v = value σ + 1
  | _ => True
  end.

Definition advance (kr : Z * Z) (e : nat * event) : Z * Z :=
  match e.2 with
  | Store _ => (kr.1 + 1, kr.2)
  | Release => (kr.1, kr.2 + 1)
  | _ => kr
  end.

(** Invariant of every run; [k] bodies and [r] with blocks have been
    completed, [total] iterations were asked for. *)
Record inv (cell : Z → Z) (total : Z) (kr : Z * Z) (c : config) : Prop := Inv {
  inv_value : value c.1 = cell kr.1;
  inv_nonneg : 0 ≤ kr.1;
  inv_pending : kr.1 + sumZ pending c.2 = total;
  inv_coherent : ∀ i t, c.2 !! i = Some t → coherent c.1 i t;
  inv_holder : ∀ i, lock c.1 = Some i → is_Some (c.2 !! i);
  inv_releases : kr.1 = kr.2 + sumZ at_stored c.2
}.
End Counter.

(** 08_thread_lock.py: the counter is a Python global. *)
Module ThreadLock.
Definition cell (v : Z) : Z := v.
Definition increment : Counter.thread := Counter.AtFor 100000.
Definition threads : list Counter.thread := replicate 10 increment.
Definition main : Counter.config := (Counter.Shared 0 Lock.new, threads).
Definition run := Counter.run cell.
End ThreadLock.

(** 12_process_value.py: the counter is [Value('i', 0)], a C int in shared
    memory.  Assigning to [.value] keeps the low 32 bits, read as a signed
    number; ctypes checks no overflow.  The lock of a Value is reentrant:
    the accesses to [.value] inside the block take it again and give it
    back, which changes nothing for the process that holds it. *)
Module ProcessValue.
Definition int_bits : Z := 32.
Definition c_int (v : Z) : Z :=
  (v + 2 ^ (int_bits - 1)) mod 2 ^ int_bits - 2 ^ (int_bits - 1).
Definition increment : Counter.thread := Counter.AtFor 100000.
Definition processes : list Counter.thread := replicate 4 increment.
Definition main : Counter.config := (Counter.Shared 0 Lock.new, processes).
Definition run := Counter.run c_int.
End ProcessValue.

(** ** multiprocessing.RLock

    [counter.get_lock()] of 12_process_value.py is the lock that
    [Value('i', 0)] creates, an RLock: its owner may acquire it again, and
    has to release it as often as it has acquired it.  A lock is free, or
    held by an owner that has acquired it once and [again] more times. *)
Module RLock.
Definition t : Type := option (nat * nat).

Definition new : t := None.

(** [acquire()]: [None] when the caller has to wait, which the owner never
    has to. *)
Definition acquire (me : nat) (l : t) : option t :=
  match l with
  | None => Some (Some (me, 0%nat))
  | Some (owner, again) =>
      if decide (owner = me) then Some (Some (me, S again)) else None
  end.

(** [release()]: [None] stands for the AssertionError raised when the
    caller does not own the lock. *)
Definition release (me : nat) (l : t) : option t :=
  match l with
  | Some (owner, again) =>
      if decide (owner = me)
      then Some (match again with
                 | O => None
                 | S again' => Some (me, again')
                 end)
      else None
  | None => None
  end.

Definition owner (l : t) : option nat := fst <$> l.

(** The lock of the guarded loop, read as an RLock that its holder has
    acquired once. *)
Definition of_lock (l : Lock.t) : t := (λ o, (o, 0%nat)) <$> l.
End RLock.

(** ** Value('i', 0)

    The object that 12_process_value.py shares: a C int and an RLock.
    [.value] is a property; reading and assigning it take the lock and
    give it back. *)
Module SharedValue.
Record t := Value { raw : Z; lock : RLock.t }.

(** [counter.value], read by process [me]. *)
Definition get (me : nat) (σ : t) : option (Z * t) :=
  l ← RLock.acquire me (lock σ);
  l' ← RLock.release me l;
  Some (raw σ, Value (raw σ) l').

(** [counter.value = v], run by process [me]. *)
Definition set (me : nat) (v : Z) (σ : t) : option t :=
  l ← RLock.acquire me (lock σ);
  l' ← RLock.release me l;
  Some (Value (ProcessValue.c_int v) l').

(** The shared state of the guarded loop of 12_process_value.py. *)
Definition of_shared (σ : Counter.shared) : t :=
  Value (Counter.value σ) (RLock.of_lock (Counter.lock σ)).
End SharedValue.

(** ** The with statement on a lock

    The comment of 08_thread_lock.py (lines 78 to 83) spells out what
    [with lock: body] stands for:
<<
    lock.acquire()
    try:
        body
    finally:
        lock.release()
>>
    A body is run on the shared state and ends normally or by raising; it
    may also never end.  [with_lock] is the statement on the
    [threading.Lock] of 08_thread_lock.py, [with_rlock] the statement on
    the RLock of 12_process_value.py. *)
Module WithLock.
Inductive completion :=
| Normal
| Raised (exc : string).

Definition block : Type :=
  Counter.shared → option (completion * Counter.shared).

(** [None]: the caller waits for the lock forever, or the body never ends.
    A release of a lock that the body has left free raises RuntimeError. *)
Definition with_lock (me : nat) (body : block) : block := λ σ,
  l ← Lock.acquire me (Counter.lock σ);
  '(r, σ1) ← body (Counter.Shared (Counter.value σ) l);
  match Lock.release (Counter.lock σ1) with
  | Some l' => Some (r, Counter.Shared (Counter.value σ1) l')
  | None => Some (Raised "RuntimeError: release unlocked lock", σ1)
  end.

(** The body of 08_thread_lock.py: [counter += 1]. *)
Definition increment_body (cell : Z → Z) : block := λ σ,
  Some (Normal, Counter.Shared (cell (Counter.value σ + 1)) (Counter.lock σ)).

Definition rblock : Type :=
  SharedValue.t → option (completion * SharedValue.t).

(** [None]: another process holds the lock forever, or the body never
    ends.  A caller that holds the lock already enters at once. *)
Definition with_rlock (me : nat) (body : rblock) : rblock := λ σ,
  l ← RLock.acquire me (SharedValue.lock σ);
  '(r, σ1) ← body (SharedValue.Value (SharedValue.raw σ) l);
  match RLock.release me (SharedValue.lock σ1) with
  | Some l' => Some (r, SharedValue.Value (SharedValue.raw σ1) l')
  | None =>
      Some (Raised "AssertionError: attempt to release recursive lock not owned by thread",
            σ1)
  end.

(** The body of 12_process_value.py: [counter.value += 1], which reads the
    property and assigns it. *)
Definition increment_value (me : nat) : rblock := λ σ,
  '(v, σ1) ← SharedValue.get me σ;
  σ2 ← SharedValue.set me (v + 1) σ1;
  Some (Normal, σ2).
End WithLock.

(** ** 09_race_condition.py

    [restock] runs [chai_stock += 1] 100000 times without any lock.  Its
    docstring names the three steps of the statement: read the current
    value, add 1 to it, write the new value back. *)
Module RaceCondition.
Inductive thread :=
| AtFor (n : N)            (* at the loop head, n iterations left *)
| Read (n : N) (v : Z)     (* read chai_stock: v *)
| Added (n : N) (v : Z).   (* computed v = old + 1, about to write it *)

Inductive event :=
| Load (v : Z)
| Add
| Store (v : Z).

(** The global [chai_stock] and the threads. *)
Definition config : Type := Z * list thread.

Definition tstep (chai_stock : Z) (t : thread) : option (event * Z * thread) :=
  match t with
  | AtFor n =>
      if decide (n = 0%N) then None
      else Some (Load chai_stock, chai_stock, Read (N.pred n) chai_stock)
  | Read n v => Some (Add, chai_stock, Added n (v + 1))
  | Added n v => Some (Store v, v, AtFor n)
  end.

Definition step (i : nat) (c : config) : option ((nat * event) * config) :=
  t ← c.2 !! i;
  '(e, stock', t') ← tstep c.1 t;
  Some ((i, e), (stock', <[i := t']> c.2)).

Definition run := exec step.

Definition init (workers : nat) (iters : N) : config :=
  (0, replicate workers (AtFor iters)).

Definition finished (c : config) : Prop := Forall (λ t, t = AtFor 0) c.2.

Definition restock : thread := AtFor 100000.
Definition threads : list thread := replicate 2 restock.
Definition main : config := (0, threads).

(** Thread [i] alone performs [n] whole iterations. *)
Definition solo (i : nat) (n : N) : list nat := replicate (3 * N.to_nat n) i.

(** The threads from [first] on run one after the other. *)
Fixpoint in_turn (first count : nat) (n : N) : list nat :=
  match count with
  | O => []
  | S count' => solo first n ++ in_turn (S first) count' n
  end.

(** Thread 0 reads the stock, thread 1 runs to its end, thread 0 writes what
    it computed from its stale read and goes on; the other threads follow. *)
Definition lossy (workers : nat) (iters : N) : list nat :=
  [0%nat] ++ solo 1 iters ++ [0%nat; 0%nat] ++ solo 0 (N.pred iters)
  ++ in_turn 2 (workers - 2) iters.

Definition race_pending (t : thread) : Z :=
  match t with
  | AtFor n => Z.of_N n
  | Read n _ | Added n _ => Z.of_N n + 1
  end.

(** After [k] stores nothing that a thread holds or has written is larger
    than [k]. *)
Definition race_inv (total : Z) (k : Z) (c : config) : Prop :=
  c.1 ≤ k ∧ k + sumZ race_pending c.2 = total ∧
  ∀ i t, c.2 !! i = Some t →
    match t with
    | Read _ v => v ≤ k
    | Added _ v => v ≤ k + 1
    | AtFor _ => True
    end.

Definition race_advance (k : Z) (e : nat * event) : Z :=
  match e.2 with Store _ => k + 1 | _ => k end.
End RaceCondition.

(** ** 10_deadlock.py

    Two locks; [task1] takes [lock_a] then [lock_b], [task2] takes [lock_b]
    then [lock_a].  Both functions have the same shape, so one program
    counter type serves both and [first]/[second] say which lock is meant.
    The main thread starts both, joins both and prints; its banner is left
    out. *)
Module Deadlock.
Inductive lock_id := LockA | LockB.

Record locks := Locks { lock_a : Lock.t; lock_b : Lock.t }.

Definition get (l : lock_id) (σ : locks) : Lock.t :=
  match l with LockA => lock_a σ | LockB => lock_b σ end.

Definition set (l : lock_id) (v : Lock.t) (σ : locks) : locks :=
  match l with
  | LockA => Locks v (lock_b σ)
  | LockB => Locks (lock_a σ) v
  end.

Inductive task := Task1 | Task2.

Definition tid (t : task) : nat := match t with Task1 => 1 | Task2 => 2 end.
Definition first (t : task) : lock_id :=
  match t with Task1 => LockA | Task2 => LockB end.
Definition second (t : task) : lock_id :=
  match t with Task1 => LockB | Task2 => LockA end.
Definition other (t : task) : task :=
  match t with Task1 => Task2 | Task2 => Task1 end.

Definition msg_first (t : task) : string :=
  match t with
  | Task1 => "🔵 Task 1 acquired lock A"
  | Task2 => "🟢 Task 2 acquired lock B"
  end.
Definition msg_waiting (t : task) : string :=
  match t with
  | Task1 => "🔵 Task 1 waiting for lock B..."
  | Task2 => "🟢 Task 2 waiting for lock A..."
  end.
Definition msg_second (t : task) : string :=
  match t with
  | Task1 => "🔵 Task 1 acquired lock B"
  | Task2 => "🟢 Task 2 acquired lock A"
  end.
Definition msg_completed : string := "✅ Both tasks completed".

(** Where a task is in its function. *)
Inductive pc :=
| NotStarted
| WithFirst      (* at the outer with *)
| SayFirst       (* holds its first lock, about to print so *)
| Sleep          (* about to sleep 0.1 s *)
| SayWaiting     (* about to print that it waits *)
| WithSecond     (* at the inner with *)
| SaySecond      (* holds both locks, about to print so *)
| ExitSecond     (* leaving the inner with *)
| ExitFirst      (* leaving the outer with *)
| Done.

(** Where the main thread is. *)
Inductive main_pc := Start1 | Start2 | Join1 | Join2 | SayCompleted | MainDone.

Inductive event :=
| Print (msg : string)
| Started (t : task)
| Joined (t : task)
| Acquired (t : task) (l : lock_id)
| Released (t : task) (l : lock_id)
| Slept (t : task)
| TimedOut (t : task) (l : lock_id)
| Worked (t : task).

Record state := State { held : locks; t1 : pc; t2 : pc; main : main_pc }.

Definition pc_of (t : task) (s : state) : pc :=
  match t with Task1 => t1 s | Task2 => t2 s end.

Definition set_pc (t : task) (p : pc) (σ : locks) (s : state) : state :=
  match t with
  | Task1 => State σ p (t2 s) (main s)
  | Task2 => State σ (t1 s) p (main s)
  end.

(** Next statement of a task. [None]: it waits for a lock, has not been
    started, or is done. *)
Definition task_step (t : task) (σ : locks) (p : pc)
  : option (event * locks * pc) :=
  match p with
  | NotStarted => None
  | WithFirst =>
      l' ← Lock.acquire (tid t) (get (first t) σ);
      Some (Acquired t (first t), set (first t) l' σ, SayFirst)
  | SayFirst => Some (Print (msg_first t), σ, Sleep)
  | Sleep => Some (Slept t, σ, SayWaiting)
  | SayWaiting => Some (Print (msg_waiting t), σ, WithSecond)
  | WithSecond =>
      l' ← Lock.acquire (tid t) (get (second t) σ);
      Some (Acquired t (second t), set (second t) l' σ, SaySecond)
  | SaySecond => Some (Print (msg_second t), σ, ExitSecond)
  | ExitSecond =>
      l' ← Lock.release (get (second t) σ);
      Some (Released t (second t), set (second t) l' σ, ExitFirst)
  | ExitFirst =>
      l' ← Lock.release (get (first t) σ);
      Some (Released t (first t), set (first t) l' σ, Done)
  | Done => None
  end.

Definition task1 := task_step Task1.
Definition task2 := task_step Task2.

(** Next statement of the main thread: start both, join both, print. *)
Definition main_step (s : state) : option (event * state) :=
  match main s with
  | Start1 => Some (Started Task1, State (held s) WithFirst (t2 s) Start2)
  | Start2 => Some (Started Task2, State (held s) (t1 s) WithFirst Join1)
  | Join1 =>
      match t1 s with
      | Done => Some (Joined Task1, State (held s) (t1 s) (t2 s) Join2)
      | _ => None
      end
  | Join2 =>
      match t2 s with
      | Done => Some (Joined Task2, State (held s) (t1 s) (t2 s) SayCompleted)
      | _ => None
      end
  | SayCompleted =>
      Some (Print msg_completed, State (held s) (t1 s) (t2 s) MainDone)
  | MainDone => None
  end.

Inductive decision := RunMain | RunTask (t : task).

Definition step (d : decision) (s : state) : option (event * state) :=
  match d with
  | RunMain => main_step s
  | RunTask t =>
      '(e, σ', p') ← (match t with Task1 => task1 | Task2 => task2 end)
                       (held s) (pc_of t s);
      Some (e, set_pc t p' σ' s)
  end.

Definition run := exec step.

Definition init : state :=
  State (Locks Lock.new Lock.new) NotStarted NotStarted Start1.

(** The task holds its first lock and has not yet taken the second one. *)
Definition before_second (p : pc) : bool :=
  match p with
  | SayFirst | Sleep | SayWaiting | WithSecond => true
  | _ => false
  end.

(** Task 1 holds A, task 2 holds B, neither has taken its second lock. *)
Definition crossed (s : state) : Prop :=
  held s = Locks (Some 1%nat) (Some 2%nat) ∧
  before_second (t1 s) = true ∧ before_second (t2 s) = true ∧ main s = Join1.

(** Both tasks wait at their inner with, the main thread at its first
    join. *)
Definition deadlocked : state :=
  State (Locks (Some 1%nat) (Some 2%nat)) WithSecond WithSecond Join1.

(** Statements a task performs before it waits for its second lock. *)
Definition distance (p : pc) : nat :=
  match p with
  | SayFirst => 3
  | Sleep => 2
  | SayWaiting => 1
  | _ => 0
  end.
(** The statements that bring both tasks to their inner with. *)
Definition to_deadlock (s : state) : list decision :=
  replicate (distance (t1 s)) (RunTask Task1)
  ++ replicate (distance (t2 s)) (RunTask Task2).
End Deadlock.

(** The variant with timeouts that the script describes in its closing
    comment (lines 185 to 198), for a task that takes [first] then [second]:
<<
    if first.acquire(timeout=1):
        try:
            if second.acquire(timeout=1):
                try:
                    ...
                finally:
                    second.release()
            else:
                print("Couldn't get lock B, backing off")
        finally:
            first.release()
>>
    Time is not modelled: a pending [acquire(timeout=1)] returns True as
    soon as the lock is free ([Run]), and may return False while the lock
    is held ([Expire]). *)
Module DeadlockTimeout.
Import Deadlock.

Inductive pc :=
| TryFirst
| TrySecond                    (* holds the first lock *)
| Body                         (* holds both *)
| ReleaseSecond
| BackOff                      (* the second acquire returned False *)
| ReleaseFirst (worked : bool)
| Finished (worked : bool).    (* false: gave up after a timeout *)

Record state := State { held : locks; t1 : pc; t2 : pc }.

Definition pc_of (t : task) (s : state) : pc :=
  match t with Task1 => t1 s | Task2 => t2 s end.

Definition set_pc (t : task) (p : pc) (σ : locks) (s : state) : state :=
  match t with
  | Task1 => State σ p (t2 s)
  | Task2 => State σ (t1 s) p
  end.

Definition msg_backoff (t : task) : string :=
  match t with
  | Task1 => "Couldn't get lock B, backing off"
  | Task2 => "Couldn't get lock A, backing off"
  end.

Inductive decision := Run (t : task) | Expire (t : task).

(** An [acquire(timeout=1)] of lock [l] returns the flag [flag]. *)
Definition acquire_returns (flag : bool) (t : task) (l : lock_id) (σ : locks)
  : option locks :=
  let '(got, l') := Lock.acquire_timeout (tid t) (get l σ) in
  if decide (got = flag) then Some (set l l' σ) else None.

Definition run_step (t : task) (σ : locks) (p : pc)
  : option (event * locks * pc) :=
  match p with
  | TryFirst =>
      σ' ← acquire_returns true t (first t) σ;
      Some (Acquired t (first t), σ', TrySecond)
  | TrySecond =>
      σ' ← acquire_returns true t (second t) σ;
      Some (Acquired t (second t), σ', Body)
  | Body => Some (Worked t, σ, ReleaseSecond)
  | ReleaseSecond =>
      l' ← Lock.release (get (second t) σ);
      Some (Released t (second t), set (second t) l' σ, ReleaseFirst true)
  | BackOff => Some (Print (msg_backoff t), σ, ReleaseFirst false)
  | ReleaseFirst worked =>
      l' ← Lock.release (get (first t) σ);
      Some (Released t (first t), set (first t) l' σ, Finished worked)
  | Finished _ => None
  end.

Definition expire_step (t : task) (σ : locks) (p : pc)
  : option (event * locks * pc) :=
  match p with
  | TryFirst =>
      σ' ← acquire_returns false t (first t) σ;
      Some (TimedOut t (first t), σ', Finished false)
  | TrySecond =>
      σ' ← acquire_returns false t (second t) σ;
      Some (TimedOut t (second t), σ', BackOff)
  | _ => None
  end.

Definition step (d : decision) (s : state) : option (event * state) :=
  match d with
  | Run t =>
      '(e, σ', p') ← run_step t (held s) (pc_of t s);
      Some (e, set_pc t p' σ' s)
  | Expire t =>
      '(e, σ', p') ← expire_step t (held s) (pc_of t s);
      Some (e, set_pc t p' σ' s)
  end.

Definition run := exec step.

Definition init : state := State (Locks Lock.new Lock.new) TryFirst TryFirst.

(** Each task holds its first lock and waits for the other one. *)
Definition crossed : state :=
  State (Locks (Some 1%nat) (Some 2%nat)) TrySecond TrySecond.

Definition is_finished (p : pc) : bool :=
  match p with Finished _ => true | _ => false end.

Definition holds_first (p : pc) : bool :=
  match p with
  | TrySecond | Body | ReleaseSecond | BackOff | ReleaseFirst _ => true
  | _ => false
  end.

Definition holds_second (p : pc) : bool :=
  match p with Body | ReleaseSecond => true | _ => false end.

(** The task has had a timeout. *)
Definition gave_up (p : pc) : bool :=
  match p with
  | BackOff | ReleaseFirst false | Finished false => true
  | _ => false
  end.

(** The locks are held by the tasks that are where they hold them. *)
Definition consistent (s : state) : bool :=
  negb (holds_first (t1 s) && holds_second (t2 s))
  && (negb (holds_first (t2 s) && holds_second (t1 s))
  && bool_decide
       (lock_a (held s) =
          (if holds_first (t1 s) then Some 1%nat
           else if holds_second (t2 s) then Some 2%nat else None)
        ∧ lock_b (held s) =
          (if holds_first (t2 s) then Some 2%nat
           else if holds_second (t1 s) then Some 1%nat else None))).

(** From the crossed state on, one of the tasks has had a timeout. *)
Definition after_crossed (s : state) : Prop :=
  s = crossed ∨ gave_up (t1 s) = true ∨ gave_up (t2 s) = true.
End DeadlockTimeout.

(** ** 07_daemon.py and 08_non_daemon.py

    Both scripts start one thread that runs [monitor_tea_temp], an endless
    loop, print and reach the end of the main module.  They differ in the
    [daemon] flag of the thread (and in the texts printed).  At the end of
    the main module the interpreter shuts down: it joins every thread that
    is alive and not a daemon, then the process exits, which ends the
    daemon threads wherever they are. *)
Module Daemon.
Inductive stmt :=
| Say (msg : string)
| StartMonitor.          (* t = threading.Thread(...); t.start() *)

Definition rule : string :=
  "==================================================".

(** The statements of the main module, in order. *)
Definition script (daemon : bool) : list stmt :=
  if daemon then
    [ Say rule; Say "👻 DAEMON THREAD DEMO"; Say rule;
      Say ("Starting daemon thread (background monitor)..." +:+ nl);
      StartMonitor;
      Say "✅ Main program done";
      Say "   (Daemon thread will be killed now!)" ]
  else
    [ Say rule; Say "🔄 NON-DAEMON THREAD DEMO"; Say rule;
      Say "Starting non-daemon thread (will run forever!)...";
      Say ("⚠️  Press Ctrl+C to stop!" +:+ nl);
      StartMonitor;
      Say "✅ Main program done";
      Say "   (But waiting for thread to finish... which is never!)";
      Say ("   Press Ctrl+C to exit." +:+ nl) ].

(** The thread that runs [monitor_tea_temp]:
    [while True: print(...); time.sleep(2)]. *)
Inductive worker :=
| NotStarted
| Monitoring       (* about to print *)
| Sleeping         (* about to sleep 2 s *)
| Returned         (* the function has returned *)
| Killed.          (* ended by the exit of the process *)

Definition alive (w : worker) : bool :=
  match w with Monitoring | Sleeping => true | _ => false end.

Inductive event :=
| Print (msg : string)
| Started
| Slept
| Exit.

Record state := State {
  daemon : bool;       (* the daemon flag of the thread *)
  next : nat;          (* index of the next statement of the main module *)
  exited : bool;       (* the process has exited *)
  monitor : worker
}.

Inductive decision := RunMain | RunWorker.

(** The main thread: its next statement, or the shutdown once the module
    is at its end.  [None]: blocked in the join of the shutdown, or
    exited. *)
Definition main_step (s : state) : option (event * state) :=
  if exited s then None
  else
    match script (daemon s) !! next s with
    | Some (Say msg) =>
        Some (Print msg, State (daemon s) (S (next s)) false (monitor s))
    | Some StartMonitor =>
        Some (Started, State (daemon s) (S (next s)) false Monitoring)
    | None =>
        if daemon s || negb (alive (monitor s)) then
          Some (Exit, State (daemon s) (next s) true
                        (if alive (monitor s) then Killed else monitor s))
        else None
    end.

Definition monitor_tea_temp (s : state) : option (event * state) :=
  match monitor s with
  | Monitoring =>
      Some (Print "🌡️  Monitoring tea temperature...",
            State (daemon s) (next s) (exited s) Sleeping)
  | Sleeping =>
      Some (Slept, State (daemon s) (next s) (exited s) Monitoring)
  | _ => None
  end.

Definition step (d : decision) (s : state) : option (event * state) :=
  match d with
  | RunMain => main_step s
  | RunWorker => monitor_tea_temp s
  end.

Definition run := exec step.

Definition init (daemon : bool) : state := State daemon 0 false NotStarted.

(** Index of [StartMonitor] in the script. *)
Definition start_at (daemon : bool) : nat := if daemon then 4%nat else 5%nat.

(** The main module is at its end and the process has not exited. *)
Definition at_shutdown (s : state) : Prop :=
  script (daemon s) !! next s = None ∧ exited s = false.

(** What holds of every state of every run. *)
Definition sound (d : bool) (s : state) : Prop :=
  daemon s = d ∧
  (next s ≤ length (script d))%nat ∧
  (exited s = false →
   if decide (next s ≤ start_at d)%nat then monitor s = NotStarted
   else alive (monitor s) = true) ∧
  (exited s = true → d = true ∧ monitor s = Killed).
End Daemon.

(** ** asyncio.gather, as called in 02_async_two.py

    [await asyncio.gather(c0, c1, ...)] wraps every coroutine in a task and
    returns an outer future that the caller awaits.  Each child runs
    [_done_callback] when it finishes.  The call of the script passes no
    [return_exceptions], so the default [False] applies: the first child
    that raises settles the outer future with its exception; otherwise the
    outer future is settled when the last child has finished, with the
    results of the children in the order of the arguments. *)
Module Gather.
Inductive future (R : Type) :=
| Pending
| Returned (r : R)
| Raised (exc : string).
Arguments Pending {R}.
Arguments Returned {R} r.
Arguments Raised {R} exc.

Definition settled {R} (f : future R) : bool :=
  match f with Pending => false | _ => true end.

Section Values.
Context {V : Type}.

Record gathering := Gathering {
  children : list (future V);
  nfinished : nat;
  outer : future (list V)
}.

(** The children in argument order, none started; with no argument the
    outer future is settled at once with the empty list. *)
Definition gather (n : nat) : gathering :=
  Gathering (replicate n Pending) 0
    (match n with O => Returned [] | S _ => Pending end).

(** [[fut.result() for fut in children]]; [None] if a child has no
    result. *)
Fixpoint results (l : list (future V)) : option (list V) :=
  match l with
  | [] => Some []
  | Returned v :: l' => rs ← results l'; Some (v :: rs)
  | _ :: _ => None
  end.

(** [_done_callback(fut)] for the child at index [i], which has just
    finished. *)
Definition done_callback (i : nat) (g : gathering) : gathering :=
  let n := S (nfinished g) in
  match outer g with
  | Pending =>
      match children g !! i with
      | Some (Raised exc) => Gathering (children g) n (Raised exc)
      | _ =>
          if decide (n = length (children g)) then
            match results (children g) with
            | Some rs => Gathering (children g) n (Returned rs)
            | None => Gathering (children g) n Pending
            end
          else Gathering (children g) n Pending
      end
  | _ => Gathering (children g) n (outer g)
  end.

(** A child finishes, by returning or by raising. *)
Inductive decision :=
| Return (i : nat) (v : V)
| Raise (i : nat) (exc : string).

Definition finish (i : nat) (f : future V) (g : gathering)
  : option gathering :=
  match children g !! i with
  | Some Pending =>
      Some (done_callback i
              (Gathering (<[i := f]> (children g)) (nfinished g) (outer g)))
  | _ => None
  end.

Definition step (d : decision) (g : gathering) : option (decision * gathering) :=
  match d with
  | Return i v => g' ← finish i (Returned v) g; Some (d, g')
  | Raise i exc => g' ← finish i (Raised exc) g; Some (d, g')
  end.

Definition run := exec step.

(** The task that awaits the outer future is resumed. *)
Definition resumed (g : gathering) : Prop := outer g ≠ Pending.

Definition unsettled (f : future V) : Z :=
  match f with Pending => 1 | _ => 0 end.

Definition failed (f : future V) : bool :=
  match f with Raised _ => true | _ => false end.

(** What holds of every state of every run. *)
Definition sound (n : nat) (g : gathering) : Prop :=
  length (children g) = n ∧
  Z.of_nat (nfinished g) + sumZ unsettled (children g) = Z.of_nat n ∧
  match outer g with
  | Pending =>
      Forall (λ f, failed f = false) (children g) ∧
      0 < sumZ unsettled (children g)
  | Returned rs => results (children g) = Some rs
  | Raised exc => ∃ i, children g !! i = Some (Raised exc)
  end.
End Values.
Arguments gathering V : clear implicits.
End Gather.

(** 02_async_two.py: [main] awaits the gathering of three [brew]
    coroutines.  A brew prints, awaits a sleep of 3 s, prints again and
    returns None.  The banner that [main] prints before the call is left
    out, and the line with the elapsed time is an event without its text,
    since the time is not modelled.  The sleeps may end in any order. *)
Module AsyncTwo.
Inductive brew_pc :=
| Created       (* about to print that it brews *)
| Brewing       (* awaiting asyncio.sleep(3) *)
| Ready.        (* has printed that it is ready and returned *)

Global Instance brew_pc_eq_dec : EqDecision brew_pc.
Proof. solve_decision. Defined.

Inductive main_pc :=
| BeforeGather
| Awaiting      (* await asyncio.gather(...) *)
| AfterGather   (* about to print the total time *)
| MainDone
| MainFailed.

Definition names : list string := ["Masala chai"; "Green chai"; "Ginger chai"].

Inductive event :=
| Print (msg : string)
| Gathered
| PrintElapsed
| Failed (exc : string).

Record state := State {
  main : main_pc;
  brews : list brew_pc;
  gathered : Gather.gathering unit
}.

Inductive decision := RunMain | RunBrew (i : nat).

Definition main_step (s : state) : option (event * state) :=
  match main s with
  | BeforeGather =>
      Some (Gathered,
            State Awaiting (replicate (length names) Created)
              (Gather.gather (length names)))
  | Awaiting =>
      match Gather.outer (gathered s) with
      | Gather.Pending => None
      | Gather.Returned _ =>
          Some (PrintElapsed, State AfterGather (brews s) (gathered s))
      | Gather.Raised exc =>
          Some (Failed exc, State MainFailed (brews s) (gathered s))
      end
  | AfterGather =>
      Some (Print "   (3 brews × 3 seconds each, but only ~3 seconds total!)",
            State MainDone (brews s) (gathered s))
  | MainDone | MainFailed => None
  end.

Definition brew (i : nat) (s : state) : option (event * state) :=
  name ← names !! i;
  p ← brews s !! i;
  match p with
  | Created =>
      Some (Print ("☕ Brewing " +:+ name +:+ "..."),
            State (main s) (<[i := Brewing]> (brews s)) (gathered s))
  | Brewing =>
      g' ← Gather.finish i (Gather.Returned ()) (gathered s);
      Some (Print ("✅ " +:+ name +:+ " is ready!"),
            State (main s) (<[i := Ready]> (brews s)) g')
  | Ready => None
  end.

Definition step (d : decision) (s : state) : option (event * state) :=
  match d with
  | RunMain => main_step s
  | RunBrew i => brew i s
  end.

Definition run := exec step.

Definition init : state := State BeforeGather [] (Gather.gather 0).

(** The gathering that corresponds to the brews. *)
Definition child_of (p : brew_pc) : Gather.future unit :=
  match p with Ready => Gather.Returned () | _ => Gather.Pending end.

Definition all_ready (l : list brew_pc) : bool :=
  forallb (λ p, match p with Ready => true | _ => false end) l.

Definition sound (s : state) : Prop :=
  match main s with
  | BeforeGather => brews s = []
  | MainFailed => False
  | m =>
      length (brews s) = 3%nat ∧
      Gather.children (gathered s) = child_of <$> brews s ∧
      Gather.outer (gathered s) =
        (if all_ready (brews s) then Gather.Returned [(); (); ()]
         else Gather.Pending) ∧
      Gather.nfinished (gathered s) =
        length (filter (λ p, p = Ready) (brews s)) ∧
      (m ≠ Awaiting → all_ready (brews s) = true)
  end.
End AsyncTwo.

(** ** pickle

    Modelled from the spec: the serializer of the inter-process queue is
    Python's pickle module, which is not part of the repository.  Section
    4.2 of the specification asks that the channel serializes and
    deserializes items transparently and that an item which cannot be
    serialized is not delivered.  The class below is that contract:
    [dumps] may fail, and what [dumps] produced is read back by [loads] as
    the item it came from. *)
Module Pickle.
Global Instance byte_eq_dec : EqDecision byte := Byte.byte_eq_dec.

Class Pickle (T : Type) := {
  dumps : T → option (list byte);
  loads : list byte → option T;
  loads_dumps : ∀ x bs, dumps x = Some bs → loads bs = Some x
}.

Definition serializable `{Pickle T} (x : T) : Prop := is_Some (dumps x).

(** [width] bytes of [n], least significant first. *)
Fixpoint le_bytes (width : nat) (n : N) : list byte :=
  match width with
  | O => []
  | S w => default Byte.x00 (Byte.of_N (n mod 256)) :: le_bytes w (n / 256)
  end.

Fixpoint le_value (bs : list byte) : N :=
  match bs with
  | [] => 0
  | b :: bs' => Byte.to_N b + 256 * le_value bs'
  end.

(** Modelled from the spec: the layout follows what pickle protocol 4
    writes for a str, which is held here as its UTF-8 bytes: PROTO 4, a
    FRAME with the length of what follows, the opcode SHORT_BINUNICODE,
    BINUNICODE or BINUNICODE8 with the length of the text in 1, 4 or 8
    bytes, the text, MEMOIZE and STOP. *)
Definition text_header (len : N) : option (list byte) :=
  if decide (len < 2 ^ 8)%N then Some (Byte.x8c :: le_bytes 1 len)
  else if decide (len < 2 ^ 32)%N then Some (Byte.x58 :: le_bytes 4 len)
  else if decide (len < 2 ^ 64)%N then Some (Byte.x8d :: le_bytes 8 len)
  else None.

Definition header_width (opcode : byte) : option nat :=
  match opcode with
  | Byte.x8c => Some 1%nat
  | Byte.x58 => Some 4%nat
  | Byte.x8d => Some 8%nat
  | _ => None
  end.

Definition trailer : list byte := [Byte.x94; Byte.x2e].

Definition dumps_str (s : string) : option (list byte) :=
  let text := String.list_byte_of_string s in
  header ← text_header (N.of_nat (length text));
  let frame := header ++ text ++ trailer in
  if decide (N.of_nat (length frame) < 2 ^ 64)%N then
    Some ([Byte.x80; Byte.x04; Byte.x95]
          ++ le_bytes 8 (N.of_nat (length frame)) ++ frame)
  else None.

Definition loads_frame (frame : list byte) : option string :=
  match frame with
  | opcode :: rest =>
      w ← header_width opcode;
      let len := N.to_nat (le_value (take w rest)) in
      let rest' := drop w rest in
      if decide (drop len rest' = trailer)
      then Some (String.string_of_list_byte (take len rest'))
      else None
  | [] => None
  end.

Definition loads_str (bs : list byte) : option string :=
  match bs with
  | Byte.x80 :: Byte.x04 :: Byte.x95 :: rest =>
      let frame := drop 8 rest in
      if decide (le_value (take 8 rest) = N.of_nat (length frame))
      then loads_frame frame
      else None
  | _ => None
  end.
End Pickle.

(** ** multiprocessing.Queue

    [put] appends the item to a buffer that belongs to the calling process
    and returns.  A feeder thread of that process takes the items of the
    buffer in order, pickles each one and writes the bytes to a pipe that
    all processes share; an item that cannot be pickled is dropped by the
    feeder.  [get] reads the next message of the pipe and unpickles it; it
    waits while the pipe is empty.  The script creates the queue with
    [Queue()], that is, without a bound on its size.  The producer that
    wrote a message is kept next to it for the statements of the properties
    only. *)
Module ProcessQueue.
Import Pickle.

Section Items.
Context `{Pickle T}.

Record queue := Queue {
  buffers : list (list T);          (* one buffer per process *)
  pipe : list (nat * list byte)
}.

Definition new (processes : nat) : queue := Queue (replicate processes []) [].

Inductive decision :=
| Put (p : nat) (x : T)             (* process p calls put(x) *)
| Feed (p : nat)                    (* the feeder of process p sends an item *)
| Get.                              (* some process calls get() *)

Inductive event :=
| DidPut (p : nat) (x : T)
| Sent (p : nat) (bs : list byte)
| Dropped (p : nat) (x : T)
| Got (p : nat) (x : T)
| GetFailed.

Definition step (d : decision) (q : queue) : option (event * queue) :=
  match d with
  | Put p x =>
      b ← buffers q !! p;
      Some (DidPut p x, Queue (<[p := b ++ [x]]> (buffers q)) (pipe q))
  | Feed p =>
      b ← buffers q !! p;
      match b with
      | [] => None
      | x :: b' =>
          match dumps x with
          | Some bs =>
              Some (Sent p bs,
                    Queue (<[p := b']> (buffers q)) (pipe q ++ [(p, bs)]))
          | None => Some (Dropped p x, Queue (<[p := b']> (buffers q)) (pipe q))
          end
      end
  | Get =>
      match pipe q with
      | [] => None
      | (p, bs) :: rest =>
          match loads bs with
          | Some x => Some (Got p x, Queue (buffers q) rest)
          | None => Some (GetFailed, Queue (buffers q) rest)
          end
      end
  end.

Definition run := exec step.

(** The items that process [p] has put, in order. *)
Definition puts_of (p : nat) (tr : list event) : list T :=
  omap (λ e, match e with
             | DidPut p' x => if decide (p' = p) then Some x else None
             | _ => None
             end) tr.

(** The items put by [p] that [get] has returned, in order. *)
Definition gets_of (p : nat) (tr : list event) : list T :=
  omap (λ e, match e with
             | Got p' x => if decide (p' = p) then Some x else None
             | _ => None
             end) tr.

(** All items put, and all items returned by [get], in order. *)
Definition puts (tr : list event) : list T :=
  omap (λ e, match e with DidPut _ x => Some x | _ => None end) tr.
Definition gets (tr : list event) : list T :=
  omap (λ e, match e with Got _ x => Some x | _ => None end) tr.

(** The items in the order in which the feeders wrote them to the pipe. *)
Definition sent (tr : list event) : list T :=
  omap (λ e, match e with Sent _ bs => loads bs | _ => None end) tr.

Definition buffer (p : nat) (q : queue) : list T :=
  default [] (buffers q !! p).

(** The items of [p] that are in the pipe, and all items in the pipe. *)
Definition piped_of (p : nat) (q : queue) : list T :=
  omap (λ m, if decide (m.1 = p) then loads m.2 else None) (pipe q).
Definition piped (q : queue) : list T :=
  omap (λ m, loads m.2) (pipe q).

Definition picklable (l : list T) : list T := filter serializable l.

Definition producer_of (e : event) : option nat :=
  match e with
  | DidPut p _ | Sent p _ | Dropped p _ | Got p _ => Some p
  | GetFailed => None
  end.

(** Every item that a process has put and that can be pickled is, in the
    order of its puts, among those returned by [get], then those in the
    pipe, then those still in the buffer of the process. *)
Definition fifo_of (g : list event) (q : queue) : Prop :=
  ∀ p, gets_of p g ++ piped_of p q ++ picklable (buffer p q)
       = picklable (puts_of p g).

(** What [get] has returned and what the pipe holds is what the feeders
    have sent, in that order. *)
Definition pipe_order (g : list event) (q : queue) : Prop :=
  gets g ++ piped q = sent g.

Definition snoc (g : list event) (e : event) := g ++ [e].

(** Only the processes that the queue was created for take part. *)
Definition in_range (n : nat) (g : list event) (q : queue) : Prop :=
  length (buffers q) = n ∧
  Forall (λ m, (m.1 < n)%nat) (pipe q) ∧
  Forall (λ e, ∀ p, producer_of e = Some p → (p < n)%nat) g.
End Items.
Arguments queue T : clear implicits.
Arguments decision T : clear implicits.
Arguments event T : clear implicits.

(** *** 11_process_queue.py

    The main process creates the queue, starts a child that runs
    [prepare_chai], joins it and gets the message.  A process that exits
    first waits until its feeder has sent what is in its buffer.  The
    banner that the main process prints first is left out. *)
Inductive child_pc :=
| NotStarted
| Prepare         (* result = "..." *)
| PutResult       (* queue.put(result) *)
| SayPut          (* print *)
| Exiting         (* the function has returned, the process ends *)
| Exited.

Inductive main_pc :=
| Start           (* queue = Queue(); p = Process(...); p.start() *)
| Join            (* p.join() *)
| GetMessage      (* message = queue.get() *)
| SayReceived
| SaySuccess
| MainDone
| MainFailed.     (* the message could not be unpickled *)

Inductive output :=
| Print (msg : string)
| Silent.

Record state := State {
  shared : queue string;
  child : child_pc;
  result : option string;       (* the local of prepare_chai *)
  main : main_pc;
  message : option string       (* the variable of the main module *)
}.

Inductive scheduling := RunMain | RunChild | RunFeeder.

Definition masala : string := "☕ Masala chai is ready!".

Section Program.
Context `{Pickle string}.

Definition prepare_chai (s : state) : option (output * state) :=
  match child s with
  | Prepare =>
      Some (Silent, State (shared s) PutResult (Some masala) (main s) (message s))
  | PutResult =>
      x ← result s;
      '(_, q') ← step (Put 0 x) (shared s);
      Some (Silent, State q' SayPut (result s) (main s) (message s))
  | SayPut =>
      x ← result s;
      Some (Print ("📤 Worker: Put '" +:+ x +:+ "' into queue"),
            State (shared s) Exiting (result s) (main s) (message s))
  | Exiting =>
      match buffer 0 (shared s) with
      | [] => Some (Silent, State (shared s) Exited (result s) (main s) (message s))
      | _ => None
      end
  | NotStarted | Exited => None
  end.

Definition feeder_step (s : state) : option (output * state) :=
  match child s with
  | NotStarted | Exited => None
  | _ =>
      '(_, q') ← step (Feed 0) (shared s);
      Some (Silent, State q' (child s) (result s) (main s) (message s))
  end.

Definition main_step (s : state) : option (output * state) :=
  match main s with
  | Start =>
      Some (Silent, State (new 1) Prepare (result s) Join (message s))
  | Join =>
      match child s with
      | Exited => Some (Silent, State (shared s) Exited (result s) GetMessage (message s))
      | _ => None
      end
  | GetMessage =>
      '(e, q') ← step Get (shared s);
      match e with
      | Got _ x =>
          Some (Silent, State q' (child s) (result s) SayReceived (Some x))
      | _ => Some (Silent, State q' (child s) (result s) MainFailed (message s))
      end
  | SayReceived =>
      x ← message s;
      Some (Print ("📥 Main: Received '" +:+ x +:+ "' from queue"),
            State (shared s) (child s) (result s) SaySuccess (message s))
  | SaySuccess =>
      Some (Print (nl +:+ "✅ Inter-process communication successful!"),
            State (shared s) (child s) (result s) MainDone (message s))
  | MainDone | MainFailed => None
  end.

Definition program_step (d : scheduling) (s : state) : option (output * state) :=
  match d with
  | RunMain => main_step s
  | RunChild => prepare_chai s
  | RunFeeder => feeder_step s
  end.

Definition program_run := exec program_step.
End Program.

Definition init : state := State (Queue [] []) NotStarted None Start None.

(** The bytes that the item of the script is pickled to. *)
Definition pickled_masala : list byte := default [] (dumps_str masala).

(** The feeder has sent the item. *)
Definition fed (s : state) : bool :=
  match pipe (shared s), message s with
  | [], None => false
  | _, _ => true
  end.

(** The state in which the child is at [c], the main process at [m] and
    the feeder has or has not sent the item; [bs] is the pickled item. *)
Definition snapshot (bs : list byte) (c : child_pc) (sent : bool) (m : main_pc)
  : state :=
  let put := match c with SayPut | Exiting | Exited => true | _ => false end in
  let got := match m with SayReceived | SaySuccess | MainDone => true | _ => false end in
  State
    (Queue (match m with
            | Start => []
            | _ => [if put && negb sent then [masala] else []]
            end)
           (if sent && negb got then [(0%nat, bs)] else []))
    c
    (match c with NotStarted | Prepare => None | _ => Some masala end)
    m
    (if got then Some masala else None).

(** The combinations that occur in runs. *)
Definition occurs (c : child_pc) (sent : bool) (m : main_pc) : bool :=
  match c, m with
  | NotStarted, Start => negb sent
  | (Prepare | PutResult), Join => negb sent
  | (SayPut | Exiting), Join => true
  | Exited, (Join | GetMessage | SayReceived | SaySuccess | MainDone) => sent
  | _, _ => false
  end.

Definition sound (bs : list byte) (s : state) : Prop :=
  s = snapshot bs (child s) (fed s) (main s) ∧
  occurs (child s) (fed s) (main s) = true.
End ProcessQueue.

(** ** What the main modules print about the counter

    After the joins, 08_thread_lock.py (lines 119 to 125),
    12_process_value.py (lines 128 to 134) and 09_race_condition.py (lines
    109 to 117) print the final value of the counter, the expected value
    and a verdict.  [str] is Python's conversion of an int to text. *)
Module Report.
Definition str (n : Z) : string := pretty n.

Definition thread_lock (counter : Z) : list string :=
  [ "📊 Final counter: " +:+ str counter;
    "   Expected:      1000000";
    if decide (counter = 1000000)
    then nl +:+ "✅ SUCCESS! Lock prevented race condition!"
    else nl +:+ "❌ ERROR! Lost " +:+ str (1000000 - counter) +:+ " increments" ].

Definition process_value (counter : Z) : list string :=
  [ "📊 Final counter value: " +:+ str counter;
    "   Expected:            400000";
    if decide (counter = 400000)
    then nl +:+ "✅ SUCCESS! Lock prevented race condition across processes!"
    else nl +:+ "❌ ERROR! Lost " +:+ str (400000 - counter) +:+ " increments" ].

Definition race_condition (chai_stock : Z) : list string :=
  [ nl +:+ "📊 Final chai stock: " +:+ str chai_stock;
    "   Expected:         200000";
    "   Lost increments:  " +:+ str (200000 - chai_stock) ]
  ++ (if decide (chai_stock < 200000)
      then [ nl +:+ "❌ RACE CONDITION DETECTED!";
             "   Some increments were lost due to concurrent access." ]
      else [ nl +:+ "✅ Got lucky this time! (Race condition may still exist)" ]).
End Report.

(** The values that the stores of a run of the guarded loop have written,
    in order. *)
Definition stored_values (tr : list (nat * Counter.event)) : list Z :=
  omap (λ e, match e.2 with Counter.Store v => Some v | _ => None end) tr.

(** More schedules and invariants of 09_race_condition.py. *)
Module RaceBounds.
Import RaceCondition.

(** What a thread of [restock] can hold when every thread runs [iters]
    iterations and the stock is [stock]: in its first iteration it works
    from a read of 0 or more; from its second iteration on the stock has
    been written (no write is below 1) and the thread works from a read of
    1 or more. *)
Definition seen (iters : N) (stock : Z) (t : thread) : Prop :=
  match t with
  | AtFor n => n = iters ∨ ((n < iters)%N ∧ 1 ≤ stock)
  | Read n v =>
      (n = N.pred iters ∧ 0 ≤ v) ∨ ((n < N.pred iters)%N ∧ 1 ≤ v ∧ 1 ≤ stock)
  | Added n v =>
      (n = N.pred iters ∧ 1 ≤ v) ∨ ((n < N.pred iters)%N ∧ 2 ≤ v ∧ 1 ≤ stock)
  end.

Definition low_inv (iters : N) (c : config) : Prop :=
  0 ≤ c.1 ∧ (∀ i t, c.2 !! i = Some t → seen iters c.1 t) ∧
  (2 ≤ c.1 ∨ ¬ finished c).

(** Thread 0 reads the empty stock; thread 1 runs all its iterations but
    the last; thread 0 writes 1; thread 1 reads that 1 for its last
    iteration; thread 0 and the other threads run to their end; thread 1
    writes 2. *)
Definition lowest (workers : nat) (iters : N) : list nat :=
  [0%nat] ++ solo 1 (N.pred iters) ++ [0%nat; 0%nat] ++ [1%nat]
  ++ solo 0 (N.pred iters) ++ in_turn 2 (workers - 2) iters
  ++ [1%nat; 1%nat].

(** One thread alone: what it holds is what the stock says. *)
Definition alone (iters : N) (c : config) : Prop :=
  ∃ t, c.2 = [t] ∧
    match t with
    | AtFor n => c.1 + Z.of_N n = Z.of_N iters
    | Read n v => v = c.1 ∧ c.1 + Z.of_N n + 1 = Z.of_N iters
    | Added n v => v = c.1 + 1 ∧ c.1 + Z.of_N n + 1 = Z.of_N iters
    end.
End RaceBounds.

(** The states that 10_deadlock.py can be in. *)
Module DeadlockStates.
Import Deadlock.

(** The task is inside its outer with block. *)
Definition has_first (p : pc) : bool :=
  match p with
  | SayFirst | Sleep | SayWaiting | WithSecond | SaySecond | ExitSecond
  | ExitFirst => true
  | _ => false
  end.

(** The task is inside its inner with block. *)
Definition has_second (p : pc) : bool :=
  match p with
  | SaySecond | ExitSecond => true
  | _ => false
  end.

Definition holds (by1 by2 : bool) : Lock.t :=
  if by1 then Some (tid Task1) else if by2 then Some (tid Task2) else None.

(** Lock A is the outer lock of task 1 and the inner lock of task 2, lock B
    the other way round. *)
Definition locks_of (p1 p2 : pc) : locks :=
  Locks (holds (has_first p1) (has_second p2))
        (holds (has_second p1) (has_first p2)).

Definition exclusive (p1 p2 : pc) : bool :=
  negb (has_first p1 && has_second p2) && negb (has_second p1 && has_first p2).

Definition started (p : pc) : bool :=
  match p with NotStarted => false | _ => true end.

Definition is_done (p : pc) : bool :=
  match p with Done => true | _ => false end.

Definition main_ok (m : main_pc) (p1 p2 : pc) : bool :=
  match m with
  | Start1 => negb (started p1) && negb (started p2)
  | Start2 => started p1 && negb (started p2)
  | Join1 => started p1 && started p2
  | Join2 => is_done p1 && started p2
  | SayCompleted | MainDone => is_done p1 && is_done p2
  end.

Definition consistent (s : state) : Prop :=
  held s = locks_of (t1 s) (t2 s) ∧ exclusive (t1 s) (t2 s) = true ∧
  main_ok (main s) (t1 s) (t2 s) = true.

(** Both tasks have returned, the main thread has printed its last line. *)
Definition final : state := State (Locks None None) Done Done MainDone.

(** Statements a task, and the main thread, have still to perform. *)
Definition task_left (p : pc) : nat :=
  match p with
  | NotStarted | WithFirst => 8
  | SayFirst => 7
  | Sleep => 6
  | SayWaiting => 5
  | WithSecond => 4
  | SaySecond => 3
  | ExitSecond => 2
  | ExitFirst => 1
  | Done => 0
  end.

Definition main_left (m : main_pc) : nat :=
  match m with
  | Start1 => 5
  | Start2 => 4
  | Join1 => 3
  | Join2 => 2
  | SayCompleted => 1
  | MainDone => 0
  end.

Definition left (s : state) : nat :=
  task_left (t1 s) + task_left (t2 s) + main_left (main s).

(** Task 1 runs to its end before task 2 takes its first lock. *)
Definition one_after_the_other : list decision :=
  [RunMain; RunMain] ++ replicate 8 (RunTask Task1)
  ++ replicate 8 (RunTask Task2) ++ [RunMain; RunMain; RunMain].
End DeadlockStates.

(** 10_deadlock.py, "CONSISTENT LOCK ORDERING": both tasks take lock A, then
    lock B; the main thread is the one of the script. *)
Module LockOrdering.
Import Deadlock.

(** Where a task is in [with lock_a: with lock_b: ...]. *)
Inductive pc :=
| NotStarted
| WithA        (* at the outer with *)
| WithB        (* holds A, at the inner with *)
| Body         (* holds both locks *)
| ExitB        (* leaving the inner with *)
| ExitA        (* leaving the outer with *)
| Done.

Record state := State { held : locks; t1 : pc; t2 : pc; main : main_pc }.

Definition pc_of (t : task) (s : state) : pc :=
  match t with Task1 => t1 s | Task2 => t2 s end.

Definition set_pc (t : task) (p : pc) (σ : locks) (s : state) : state :=
  match t with
  | Task1 => State σ p (t2 s) (main s)
  | Task2 => State σ (t1 s) p (main s)
  end.

Definition task_step (t : task) (σ : locks) (p : pc)
  : option (event * locks * pc) :=
  match p with
  | NotStarted => None
  | WithA =>
      l' ← Lock.acquire (tid t) (get LockA σ);
      Some (Acquired t LockA, set LockA l' σ, WithB)
  | WithB =>
      l' ← Lock.acquire (tid t) (get LockB σ);
      Some (Acquired t LockB, set LockB l' σ, Body)
  | Body => Some (Worked t, σ, ExitB)
  | ExitB =>
      l' ← Lock.release (get LockB σ);
      Some (Released t LockB, set LockB l' σ, ExitA)
  | ExitA =>
      l' ← Lock.release (get LockA σ);
      Some (Released t LockA, set LockA l' σ, Done)
  | Done => None
  end.

Definition task1 := task_step Task1.
Definition task2 := task_step Task2.

Definition main_step (s : state) : option (event * state) :=
  match main s with
  | Start1 => Some (Started Task1, State (held s) WithA (t2 s) Start2)
  | Start2 => Some (Started Task2, State (held s) (t1 s) WithA Join1)
  | Join1 =>
      match t1 s with
      | Done => Some (Joined Task1, State (held s) (t1 s) (t2 s) Join2)
      | _ => None
      end
  | Join2 =>
      match t2 s with
      | Done => Some (Joined Task2, State (held s) (t1 s) (t2 s) SayCompleted)
      | _ => None
      end
  | SayCompleted =>
      Some (Print msg_completed, State (held s) (t1 s) (t2 s) MainDone)
  | MainDone => None
  end.

Definition step (d : decision) (s : state) : option (event * state) :=
  match d with
  | RunMain => main_step s
  | RunTask t =>
      '(e, σ', p') ← (match t with Task1 => task1 | Task2 => task2 end)
                       (held s) (pc_of t s);
      Some (e, set_pc t p' σ' s)
  end.

Definition run := exec step.

Definition init : state :=
  State (Locks Lock.new Lock.new) NotStarted NotStarted Start1.

Definition final : state := State (Locks None None) Done Done MainDone.

Definition has_a (p : pc) : bool :=
  match p with WithB | Body | ExitB | ExitA => true | _ => false end.

Definition has_b (p : pc) : bool :=
  match p with Body | ExitB => true | _ => false end.

Definition locks_of (p1 p2 : pc) : locks :=
  Locks (DeadlockStates.holds (has_a p1) (has_a p2))
        (DeadlockStates.holds (has_b p1) (has_b p2)).

Definition started (p : pc) : bool :=
  match p with NotStarted => false | _ => true end.

Definition is_done (p : pc) : bool :=
  match p with Done => true | _ => false end.

Definition main_ok (m : main_pc) (p1 p2 : pc) : bool :=
  match m with
  | Start1 => negb (started p1) && negb (started p2)
  | Start2 => started p1 && negb (started p2)
  | Join1 => started p1 && started p2
  | Join2 => is_done p1 && started p2
  | SayCompleted | MainDone => is_done p1 && is_done p2
  end.

Definition consistent (s : state) : Prop :=
  held s = locks_of (t1 s) (t2 s) ∧ negb (has_a (t1 s) && has_a (t2 s)) = true ∧
  main_ok (main s) (t1 s) (t2 s) = true.

Definition task_left (p : pc) : nat :=
  match p with
  | NotStarted | WithA => 5
  | WithB => 4
  | Body => 3
  | ExitB => 2
  | ExitA => 1
  | Done => 0
  end.

Definition left (s : state) : nat :=
  task_left (t1 s) + task_left (t2 s) + DeadlockStates.main_left (main s).
End LockOrdering.

(** What 07_daemon.py and 08_non_daemon.py print. *)
Module DaemonOutput.
Import Daemon.

Definition monitor_msg : string := "🌡️  Monitoring tea temperature...".

(** The lines of the main module, in order. *)
Definition lines (daemon : bool) : list string :=
  omap (λ st, match st with Say msg => Some msg | StartMonitor => None end)
       (script daemon).

(** The lines printed in a run, in order. *)
Definition prints (tr : list event) : list string :=
  omap (λ e, match e with Print msg => Some msg | _ => None end) tr.

(** How often the monitor has printed. *)
Definition monitored (tr : list event) : nat :=
  length (filter (λ msg, msg = monitor_msg) (prints tr)).

(** The main module up to the start of the thread, [n] rounds of the
    monitor, the rest of the main module and the shutdown. *)
Definition rounds (daemon : bool) (n : nat) : list decision :=
  replicate (S (start_at daemon)) RunMain
  ++ concat (replicate n [RunWorker; RunWorker])
  ++ replicate (length (script daemon) - start_at daemon) RunMain.
End DaemonOutput.

(** 05_process_async.py.  A Python str is the sequence of its code points;
    slicing with [::-1] reverses that sequence. *)
Module ProcessAsync.
Definition str : Type := list N.

(** An ASCII literal. *)
Definition text (s : string) : str :=
  (λ a, N.of_nat (Ascii.nat_of_ascii a)) <$> String.list_ascii_of_string s.

(** U+1F512, the lock of the f-string. *)
Definition lock : N := 128274.

Definition encrypt (data : str) : str :=
  let encrypted := reverse data in
  [lock] ++ text " " ++ encrypted.

(** What undoes [encrypt]. *)
Definition decrypt (result : str) : str := reverse (drop 2 result).

(** The argument of the call in [main]. *)
Definition credit_card : str := text "credit_card_1234".
End ProcessAsync.

(** The exception of the first child, in time, that raised. *)
Definition first_raise {V} (tr : list (Gather.decision (V:=V))) : option string :=
  head (omap (λ d, match d with
                   | Gather.Raise _ exc => Some exc
                   | Gather.Return _ _ => None
                   end) tr).

(** The outer future holds the exception of the first failure, and none
    if no child has raised. *)
Definition first_raise_inv {V} (g : list (Gather.decision (V:=V)))
  (s : Gather.gathering V) : Prop :=
  match first_raise g with
  | Some exc => Gather.outer s = Gather.Raised exc
  | None => ∀ exc, Gather.outer s ≠ Gather.Raised exc
  end.

(** ** threading.Thread and multiprocessing.Process: start and join

    The scripts 01_threading.py, 02_multiprocessing.py, 05_thread_one.py
    and 06_thread_two.py have one shape: functions that print and sleep,
    run by threads (or processes) that the main module starts and joins.
    Time is the reading of [time.time()] in milliseconds; it passes in the
    steps [Tick], a sleep ends no earlier than asked, and no statement needs
    time of its own. *)
Module Threads.
(** A statement of a target function. *)
Inductive stmt :=
| Say (msg : string)        (* print(msg) *)
| Sleep (ms : Z).           (* time.sleep(ms / 1000) *)

(** A statement of the main module. *)
Inductive main_stmt :=
| Print (msg : string)
| Start (i : nat)           (* .start() of thread i *)
| Join (i : nat)            (* .join() of thread i *)
| SetStart                  (* start = time.time() *)
| SetEnd                    (* end = time.time() *)
| PrintElapsed (before after : string).
                            (* print(f"{before}{end - start:.2f}{after}") *)

Global Instance stmt_eq_dec : EqDecision stmt.
Proof. solve_decision. Defined.

Global Instance main_stmt_eq_dec : EqDecision main_stmt.
Proof. solve_decision. Defined.

Record program := Program {
  targets : list (list stmt);     (* the statements each thread runs *)
  script : list main_stmt
}.

Inductive thread :=
| NotStarted
| At (pc : nat)                   (* about to run statement [pc] *)
| Sleeping (pc : nat) (until : Z)  (* in the sleep at [pc], which ends when
                                     the clock shows [until] or more *)
| Failed (pc : nat).              (* ended by the ValueError that the sleep
                                     at [pc] raised *)

Inductive who := Main | Worker (i : nat) | Clock.

Global Instance who_eq_dec : EqDecision who.
Proof. solve_decision. Defined.

Inductive action :=
| Said (msg : string)
| SaidElapsed (before : string) (ms : Z) (after : string)
| Started (i : nat)
| Joined (i : nat)
| ReadStart
| ReadEnd
| FellAsleep (ms : Z)
| Raised (ms : Z)                 (* time.sleep(ms / 1000): ValueError *)
| Woke
| Passed (dt : N).

Record event := Event { when : Z; by_ : who; what : action }.

Record state := State {
  now : Z;                        (* what time.time() would return *)
  start : option Z;               (* the variables of the main module *)
  end_ : option Z;
  next : nat;                     (* index of its next statement *)
  threads : list thread
}.

Inductive decision := Tick (dt : N) | RunMain | RunWorker (i : nat).

Section Program.
Variable p : program.

(** Thread [i] has ended: its target has returned, or has raised. *)
Definition finished (i : nat) (s : state) : bool :=
  match threads s !! i, targets p !! i with
  | Some (At pc), Some body => bool_decide (length body ≤ pc)%nat
  | Some (Failed _), Some _ => true
  | _, _ => false
  end.

Definition advance (s : state) (ts : list thread) : state :=
  State (now s) (start s) (end_ s) (S (next s)) ts.

(** The next statement of the main module.  [None]: blocked in a join, at
    its end, or an exception (a thread started twice or joined before it
    was started, a variable read before it was set). *)
Definition main_step (s : state) : option (event * state) :=
  st ← script p !! next s;
  match st with
  | Print msg => Some (Event (now s) Main (Said msg), advance s (threads s))
  | Start i =>
      match threads s !! i with
      | Some NotStarted =>
          Some (Event (now s) Main (Started i),
                advance s (<[i := At 0]> (threads s)))
      | _ => None
      end
  | Join i =>
      if finished i s
      then Some (Event (now s) Main (Joined i), advance s (threads s))
      else None
  | SetStart =>
      Some (Event (now s) Main ReadStart,
            State (now s) (Some (now s)) (end_ s) (S (next s)) (threads s))
  | SetEnd =>
      Some (Event (now s) Main ReadEnd,
            State (now s) (start s) (Some (now s)) (S (next s)) (threads s))
  | PrintElapsed before after =>
      t0 ← start s;
      t1 ← end_ s;
      Some (Event (now s) Main (SaidElapsed before (t1 - t0) after),
            advance s (threads s))
  end.

Definition set_thread (i : nat) (t : thread) (s : state) : state :=
  State (now s) (start s) (end_ s) (next s) (<[i := t]> (threads s)).

(** The next statement of thread [i].  [None]: not started, ended, or
    still asleep.  A negative sleep raises ValueError, which nothing
    catches: the thread ends there (its traceback goes to the standard
    error, which is not part of the output). *)
Definition worker_step (i : nat) (s : state) : option (event * state) :=
  body ← targets p !! i;
  t ← threads s !! i;
  match t with
  | NotStarted => None
  | At pc =>
      st ← body !! pc;
      match st with
      | Say msg =>
          Some (Event (now s) (Worker i) (Said msg), set_thread i (At (S pc)) s)
      | Sleep ms =>
          if decide (0 ≤ ms)
          then Some (Event (now s) (Worker i) (FellAsleep ms),
                     set_thread i (Sleeping pc (now s + ms)) s)
          else Some (Event (now s) (Worker i) (Raised ms),
                     set_thread i (Failed pc) s)
      end
  | Sleeping pc until =>
      if decide (until ≤ now s)
      then Some (Event (now s) (Worker i) Woke, set_thread i (At (S pc)) s)
      else None
  | Failed _ => None
  end.

Definition step (d : decision) (s : state) : option (event * state) :=
  match d with
  | Tick dt =>
      Some (Event (now s + Z.of_N dt) Clock (Passed dt),
            State (now s + Z.of_N dt) (start s) (end_ s) (next s) (threads s))
  | RunMain => main_step s
  | RunWorker i => worker_step i s
  end.

Definition run := exec step.

Definition init : state :=
  State 0 None None 0 (replicate (length (targets p)) NotStarted).

(** The thread has been started and has not ended. *)
Definition running (t : thread) (body : list stmt) : bool :=
  match t with
  | NotStarted | Failed _ => false
  | At pc => bool_decide (pc < length body)%nat
  | Sleeping _ _ => true
  end.
End Program.

(** The statement of the main module that an action of the main thread
    was. *)
Definition main_stmt_of (a : action) : option main_stmt :=
  match a with
  | Said msg => Some (Print msg)
  | SaidElapsed before _ after => Some (PrintElapsed before after)
  | Started i => Some (Start i)
  | Joined i => Some (Join i)
  | ReadStart => Some SetStart
  | ReadEnd => Some SetEnd
  | FellAsleep _ | Raised _ | Woke | Passed _ => None
  end.

(** The statements that the main thread has run, in order. *)
Definition main_trace (tr : list event) : list main_stmt :=
  omap (λ e, match by_ e with Main => main_stmt_of (what e) | _ => None end) tr.

(** The statement that an action of a worker began. *)
Definition stmt_of (a : action) : option stmt :=
  match a with
  | Said msg => Some (Say msg)
  | FellAsleep ms | Raised ms => Some (Sleep ms)
  | _ => None
  end.

(** The statements that thread [i] has begun, in order. *)
Definition begun (i : nat) (tr : list event) : list stmt :=
  omap (λ e, if decide (by_ e = Worker i) then stmt_of (what e) else None) tr.

(** The lines printed, each with who printed it, in order.  The line with
    the elapsed time is given by its two texts. *)
Definition output (tr : list event) : list (who * string) :=
  omap (λ e, match what e with
             | Said msg => Some (by_ e, msg)
             | SaidElapsed before _ after => Some (by_ e, before +:+ after)
             | _ => None
             end) tr.

(** The lines that a function prints. *)
Definition lines (body : list stmt) : list string :=
  omap (λ st, match st with Say msg => Some msg | Sleep _ => None end) body.

(** The time that a function sleeps in all. *)
Definition slept (body : list stmt) : Z :=
  sumZ (λ st, match st with Sleep ms => ms | Say _ => 0 end) body.

(** Statements begun by a thread in this state. *)
Definition count (t : thread) : nat :=
  match t with
  | NotStarted => 0
  | At pc => pc
  | Sleeping pc _ | Failed pc => S pc
  end.
End Threads.

(** 01_threading.py *)
Module Threading.
Import Threads.

Definition take_orders : list stmt :=
  seqZ 1 3 ≫= λ i, [Say ("📝 Taking order for #" +:+ pretty i); Sleep 2000].

Definition brew_chai : list stmt :=
  seqZ 1 3 ≫= λ i, [Say ("☕ Brewing chai for #" +:+ pretty i); Sleep 3000].

(** Thread 0 is [order_thread], thread 1 is [brew_thread]. *)
Definition program : Threads.program :=
  Program [take_orders; brew_chai]
    [ Print ("🚀 Starting the chai shop operations..." +:+ nl);
      Start 0; Start 1; Join 0; Join 1;
      Print (nl +:+ "✅ All orders taken and chai brewed!") ].
End Threading.

(** 02_multiprocessing.py: the three processes share nothing but the
    standard output. *)
Module Multiprocessing.
Import Threads.

Definition brew_chai (name : string) : list stmt :=
  [ Say ("☕ Start of " +:+ name +:+ " chai brewing");
    Sleep 3000;
    Say ("✅ End of " +:+ name +:+ " chai brewing") ].

Definition chai_makers : list (list stmt) :=
  (λ i, brew_chai ("Chai Maker #" +:+ pretty (i + 1))) <$> seqZ 0 3.

Definition program : Threads.program :=
  Program chai_makers
    ([ Print ("🚀 Starting all chai makers in parallel..." +:+ nl) ]
     ++ (Start <$> seq 0 3) ++ (Join <$> seq 0 3)
     ++ [ Print (nl +:+ "🎉 All chai served!") ]).
End Multiprocessing.

(** 05_thread_one.py *)
Module ThreadOne.
Import Threads.

Definition boil_milk : list stmt :=
  [Say "🥛 Boiling milk..."; Sleep 2000; Say "✅ Milk boiled!"].

Definition toast_bun : list stmt :=
  [Say "🍞 Toasting bun..."; Sleep 3000; Say "✅ Bun toasted!"].

Definition rule : string :=
  "==================================================".

Definition program : Threads.program :=
  Program [boil_milk; toast_bun]
    [ Print rule; Print "🍳 BREAKFAST MAKER: Threading Demo"; Print rule;
      Print ("Making breakfast with concurrent tasks..." +:+ nl);
      SetStart;
      Start 0; Start 1; Join 0; Join 1;
      SetEnd;
      PrintElapsed (nl +:+ "🎉 Breakfast is ready in ") " seconds!" ].
End ThreadOne.

(** 06_thread_two.py *)
Module ThreadTwo.
Import Threads.

Definition prepare_chai (type_ : string) (wait_time : Z) : list stmt :=
  [ Say ("☕ " +:+ type_ +:+ " chai: brewing...");
    Sleep (1000 * wait_time);
    Say ("✅ " +:+ type_ +:+ " chai: Ready!") ].

Definition program : Threads.program :=
  Program [prepare_chai "Masala" 2; prepare_chai "Ginger" 3]
    [ Print ThreadOne.rule; Print "☕ CHAI SHOP: Parameterized Threading Demo";
      Print ThreadOne.rule;
      Print ("Brewing two types of chai concurrently..." +:+ nl);
      Start 0; Start 1; Join 0; Join 1;
      Print (nl +:+ "🎉 All chai varieties are ready to serve!") ].
End ThreadTwo.
(** What holds of every run of a program of threads: [g] is the trace so
    far. *)
Module ThreadsInv.
Import Threads.

(** No sleep of the function is negative: the function raises nothing. *)
Definition no_raise (body : list stmt) : Prop :=
  ∀ ms, Sleep ms ∈ body → 0 ≤ ms.

Definition sleeps_ok (p : program) : Prop :=
  ∀ i body, targets p !! i = Some body → no_raise body.

Record ordered (p : program) (g : list event) (s : state) : Prop := Ordered {
  ordered_main : main_trace g = take (next s) (script p);
  ordered_length : length (threads s) = length (targets p);
  ordered_thread : ∀ i t,
    threads s !! i = Some t →
    ∃ body, targets p !! i = Some body ∧
            begun i g = take (count t) body ∧
            (count t ≤ length body)%nat ∧
            (t ≠ NotStarted →
             Start i ∈ take (next s) (script p) ∧
             ∃ t0, Event t0 Main (Started i) ∈ g) ∧
            (∀ pc, t = Failed pc →
             ∃ ms, body !! pc = Some (Sleep ms) ∧ ms < 0) ∧
            (∀ k ms, (k < count t)%nat → body !! k = Some (Sleep ms) →
                     ms < 0 → t = Failed k);
  ordered_started : ∀ i,
    Start i ∈ take (next s) (script p) →
    ∃ t, threads s !! i = Some t ∧ t ≠ NotStarted;
  ordered_join : ∀ i,
    Join i ∈ take (next s) (script p) → finished p i s = true;
  ordered_start : SetStart ∈ take (next s) (script p) ↔ is_Some (start s);
  ordered_end : SetEnd ∈ take (next s) (script p) ↔ is_Some (end_ s)
}.

Record timed (p : program) (g : list event) (s : state) : Prop := Timed {
  timed_past : ∀ e, e ∈ g → when e ≤ now s;
  timed_thread : ∀ i t body t0,
    threads s !! i = Some t → targets p !! i = Some body →
    Event t0 Main (Started i) ∈ g →
    match t with
    | NotStarted => False
    | At pc => t0 + slept (take pc body) ≤ now s
    | Sleeping pc until => t0 + slept (take (S pc) body) ≤ until
    | Failed pc => ∃ ms, body !! pc = Some (Sleep ms) ∧ ms < 0
    end;
  timed_joined : ∀ i t1,
    Event t1 Main (Joined i) ∈ g → finished p i s = true;
  timed_join : ∀ i body t0 t1,
    targets p !! i = Some body → no_raise body →
    Event t0 Main (Started i) ∈ g → Event t1 Main (Joined i) ∈ g →
    t0 + slept body ≤ t1
}.

(** The line that a statement of the main module prints. *)
Definition line_of (st : main_stmt) : option string :=
  match st with
  | Print msg => Some msg
  | PrintElapsed before after => Some (before +:+ after)
  | _ => None
  end.

(** The lines that thread [i] has printed, in order. *)
Definition said (i : nat) (tr : list event) : list string :=
  omap (λ e, if decide (by_ e = Worker i)
             then match what e with Said msg => Some msg | _ => None end
             else None) tr.

(** The main module begins by printing [first], ends by printing [closing]
    and joins every thread. *)
Record framed (p : program) (first closing : string) : Prop := Framed {
  framed_first : script p !! 0%nat = Some (Print first);
  framed_last : last (script p) ≫= line_of = Some closing;
  framed_joined : ∀ i, (i < length (targets p))%nat → Join i ∈ script p
}.

Definition framed_inv (p : program) (first closing : string)
  (g : list event) (s : state) : Prop :=
  ordered p g s ∧
  (next s = 0%nat → output g = []) ∧
  ((0 < next s)%nat → head (output g) = Some (Main, first)) ∧
  (next s = length (script p) → last (output g) = Some (Main, closing)).

(** The clock is read around the threads: [start] before any thread is
    started and before [end], [end] after every thread is joined. *)
Record clock_ok (p : program) : Prop := ClockOk {
  start_first : ∀ k st,
    script p !! k = Some SetStart → st ∈ take k (script p) →
    (∀ i, st ≠ Start i) ∧ st ≠ SetEnd;
  joined_before_end : ∀ k i,
    script p !! k = Some SetEnd → (i < length (targets p))%nat →
    Join i ∈ take k (script p)
}.

Record clocked (p : program) (g : list event) (s : state) : Prop := Clocked {
  clocked_start : ∀ ts,
    start s = Some ts →
    ts ≤ now s ∧ ∀ i t0, Event t0 Main (Started i) ∈ g → ts ≤ t0;
  clocked_end : ∀ ts te i body,
    start s = Some ts → end_ s = Some te → targets p !! i = Some body →
    no_raise body → ts + slept body ≤ te;
  clocked_print : ∀ t before ms after i body,
    Event t Main (SaidElapsed before ms after) ∈ g →
    targets p !! i = Some body → no_raise body → slept body ≤ ms
}.

(** The main module starts no thread twice, joins only threads that it has
    started, prints the elapsed time only after it has read the clock
    twice; no sleep is negative. *)
Record well_formed (p : program) : Prop := WellFormed {
  start_once : ∀ k i,
    script p !! k = Some (Start i) →
    (i < length (targets p))%nat ∧ Start i ∉ take k (script p);
  join_started : ∀ k i,
    script p !! k = Some (Join i) → Start i ∈ take k (script p);
  elapsed_known : ∀ k before after,
    script p !! k = Some (PrintElapsed before after) →
    SetStart ∈ take k (script p) ∧ SetEnd ∈ take k (script p);
  sleeps_nonneg : ∀ i body ms,
    targets p !! i = Some body → Sleep ms ∈ body → 0 ≤ ms
}.

(** The main module is at its end and no thread has a statement left. *)
Definition final (p : program) (s : state) : Prop :=
  script p !! next s = None ∧
  ∀ i t body, threads s !! i = Some t → targets p !! i = Some body →
              running t body = false.

Global Instance running_dec (tb : thread * list stmt) :
  Decision (running tb.1 tb.2 = true).
Proof. solve_decision. Defined.

(** Steps that a function, a thread and the whole program have still to
    take; a sleep is two steps. *)
Definition cost (body : list stmt) : Z :=
  sumZ (λ st, match st with Say _ => 1 | Sleep _ => 2 end) body.

Definition left_thread (tb : thread * list stmt) : Z :=
  match tb.1 with
  | NotStarted => cost tb.2
  | At pc => cost (drop pc tb.2)
  | Sleeping pc _ => 1 + cost (drop (S pc) tb.2)
  | Failed _ => 0
  end.

Definition left (p : program) (s : state) : Z :=
  Z.of_nat (length (script p) - next s)
  + sumZ left_thread (zip (threads s) (targets p)).
End ThreadsInv.

(** The two threads of 05_thread_one.py sleep at the same time: the clock
    is moved by 2 s, then by 1 s. *)
Definition breakfast_in_three_seconds : list Threads.decision :=
  replicate 7 Threads.RunMain
  ++ [Threads.RunWorker 0; Threads.RunWorker 0;
      Threads.RunWorker 1; Threads.RunWorker 1;
      Threads.Tick 2000; Threads.RunWorker 0; Threads.RunWorker 0;
      Threads.Tick 1000; Threads.RunWorker 1; Threads.RunWorker 1]
  ++ replicate 4 Threads.RunMain.

(** What 11_process_queue.py prints after its banner. *)
Module ProcessQueueOutput.
Import ProcessQueue.

Definition said_put : string :=
  "📤 Worker: Put '" +:+ masala +:+ "' into queue".
Definition said_received : string :=
  "📥 Main: Received '" +:+ masala +:+ "' from queue".
Definition said_success : string :=
  nl +:+ "✅ Inter-process communication successful!".

(** The lines printed in a run, in order. *)
Definition prints (tr : list output) : list string :=
  omap (λ o, match o with Print msg => Some msg | Silent => None end) tr.

(** The lines that have been printed when the child is at [c] and the main
    process at [m]. *)
Definition printed (c : child_pc) (m : main_pc) : list string :=
  match c with Exiting | Exited => [said_put] | _ => [] end
  ++ match m with SaySuccess | MainDone => [said_received] | _ => [] end
  ++ match m with MainDone => [said_success] | _ => [] end.

(** Steps that the child, its feeder and the main process have still to
    take. *)
Definition steps_left (s : state) : nat :=
  match child s with
  | NotStarted | Prepare => 4
  | PutResult => 3
  | SayPut => 2
  | Exiting => 1
  | Exited => 0
  end
  + (if fed s then 0 else 1)
  + match main s with
    | Start => 5
    | Join => 4
    | GetMessage => 3
    | SayReceived => 2
    | SaySuccess => 1
    | MainDone | MainFailed => 0
    end.
End ProcessQueueOutput.

(** What 02_async_two.py prints. *)
Module AsyncTwoOutput.
Import AsyncTwo.

Definition brewing (name : string) : string := "☕ Brewing " +:+ name +:+ "...".
Definition ready (name : string) : string := "✅ " +:+ name +:+ " is ready!".
Definition closing : string :=
  "   (3 brews × 3 seconds each, but only ~3 seconds total!)".

(** The lines of a brew that has begun, or ended, have been printed. *)
Definition logged (g : list event) (s : state) : Prop :=
  ∀ i name p, names !! i = Some name → brews s !! i = Some p →
    match p with
    | Created => True
    | Brewing => Print (brewing name) ∈ g
    | Ready => Print (brewing name) ∈ g ∧ Print (ready name) ∈ g
    end.

(** Steps that a brew and the program have still to take. *)
Definition brew_left (p : brew_pc) : nat :=
  match p with Created => 2 | Brewing => 1 | Ready => 0 end.

Definition steps_left (s : state) : nat :=
  match main s with
  | BeforeGather => 9
  | Awaiting => 2 + sum_list (brew_left <$> brews s)
  | AfterGather => 1
  | MainDone | MainFailed => 0
  end.
End AsyncTwoOutput.

(* ================================================================== *)
(** * Properties *)

(** ** Schedules and sums *)

Section ExecFacts.
Context {D C E : Type}.
Variable step : D → C → option (E * C).

Lemma exec_cons d sch c tr c'' :
  exec step (d :: sch) c = Some (tr, c'') ↔
  ∃ e c' tr', step d c = Some (e, c') ∧ exec step sch c' = Some (tr', c'')
              ∧ tr = e :: tr'.
Proof.
  split.
  - simpl. destruct (step d c) as [[e c']|]; simpl; [|done].
    destruct (exec step sch c') as [[tr' c3]|] eqn:Hx; simpl; [|done].
    intros [= <- <-]. by exists e, c', tr'.
  - intros (e & c' & tr' & Hs & Hr & ->). simpl.
    rewrite Hs. simpl. by rewrite Hr.
Qed.

Lemma exec_app s1 s2 c tr1 c1 tr2 c2 :
  exec step s1 c = Some (tr1, c1) →
  exec step s2 c1 = Some (tr2, c2) →
  exec step (s1 ++ s2) c = Some (tr1 ++ tr2, c2).
Proof.
  revert c tr1. induction s1 as [|d s1 IH]; intros c tr1 H1 H2.
  - simpl in H1. by simplify_eq.
  - apply exec_cons in H1 as (e & c' & tr' & Hs & Hr & ->).
    rewrite <- app_comm_cons. apply exec_cons.
    exists e, c', (tr' ++ tr2). eauto.
Qed.

Lemma exec_next d sch c e c' tr c'' :
  step d c = Some (e, c') → exec step sch c' = Some (tr, c'') →
  exec step (d :: sch) c = Some (e :: tr, c'').
Proof. intros Hs Hr. apply exec_cons. by exists e, c', tr. Qed.

(** An invariant indexed by a ghost value that each event advances. *)
Lemma exec_invariant {G} (I : G → C → Prop) (adv : G → E → G) :
  (∀ g d c e c', I g c → step d c = Some (e, c') → I (adv g e) c') →
  ∀ sch g c tr c',
    I g c → exec step sch c = Some (tr, c') → I (foldl adv g tr) c'.
Proof.
  intros Hstep. induction sch as [|d sch IH]; intros g c tr c' HI Hx.
  - simpl in Hx. by simplify_eq.
  - apply exec_cons in Hx as (e & c1 & tr' & Hs & Hr & ->).
    simpl. eapply IH; eauto.
Qed.
End ExecFacts.

Section SumZ.
Context {A : Type} (f : A → Z).

Lemma sumZ_app l1 l2 : sumZ f (l1 ++ l2) = sumZ f l1 + sumZ f l2.
Proof. induction l1 as [|x l1 IH]; simpl; lia. Qed.

Lemma sumZ_insert l i x y :
  l !! i = Some x → sumZ f (<[i := y]> l) = sumZ f l - f x + f y.
Proof.
  revert i. induction l as [|z l IH]; intros [|i] Hi; simplify_eq/=.
  - lia.
  - rewrite (IH i Hi). lia.
Qed.

Lemma sumZ_replicate n x : sumZ f (replicate n x) = Z.of_nat n * f x.
Proof. induction n as [|n IH]; simpl; lia. Qed.

Lemma sumZ_zero l : (∀ i x, l !! i = Some x → f x = 0) → sumZ f l = 0.
Proof.
  induction l as [|z l IH]; intros H; simpl; [done|].
  rewrite (H 0%nat z eq_refl), IH; [done|].
  intros i x Hi. apply (H (S i) x Hi).
Qed.

Lemma sumZ_nonneg l : (∀ x, 0 ≤ f x) → 0 ≤ sumZ f l.
Proof. intros H. induction l as [|z l IH]; simpl; [lia|]. specialize (H z). lia. Qed.

Lemma sumZ_lookup_le l i x :
  (∀ y, 0 ≤ f y) → l !! i = Some x → f x ≤ sumZ f l.
Proof.
  intros Hf Hi. apply list_elem_of_split_length in Hi as (l1 & l2 & -> & _).
  rewrite sumZ_app. simpl.
  pose proof (sumZ_nonneg l1 Hf). pose proof (sumZ_nonneg l2 Hf). lia.
Qed.

(** When at most the element at [i] has a weight, the sum is at most that
    weight. *)
Lemma sumZ_only l i b :
  (∀ j x, l !! j = Some x → j ≠ i → f x = 0) →
  (∀ x, l !! i = Some x → f x ≤ b) → 0 ≤ b → sumZ f l ≤ b.
Proof.
  revert i. induction l as [|z l IH]; intros i H0 Hi Hb; simpl; [done|].
  destruct i as [|i].
  - rewrite (sumZ_zero l).
    + specialize (Hi z eq_refl). lia.
    + intros j x Hj. apply (H0 (S j) x Hj). lia.
  - rewrite (H0 0%nat z eq_refl) by lia.
    assert (sumZ f l ≤ b); [|lia].
    apply (IH i); [|by intros x Hx; apply Hi|done].
    intros j x Hj Hne. apply (H0 (S j) x Hj). lia.
Qed.
End SumZ.

(** ** The guarded increment loop *)

Section CounterFacts.
Import Counter.
Variable cell : Z → Z.
Hypothesis cell_zero : cell 0 = 0.
Hypothesis cell_succ : ∀ x, cell (cell x + 1) = cell (x + 1).

Lemma step_inv i c ev c' :
  step cell i c = Some (ev, c') →
  ∃ t e σ' t', c.2 !! i = Some t ∧ tstep cell i c.1 t = Some (e, σ', t')
               ∧ ev = (i, e) ∧ c' = (σ', <[i := t']> c.2).
Proof.
  unfold step. destruct (c.2 !! i) as [t|] eqn:Hi; simpl; [|done].
  destruct (tstep cell i c.1 t) as [[[e σ'] t']|] eqn:Ht; simpl; [|done].
  intros [= <- <-]. by exists t, e, σ', t'.
Qed.

Lemma pending_nonneg t : 0 ≤ pending t.
Proof. destruct t; simpl; lia. Qed.

Lemma at_stored_nonneg t : 0 ≤ at_stored t.
Proof. destruct t; simpl; lia. Qed.

Lemma inv_init workers iters :
  inv cell (Z.of_nat workers * Z.of_N iters) (0, 0) (init workers iters).
Proof.
  split; simpl.
  - by rewrite cell_zero.
  - done.
  - by rewrite sumZ_replicate.
  - intros i t [-> _]%lookup_replicate. by split.
  - done.
  - rewrite sumZ_zero; [done|]. by intros i t [-> _]%lookup_replicate.
Qed.

Lemma inv_step total kr i c e c' :
  inv cell total kr c → step cell i c = Some (e, c') → inv cell total (advance kr e) c'.
Proof.
  intros [Hv Hk Hp Hc Hh Hr] (t & e' & σ' & t' & Hi & Ht & -> & ->)%step_inv.
  destruct c as [σ ts], kr as [k r]; simpl in *.
  pose proof (Hc i t Hi) as [Hin Hval].
  assert (∀ j u, ts !! j = Some u → j ≠ i → lock σ = Some i →
                 in_block u = false) as Hothers.
  { intros j u Hj Hne Hl. destruct (in_block u) eqn:Hu; [|done].
    apply (Hc j u Hj) in Hu. congruence. }
  assert (i < length ts)%nat as Hlen by (by eapply lookup_lt_Some).
  destruct t as [n|n|n v|n v|n]; simpl in Ht.
  - (* acquire *)
    destruct (decide (n = 0%N)) as [|Hn]; [done|].
    destruct (lock σ) as [h|] eqn:Hl; simpl in Ht; [done|].
    injection Ht as <- <- <-. unfold advance; simpl.
    split; simpl; try done.
    + rewrite (sumZ_insert _ _ _ _ _ Hi). simpl. lia.
    + intros j u. rewrite list_lookup_insert. case_decide as Hj.
      * intros [= <-]. destruct Hj as [-> _]. by split.
      * intros Hu. destruct (Hc j u Hu) as [Hjin Hjval]. simpl in *.
        assert (in_block u = false) as Hnb.
        { destruct (in_block u); [|done].
          destruct Hjin as [Hjin _]. specialize (Hjin eq_refl). congruence. }
        split; [|by destruct u].
        rewrite Hnb. split; [done|]. intros [= ->]. by destruct Hj.
    + intros j [= <-]. rewrite list_lookup_insert_eq by done. by eexists.
    + rewrite (sumZ_insert _ _ _ _ _ Hi). simpl. lia.
  - (* load *)
    injection Ht as <- <- <-. unfold advance; simpl.
    split; simpl; try done.
    + rewrite (sumZ_insert _ _ _ _ _ Hi). simpl. lia.
    + intros j u. rewrite list_lookup_insert. case_decide as Hj.
      * intros [= <-]. destruct Hj as [-> _]. split; [|done]. by rewrite <- Hin.
      * intros Hu. apply (Hc j u Hu).
    + intros j Hj. rewrite list_lookup_insert. case_decide; [by eexists|by apply Hh].
    + rewrite (sumZ_insert _ _ _ _ _ Hi). simpl. lia.
  - (* add *)
    injection Ht as <- <- <-. unfold advance; simpl.
    split; simpl; try done.
    + rewrite (sumZ_insert _ _ _ _ _ Hi). simpl. lia.
    + intros j u. rewrite list_lookup_insert. case_decide as Hj.
      * intros [= <-]. destruct Hj as [-> _]. split; [|simpl in *; lia].
        by rewrite <- Hin.
      * intros Hu. apply (Hc j u Hu).
    + intros j Hj. rewrite list_lookup_insert. case_decide; [by eexists|by apply Hh].
    + rewrite (sumZ_insert _ _ _ _ _ Hi). simpl. lia.
  - (* store *)
    injection Ht as <- <- <-. unfold advance; simpl. simpl in Hval.
    assert (lock σ = Some i) as Hl by (by apply Hin).
    split; simpl.
    + rewrite Hval, Hv. apply cell_succ.
    + lia.
    + rewrite (sumZ_insert _ _ _ _ _ Hi). simpl. lia.
    + intros j u. rewrite list_lookup_insert. case_decide as Hj.
      * intros [= <-]. destruct Hj as [-> _]. by split.
      * intros Hu. assert (j ≠ i) by (intros ->; by destruct Hj).
        pose proof (Hothers j u Hu ltac:(done) Hl) as Hnb.
        destruct (Hc j u Hu) as [Hjin _]. split; [done|].
        by destruct u.
    + intros j Hj. rewrite list_lookup_insert. case_decide; [by eexists|by apply Hh].
    + rewrite (sumZ_insert _ _ _ _ _ Hi). simpl. lia.
  - (* release *)
    destruct (lock σ) as [h|] eqn:Hl; simpl in Ht; [|done].
    assert (h = i) as ->.
    { destruct Hin as [Hin _]. specialize (Hin eq_refl). by simplify_eq. }
    injection Ht as <- <- <-. unfold advance; simpl.
    split; simpl; try done.
    + rewrite (sumZ_insert _ _ _ _ _ Hi). simpl. lia.
    + intros j u. rewrite list_lookup_insert. case_decide as Hj.
      * intros [= <-]. by split.
      * intros Hu. assert (j ≠ i) by (intros ->; by destruct Hj).
        pose proof (Hothers j u Hu ltac:(done) eq_refl) as Hnb.
        split; [by rewrite Hnb|]. by destruct u.
    + rewrite (sumZ_insert _ _ _ _ _ Hi). simpl. lia.
Qed.

Lemma inv_run total sch kr c tr c' :
  inv cell total kr c → run cell sch c = Some (tr, c') →
  inv cell total (foldl advance kr tr) c'.
Proof. apply exec_invariant. intros. by eapply inv_step. Qed.

Lemma advance_counts tr kr :
  foldl advance kr tr = (kr.1 + stores tr, kr.2 + releases tr).
Proof.
  revert kr. induction tr as [|[i e] tr IH]; intros [k r]; simpl.
  - unfold stores, releases. simpl. f_equal; lia.
  - rewrite IH. unfold stores, releases, advance. simpl.
    destruct e; simpl; f_equal; lia.
Qed.

Lemma inv_counts total sch tr c workers iters :
  total = Z.of_nat workers * Z.of_N iters →
  run cell sch (init workers iters) = Some (tr, c) →
  inv cell total (stores tr, releases tr) c.
Proof.
  intros -> Hrun. pose proof (inv_run _ _ _ _ _ _ (inv_init workers iters) Hrun) as H.
  by rewrite advance_counts in H.
Qed.

Lemma finished_pending c : finished c → sumZ pending c.2 = 0.
Proof.
  intros Hf. apply sumZ_zero. intros i t Hi.
  by rewrite (proj1 (Forall_lookup _ _) Hf i t Hi).
Qed.

(** When every worker is done the counter holds the number of iterations
    asked for. *)
Lemma finished_value total kr c :
  inv cell total kr c → finished c → value c.1 = cell total.
Proof.
  intros [Hv _ Hp _ _ _] Hf. rewrite Hv. f_equal.
  rewrite (finished_pending c Hf) in Hp. lia.
Qed.

(** No run is blocked: while a worker has work left, some worker can
    perform its next statement. *)
Lemma progress total kr c :
  inv cell total kr c → ¬ finished c → ∃ i, is_Some (step cell i c).
Proof.
  intros [_ _ _ Hc Hh _] Hnf. destruct c as [σ ts]; simpl in *.
  destruct (lock σ) as [h|] eqn:Hl.
  - destruct (Hh h eq_refl) as [t Ht]. exists h.
    destruct (Hc h t Ht) as [Hin _]. rewrite Hl in Hin.
    unfold step; simpl. rewrite Ht; simpl.
    destruct t as [n|n|n v|n v|n]; simpl; try by eexists.
    + destruct Hin as [_ Hin]. by specialize (Hin eq_refl).
    + rewrite Hl. simpl. by eexists.
  - apply not_Forall_Exists in Hnf; [|apply _].
    apply Exists_exists in Hnf as (t & Ht & Hne).
    apply list_elem_of_lookup in Ht as [i Hi]. exists i. simpl in Hi.
    destruct (Hc i t Hi) as [Hin _]. rewrite Hl in Hin.
    unfold step; simpl. rewrite Hi; simpl.
    destruct t as [n|n|n v|n v|n]; simpl;
      try (destruct Hin as [Hin _]; by specialize (Hin eq_refl)).
    destruct (decide (n = 0%N)) as [->|]; [by destruct Hne|].
    rewrite Hl. simpl. by eexists.
Qed.

(** Every statement performed brings the run one step closer to its
    end. *)
Lemma step_measure i c e c' :
  step cell i c = Some (e, c') →
  sumZ statements_left c'.2 = sumZ statements_left c.2 - 1.
Proof.
  intros (t & e' & σ' & t' & Hi & Ht & -> & ->)%step_inv. simpl.
  rewrite (sumZ_insert _ _ _ _ _ Hi).
  destruct t as [n|n|n v|n v|n]; simpl in Ht.
  - destruct (decide (n = 0%N)); [done|].
    destruct (Lock.acquire i (lock c.1)); simpl in Ht; [|done].
    injection Ht as <- <- <-. simpl. lia.
  - injection Ht as <- <- <-. simpl. lia.
  - injection Ht as <- <- <-. simpl. lia.
  - injection Ht as <- <- <-. simpl. lia.
  - destruct (Lock.release (lock c.1)); simpl in Ht; [|done].
    injection Ht as <- <- <-. simpl. lia.
Qed.

Lemma run_measure sch c tr c' :
  run cell sch c = Some (tr, c') →
  sumZ statements_left c'.2 = sumZ statements_left c.2 - Z.of_nat (length sch).
Proof.
  revert c tr. induction sch as [|d sch IH]; intros c tr Hx.
  - simpl in Hx. injection Hx as <- <-. simpl. lia.
  - apply exec_cons in Hx as (e & c1 & tr' & Hs & Hr & ->).
    rewrite (IH _ _ Hr), (step_measure _ _ _ _ Hs).
    rewrite length_cons. lia.
Qed.

Lemma statements_left_nonneg t : 0 ≤ statements_left t.
Proof. destruct t; simpl; lia. Qed.

(** From every state of a run the scheduler can bring all workers to
    their end. *)
Lemma can_finish total kr c :
  inv cell total kr c → ∃ sch tr c', run cell sch c = Some (tr, c') ∧ finished c'.
Proof.
  remember (Z.to_nat (sumZ statements_left c.2)) as m eqn:Hm.
  revert kr c Hm. induction m as [m IH] using lt_wf_ind. intros kr c Hm HI.
  destruct (decide (finished c)) as [Hf|Hnf].
  - by exists [], [], c.
  - destruct (progress _ _ _ HI Hnf) as [i [[e c1] Hs]].
    pose proof (step_measure _ _ _ _ Hs) as Hdec.
    pose proof (sumZ_nonneg statements_left c1.2 statements_left_nonneg).
    destruct (IH (Z.to_nat (sumZ statements_left c1.2)) ltac:(lia)
                _ c1 eq_refl (inv_step _ _ _ _ _ _ HI Hs))
      as (sch & tr & c' & Hr & Hf).
    exists (i :: sch), (e :: tr), c'. split; [|done].
    apply exec_cons. by exists e, c1, tr.
Qed.

(** At most one worker is between its store and its release. *)
Lemma at_stored_le_1 total kr c :
  inv cell total kr c →
  0 ≤ sumZ at_stored c.2 ≤ 1 ∧ (lock c.1 = None → sumZ at_stored c.2 = 0).
Proof.
  intros [_ _ _ Hc _ _].
  assert (∀ j u, c.2 !! j = Some u → lock c.1 ≠ Some j → at_stored u = 0)
    as Hout.
  { intros j u Hj Hl. destruct (Hc j u Hj) as [Hin _].
    destruct u; simpl in *; try done. destruct Hin as [Hin _].
    by specialize (Hin eq_refl). }
  split; [split|].
  - apply sumZ_nonneg, at_stored_nonneg.
  - destruct (lock c.1) as [h|] eqn:Hl.
    + apply (sumZ_only _ _ h); [|by intros [] ?; simpl; lia|lia].
      intros j u Hj Hne. apply (Hout j u Hj). congruence.
    + rewrite sumZ_zero; [lia|]. intros j u Hj. by apply (Hout j u Hj).
  - intros Hl. apply sumZ_zero. intros j u Hj. apply (Hout j u Hj).
    by rewrite Hl.
Qed.
End CounterFacts.

Lemma thread_cell_succ x : ThreadLock.cell (ThreadLock.cell x + 1) = ThreadLock.cell (x + 1).
Proof. done. Qed.

Lemma c_int_zero : ProcessValue.c_int 0 = 0.
Proof. done. Qed.

Lemma c_int_succ x :
  ProcessValue.c_int (ProcessValue.c_int x + 1) = ProcessValue.c_int (x + 1).
Proof.
  unfold ProcessValue.c_int, ProcessValue.int_bits.
  change (2 ^ (32 - 1)) with 2147483648. change (2 ^ 32) with 4294967296.
  f_equal.
  replace ((x + 2147483648) mod 4294967296 - 2147483648 + 1 + 2147483648)
    with ((x + 2147483648) mod 4294967296 + 1) by lia.
  rewrite Z.add_mod_idemp_l by lia. f_equal. lia.
Qed.

Lemma c_int_range v : - 2 ^ 31 ≤ ProcessValue.c_int v < 2 ^ 31.
Proof.
  unfold ProcessValue.c_int, ProcessValue.int_bits.
  change (2 ^ (32 - 1)) with 2147483648. change (2 ^ 32) with 4294967296.
  change (2 ^ 31) with 2147483648.
  pose proof (Z.mod_pos_bound (v + 2147483648) 4294967296). lia.
Qed.

Lemma c_int_congruent v : (ProcessValue.c_int v - v) mod 2 ^ 32 = 0.
Proof.
  unfold ProcessValue.c_int, ProcessValue.int_bits.
  change (2 ^ (32 - 1)) with 2147483648. change (2 ^ 32) with 4294967296.
  rewrite (Z.mod_eq (v + 2147483648)) by lia.
  replace (v + 2147483648 - 4294967296 * ((v + 2147483648) / 4294967296)
           - 2147483648 - v)
    with (- ((v + 2147483648) / 4294967296) * 4294967296) by lia.
  apply Z.mod_mul. lia.
Qed.

Lemma c_int_exact v : - 2 ^ 31 ≤ v < 2 ^ 31 → ProcessValue.c_int v = v.
Proof.
  unfold ProcessValue.c_int, ProcessValue.int_bits.
  change (2 ^ (32 - 1)) with 2147483648. change (2 ^ 32) with 4294967296.
  change (2 ^ 31) with 2147483648. intros H.
  rewrite Z.mod_small by lia. lia.
Qed.

Lemma thread_main_init : ThreadLock.main = Counter.init 10 100000.
Proof. reflexivity. Qed.

Lemma process_main_init : ProcessValue.main = Counter.init 4 100000.
Proof. reflexivity. Qed.

(** C1. Whatever the schedule, once the workers have completed their guarded
    increments the counter holds workers × iterations: 1000000 for the ten
    threads of 08_thread_lock.py, 400000 for the four processes of
    12_process_value.py.  No schedule is blocked before that point, none is
    longer than 5 × workers × iterations statements, and a schedule that
    brings all workers to their end exists. *)
Theorem guarded_increments_are_all_counted :
  (∀ workers iters sch tr c,
     ThreadLock.run sch (Counter.init workers iters) = Some (tr, c) →
     (Counter.finished c →
      Counter.value c.1 = Z.of_nat workers * Z.of_N iters) ∧
     (¬ Counter.finished c → ∃ i, is_Some (Counter.step ThreadLock.cell i c)) ∧
     Z.of_nat (length sch) ≤ 5 * (Z.of_nat workers * Z.of_N iters)) ∧
  (∀ sch tr c,
     ThreadLock.run sch ThreadLock.main = Some (tr, c) →
     Counter.finished c → Counter.value c.1 = 1000000) ∧
  (∀ sch tr c,
     ProcessValue.run sch ProcessValue.main = Some (tr, c) →
     Counter.finished c → Counter.value c.1 = 400000) ∧
  (∃ sch tr c,
     ThreadLock.run sch ThreadLock.main = Some (tr, c) ∧ Counter.finished c) ∧
  (∃ sch tr c,
     ProcessValue.run sch ProcessValue.main = Some (tr, c) ∧ Counter.finished c).
Proof.
  split; [|split; [|split; [|split]]].
  - intros workers iters sch tr c Hrun.
    pose proof (inv_counts ThreadLock.cell eq_refl thread_cell_succ _ sch tr c
                  workers iters eq_refl Hrun) as HI.
    split; [|split].
    + intros Hf. apply (finished_value _ _ _ _ HI Hf).
    + intros Hnf. apply (progress _ _ _ _ HI Hnf).
    + pose proof (run_measure _ _ _ _ _ Hrun) as Hm.
      pose proof (sumZ_nonneg Counter.statements_left c.2 statements_left_nonneg).
      unfold Counter.init in Hm. simpl in Hm.
      rewrite sumZ_replicate in Hm. simpl in Hm. lia.
  - intros sch tr c Hrun Hf. rewrite thread_main_init in Hrun.
    pose proof (inv_counts ThreadLock.cell eq_refl thread_cell_succ _ sch tr c
                  10 100000 eq_refl Hrun) as HI.
    apply (finished_value _ _ _ _ HI Hf).
  - intros sch tr c Hrun Hf. rewrite process_main_init in Hrun.
    pose proof (inv_counts ProcessValue.c_int c_int_zero c_int_succ _ sch tr c
                  4 100000 eq_refl Hrun) as HI.
    apply (finished_value _ _ _ _ HI Hf).
  - rewrite thread_main_init.
    eapply (can_finish ThreadLock.cell thread_cell_succ _ (0, 0)).
    apply (inv_init ThreadLock.cell eq_refl).
  - rewrite process_main_init.
    eapply (can_finish ProcessValue.c_int c_int_succ _ (0, 0)).
    apply (inv_init ProcessValue.c_int c_int_zero).
Qed.

(** Two threads, one iteration each, one after the other. *)
Lemma guarded_increments_are_all_counted_witness :
  ∃ tr c,
    ThreadLock.run [0; 0; 0; 0; 0; 1; 1; 1; 1; 1]%nat (Counter.init 2 1)
      = Some (tr, c)
    ∧ Counter.finished c ∧ Counter.value c.1 = 2.
Proof.
  eexists _, _. split; [vm_compute; reflexivity|].
  split; [by repeat constructor|].
  destruct guarded_increments_are_all_counted as [H _].
  refine (proj1 (H 2%nat 1%N [0; 0; 0; 0; 0; 1; 1; 1; 1; 1]%nat _ _ _) _).
  - vm_compute. reflexivity.
  - by repeat constructor.
Defined.

(** A statement of a worker changes the counter only when it is the store
    of the worker that holds the lock, and then by exactly one. *)
Lemma thread_step_counter total kr i c e c' :
  Counter.inv ThreadLock.cell total kr c →
  Counter.step ThreadLock.cell i c = Some (e, c') →
  (Counter.value c'.1 = Counter.value c.1 ∧
   ∀ v, e.2 ≠ Counter.Store v) ∨
  (Counter.value c'.1 = Counter.value c.1 + 1 ∧ Counter.lock c.1 = Some i ∧
   e = (i, Counter.Store (Counter.value c.1 + 1))).
Proof.
  intros [_ _ _ Hc _ _] (t & e' & σ' & t' & Hi & Ht & -> & ->)%step_inv.
  destruct (Hc i t Hi) as [Hin Hval].
  destruct t as [n|n|n v|n v|n]; simpl in Ht.
  - destruct (decide (n = 0%N)); [done|].
    destruct (Lock.acquire i (Counter.lock c.1)); simpl in Ht; [|done].
    injection Ht as <- <- <-. by left.
  - injection Ht as <- <- <-. by left.
  - injection Ht as <- <- <-. by left.
  - injection Ht as <- <- <-. right. simpl in *. unfold ThreadLock.cell.
    rewrite Hval. split; [done|]. split; [by apply Hin|done].
  - destruct (Lock.release (Counter.lock c.1)); simpl in Ht; [|done].
    injection Ht as <- <- <-. by left.
Qed.

(** C9. In 08_thread_lock.py, at every point of every run the counter is the
    number of bodies [counter += 1] completed so far; it is the number of
    with blocks left so far whenever the lock is free, and one more while a
    worker is between its store and its release.  Each further statement
    leaves the counter unchanged or is the store of the worker holding the
    lock and adds exactly 1: the counter never decreases and changes only
    inside the with block. *)
Theorem counter_counts_critical_sections workers iters sch tr c :
  ThreadLock.run sch (Counter.init workers iters) = Some (tr, c) →
  Counter.value c.1 = Counter.stores tr ∧
  Counter.releases tr ≤ Counter.value c.1 ≤ Counter.releases tr + 1 ∧
  (Counter.lock c.1 = None → Counter.value c.1 = Counter.releases tr) ∧
  ∀ i e c', Counter.step ThreadLock.cell i c = Some (e, c') →
    Counter.value c.1 ≤ Counter.value c'.1 ∧
    (Counter.value c'.1 ≠ Counter.value c.1 →
     Counter.value c'.1 = Counter.value c.1 + 1 ∧
     Counter.lock c.1 = Some i ∧
     ∃ n v, c.2 !! i = Some (Counter.Added n v)).
Proof.
  intros Hrun.
  pose proof (inv_counts ThreadLock.cell eq_refl thread_cell_succ _ sch tr c
                workers iters eq_refl Hrun) as HI.
  pose proof (at_stored_le_1 _ _ _ _ HI) as [Hle Hfree].
  pose proof HI as [Hv _ _ _ _ Hr]. simpl in Hv, Hr.
  unfold ThreadLock.cell in Hv.
  split; [done|]. split; [lia|]. split; [intros Hl; specialize (Hfree Hl); lia|].
  intros i e c' Hs.
  destruct (thread_step_counter _ _ _ _ _ _ HI Hs) as [[Heq _]|(Heq & Hl & He)].
  - split; [lia|]. intros Hne. by destruct Hne.
  - split; [lia|]. intros _. split; [done|]. split; [done|].
    apply step_inv in Hs as (t & e' & σ' & t' & Hi & Ht & He' & ->).
    rewrite He in He'. injection He' as <-.
    destruct t as [n|n|n v|n v|n]; simpl in Ht.
    + destruct (decide (n = 0%N)); [done|].
      by destruct (Lock.acquire i (Counter.lock c.1)).
    + done.
    + done.
    + by exists n, v.
    + by destruct (Lock.release (Counter.lock c.1)).
Qed.

(** Two threads, one iteration each; the second has entered the block and
    read the counter when the run is observed. *)
Lemma counter_counts_critical_sections_witness :
  ∃ tr c,
    ThreadLock.run [0; 0; 0; 0; 0; 1; 1]%nat (Counter.init 2 1) = Some (tr, c)
    ∧ Counter.value c.1 = 1 ∧ Counter.value c.1 = Counter.stores tr.
Proof.
  eexists _, _. split; [vm_compute; reflexivity|].
  split; [reflexivity|].
  refine (proj1 (counter_counts_critical_sections 2 1
                   [0; 0; 0; 0; 0; 1; 1]%nat _ _ _)).
  vm_compute. reflexivity.
Defined.

(** C10. The counter of 12_process_value.py is a C int: every value it holds
    lies in the signed 32-bit range and is the number of stores taken modulo
    2^32 (one past the largest value is the smallest one).  In the program,
    four processes of 100000 iterations, the number of stores never exceeds
    400000, so the counter is that number exactly at every point of every
    run, and 400000 at the end. *)
Theorem c_int_counter_does_not_wrap :
  (∀ v, - 2 ^ 31 ≤ ProcessValue.c_int v < 2 ^ 31 ∧
        (ProcessValue.c_int v - v) mod 2 ^ 32 = 0) ∧
  ProcessValue.c_int (2147483647 + 1) = -2147483648 ∧
  (∀ workers iters sch tr c,
     ProcessValue.run sch (Counter.init workers iters) = Some (tr, c) →
     Counter.value c.1 = ProcessValue.c_int (Counter.stores tr)) ∧
  (∀ sch tr c,
     ProcessValue.run sch ProcessValue.main = Some (tr, c) →
     0 ≤ Counter.stores tr ≤ 400000 ∧
     Counter.value c.1 = Counter.stores tr ∧
     (Counter.finished c → Counter.value c.1 = 400000 ∧
                            ProcessValue.c_int 400000 = 400000)).
Proof.
  split; [|split; [|split]].
  - intros v. split; [apply c_int_range|apply c_int_congruent].
  - reflexivity.
  - intros workers iters sch tr c Hrun.
    by destruct (inv_counts ProcessValue.c_int c_int_zero c_int_succ _ sch tr c
                   workers iters eq_refl Hrun).
  - intros sch tr c Hrun. rewrite process_main_init in Hrun.
    pose proof (inv_counts ProcessValue.c_int c_int_zero c_int_succ _ sch tr c
                  4 100000 eq_refl Hrun) as HI.
    pose proof HI as [Hv Hk Hp _ _ _]. simpl in Hv, Hk, Hp.
    pose proof (sumZ_nonneg Counter.pending c.2 pending_nonneg).
    assert (Counter.stores tr ≤ 400000) by lia.
    split; [lia|]. split.
    + rewrite Hv. apply c_int_exact. change (2 ^ 31) with 2147483648. lia.
    + intros Hf. split; [|reflexivity].
      apply (finished_value _ _ _ _ HI Hf).
Qed.

(** One of the four processes has completed its first iteration. *)
Lemma c_int_counter_does_not_wrap_witness :
  ∃ tr c,
    ProcessValue.run [2; 2; 2; 2; 2]%nat ProcessValue.main = Some (tr, c)
    ∧ Counter.value c.1 = 1 ∧ Counter.value c.1 = Counter.stores tr.
Proof.
  eexists _, _. split; [vm_compute; reflexivity|].
  split; [reflexivity|].
  destruct c_int_counter_does_not_wrap as (_ & _ & _ & H).
  refine (proj1 (proj2 (H [2; 2; 2; 2; 2]%nat _ _ _))).
  vm_compute. reflexivity.
Defined.

(** ** The with statement *)

Lemma counter_step_at cell i σ ts t e σ' t' :
  ts !! i = Some t → Counter.tstep cell i σ t = Some (e, σ', t') →
  Counter.step cell i (σ, ts) = Some ((i, e), (σ', <[i := t']> ts)).
Proof. intros Hi Ht. unfold Counter.step. simpl. rewrite Hi. simpl. by rewrite Ht. Qed.

(** One iteration of a worker of the guarded loop, performed without
    interruption, is the with statement around [counter += 1]. *)
Lemma iteration_is_with_lock cell i n σ ts :
  ts !! i = Some (Counter.AtFor (N.succ n)) → Counter.lock σ = None →
  ∃ σ',
    Counter.run cell [i; i; i; i; i] (σ, ts)
      = Some ([(i, Counter.Acquire); (i, Counter.Load (Counter.value σ));
               (i, Counter.Add);
               (i, Counter.Store (cell (Counter.value σ + 1)));
               (i, Counter.Release)],
              (σ', <[i := Counter.AtFor n]> ts))
    ∧ WithLock.with_lock i (WithLock.increment_body cell) σ
      = Some (WithLock.Normal, σ').
Proof.
  intros Hi Hl.
  assert (i < length ts)%nat as Hlen by (by eapply lookup_lt_Some).
  eexists. split.
  - unfold Counter.run.
    eapply exec_next.
    { eapply counter_step_at; [done|]. simpl.
      destruct (decide (N.succ n = 0%N)) as [|_]; [lia|]. by rewrite Hl. }
    eapply exec_next.
    { eapply counter_step_at; [by apply list_lookup_insert_eq|]. done. }
    eapply exec_next.
    { eapply counter_step_at;
        [apply list_lookup_insert_eq; by rewrite length_insert|done]. }
    eapply exec_next.
    { eapply counter_step_at;
        [apply list_lookup_insert_eq; by rewrite !length_insert|done]. }
    eapply exec_next.
    { eapply counter_step_at;
        [apply list_lookup_insert_eq; by rewrite !length_insert|done]. }
    simpl. rewrite !list_insert_insert_eq, N.pred_succ. reflexivity.
  - unfold WithLock.with_lock, WithLock.increment_body. rewrite Hl. done.
Qed.

(** Releasing an RLock undoes the acquisition before it. *)
Lemma rlock_acquire_release me l l' :
  RLock.acquire me l = Some l' →
  RLock.owner l' = Some me ∧ RLock.release me l' = Some l.
Proof.
  destruct l as [[o k]|]; simpl.
  - destruct (decide (o = me)) as [->|]; [|done]. intros [= <-]. simpl.
    by rewrite decide_True.
  - intros [= <-]. simpl. by rewrite decide_True.
Qed.

(** The owner of the lock of a Value reads and assigns [.value] without
    waiting, and owns the lock afterwards as before. *)
Lemma value_access_by_owner me v l :
  RLock.owner l = Some me →
  SharedValue.get me (SharedValue.Value v l)
    = Some (v, SharedValue.Value v l) ∧
  ∀ x, SharedValue.set me x (SharedValue.Value v l)
       = Some (SharedValue.Value (ProcessValue.c_int x) l).
Proof.
  destruct l as [[o k]|]; intros [= ->].
  unfold SharedValue.get, SharedValue.set. simpl.
  rewrite decide_True by done. simpl. by rewrite decide_True.
Qed.

(** The with statement of 12_process_value.py, entered while the lock is
    free: the counter is incremented and the lock is free again. *)
Lemma with_rlock_increment i σ :
  Counter.lock σ = None →
  WithLock.with_rlock i (WithLock.increment_value i)
    (SharedValue.of_shared σ)
  = Some (WithLock.Normal,
          SharedValue.of_shared
            (Counter.Shared (ProcessValue.c_int (Counter.value σ + 1)) None)).
Proof.
  intros Hl. unfold WithLock.with_rlock, SharedValue.of_shared. rewrite Hl.
  simpl. unfold WithLock.increment_value.
  destruct (value_access_by_owner i (Counter.value σ) (Some (i, 0%nat))
              eq_refl) as [-> Hset].
  simpl. rewrite Hset. simpl. by rewrite decide_True.
Qed.

(** A statement of a worker of the guarded loop and the lock: the worker
    takes the free lock when it enters the block, holds it while it runs
    the body and frees it when it leaves the block.  An RLock that the
    holder has acquired once does the same. *)
Lemma guarded_step cell σ ts i e c' :
  (∀ t, ts !! i = Some t → Counter.coherent σ i t) →
  Counter.step cell i (σ, ts) = Some ((i, e), c') →
  Counter.lock σ
    = match e with Counter.Acquire => None | _ => Some i end ∧
  Counter.lock c'.1
    = match e with Counter.Release => None | _ => Some i end ∧
  match e with
  | Counter.Acquire =>
      RLock.acquire i (RLock.of_lock (Counter.lock σ))
      = Some (RLock.of_lock (Counter.lock c'.1))
  | Counter.Release =>
      RLock.release i (RLock.of_lock (Counter.lock σ))
      = Some (RLock.of_lock (Counter.lock c'.1))
  | _ => RLock.owner (RLock.of_lock (Counter.lock c'.1)) = Some i
  end.
Proof.
  intros Hco. unfold Counter.step. simpl.
  destruct (ts !! i) as [t|] eqn:Hi; simpl; [|done].
  destruct (Hco t eq_refl) as [Hin _].
  destruct t as [n|n|n v|n v|n]; simpl in *.
  - destruct (decide (n = 0%N)); [done|].
    destruct (Counter.lock σ) as [h|]; simpl; [done|].
    by intros [= <- <-].
  - intros [= <- <-]. simpl. by rewrite (proj1 Hin eq_refl).
  - intros [= <- <-]. simpl. by rewrite (proj1 Hin eq_refl).
  - intros [= <- <-]. simpl. by rewrite (proj1 Hin eq_refl).
  - rewrite (proj1 Hin eq_refl). simpl. intros [= <- <-]. simpl.
    by rewrite decide_True.
Qed.

(** A worker that is at the with statement does not hold the lock: an
    RLock makes it wait exactly when a plain lock does. *)
Lemma rlock_waits_as_lock σ i n :
  Counter.coherent σ i (Counter.AtFor n) →
  Counter.lock σ ≠ Some i ∧
  RLock.acquire i (RLock.of_lock (Counter.lock σ))
  = RLock.of_lock <$> Lock.acquire i (Counter.lock σ).
Proof.
  intros [Hin _]. simpl in Hin.
  assert (Counter.lock σ ≠ Some i) as Hne.
  { intros Hl. by apply Hin in Hl. }
  split; [done|].
  destruct (Counter.lock σ) as [h|]; simpl; [|done].
  rewrite decide_False; [done|]. by intros ->.
Qed.

(** C5. Whenever [with lock: body] is left, normally or by an error raised
    in the body, the lock was free on entry and taken by the caller before
    the body ran, and it is free afterwards; leaving the body is enough to
    leave the block.  On the RLock of a Value the caller may also hold the
    lock already; around a body that leaves the lock as it found it, the
    block gives back what it has taken, so that a lock that was free on
    entry is free afterwards.  In every run of both
    scripts a worker enters the block by taking the free lock, runs
    [counter += 1] holding it, and leaves the block by freeing it; a worker
    at the with statement never holds the lock, and a worker holds the
    lock exactly while it is inside the block.  An iteration that is not
    interrupted is the with statement around the increment. *)
Theorem scoped_lock_is_released_on_every_exit :
  (∀ me body σ r σ',
     WithLock.with_lock me body σ = Some (r, σ') →
     Counter.lock σ = None ∧
     (∃ rb σb,
        body (Counter.Shared (Counter.value σ) (Some me)) = Some (rb, σb) ∧
        (Counter.lock σb ≠ None → r = rb) ∧
        Counter.value σ' = Counter.value σb) ∧
     Counter.lock σ' = None) ∧
  (∀ me body σ,
     Counter.lock σ = None →
     is_Some (body (Counter.Shared (Counter.value σ) (Some me))) →
     is_Some (WithLock.with_lock me body σ)) ∧
  (∀ me body σ r σ',
     WithLock.with_rlock me body σ = Some (r, σ') →
     ∃ l rb σb,
       RLock.acquire me (SharedValue.lock σ) = Some l ∧
       RLock.owner l = Some me ∧
       body (SharedValue.Value (SharedValue.raw σ) l) = Some (rb, σb) ∧
       SharedValue.raw σ' = SharedValue.raw σb ∧
       (SharedValue.lock σb = l →
        r = rb ∧ SharedValue.lock σ' = SharedValue.lock σ)) ∧
  (∀ me body σ l,
     RLock.acquire me (SharedValue.lock σ) = Some l →
     is_Some (body (SharedValue.Value (SharedValue.raw σ) l)) →
     is_Some (WithLock.with_rlock me body σ)) ∧
  (∀ cell,
     cell = ThreadLock.cell ∨ cell = ProcessValue.c_int →
     ∀ workers iters sch tr c,
       Counter.run cell sch (Counter.init workers iters) = Some (tr, c) →
       (∀ i t, c.2 !! i = Some t →
               (Counter.in_block t = true ↔ Counter.lock c.1 = Some i)) ∧
       (∀ i n, c.2 !! i = Some (Counter.AtFor n) →
               Counter.lock c.1 ≠ Some i ∧
               RLock.acquire i (RLock.of_lock (Counter.lock c.1))
               = RLock.of_lock <$> Lock.acquire i (Counter.lock c.1)) ∧
       (∀ i e c',
          Counter.step cell i c = Some ((i, e), c') →
          Counter.lock c.1
            = match e with Counter.Acquire => None | _ => Some i end ∧
          Counter.lock c'.1
            = match e with Counter.Release => None | _ => Some i end ∧
          match e with
          | Counter.Acquire =>
              RLock.acquire i (RLock.of_lock (Counter.lock c.1))
              = Some (RLock.of_lock (Counter.lock c'.1))
          | Counter.Release =>
              RLock.release i (RLock.of_lock (Counter.lock c.1))
              = Some (RLock.of_lock (Counter.lock c'.1))
          | _ => RLock.owner (RLock.of_lock (Counter.lock c'.1)) = Some i
          end)) ∧
  (∀ cell i n σ ts,
     ts !! i = Some (Counter.AtFor (N.succ n)) → Counter.lock σ = None →
     ∃ σ',
       Counter.run cell [i; i; i; i; i] (σ, ts)
         = Some ([(i, Counter.Acquire); (i, Counter.Load (Counter.value σ));
                  (i, Counter.Add);
                  (i, Counter.Store (cell (Counter.value σ + 1)));
                  (i, Counter.Release)],
                 (σ', <[i := Counter.AtFor n]> ts)) ∧
       Counter.lock σ' = None ∧
       WithLock.with_lock i (WithLock.increment_body cell) σ
         = Some (WithLock.Normal, σ') ∧
       (cell = ProcessValue.c_int →
        WithLock.with_rlock i (WithLock.increment_value i)
          (SharedValue.of_shared σ)
        = Some (WithLock.Normal, SharedValue.of_shared σ'))).
Proof.
  split; [|split; [|split; [|split; [|split]]]].
  - intros me body σ r σ'. unfold WithLock.with_lock.
    destruct (Counter.lock σ) as [h|] eqn:Hl; simpl; [done|].
    destruct (body _) as [[rb σb]|] eqn:Hb; simpl; [|done].
    destruct (Counter.lock σb) as [h|] eqn:Hlb; simpl.
    + intros [= <- <-]. split; [done|]. split; [|done].
      exists rb, σb. by rewrite Hlb.
    + intros [= <- <-]. split; [done|]. split; [|done].
      exists rb, σb. by rewrite Hlb.
  - intros me body σ Hl [[rb σb] Hb]. unfold WithLock.with_lock.
    rewrite Hl. simpl. rewrite Hb. simpl.
    by destruct (Lock.release _).
  - intros me body σ r σ'. unfold WithLock.with_rlock.
    destruct (RLock.acquire me (SharedValue.lock σ)) as [l|] eqn:Ha;
      simpl; [|done].
    destruct (rlock_acquire_release _ _ _ Ha) as [Ho Hrel].
    destruct (body _) as [[rb σb]|] eqn:Hb; simpl; [|done].
    intros Hr. exists l, rb, σb. do 3 (split; [done|]).
    destruct (RLock.release me (SharedValue.lock σb)) as [l'|] eqn:Hrb.
    + injection Hr as <- <-. split; [done|].
      intros Hl. rewrite Hl, Hrel in Hrb. by injection Hrb as <-.
    + injection Hr as <- <-. split; [done|].
      intros Hl. rewrite Hl, Hrel in Hrb. done.
  - intros me body σ l Ha [[rb σb] Hb]. unfold WithLock.with_rlock.
    rewrite Ha. simpl. rewrite Hb. simpl.
    by destruct (RLock.release _ _).
  - intros cell Hcell workers iters sch tr c Hrun.
    assert (∀ i t, c.2 !! i = Some t → Counter.coherent c.1 i t) as Hco.
    { destruct Hcell as [->| ->].
      - by pose proof (inv_counts ThreadLock.cell eq_refl thread_cell_succ
                         _ sch tr c workers iters eq_refl Hrun)
          as [_ _ _ Hc _ _].
      - by pose proof (inv_counts ProcessValue.c_int c_int_zero c_int_succ
                         _ sch tr c workers iters eq_refl Hrun)
          as [_ _ _ Hc _ _]. }
    split; [|split].
    + intros i t Hi. apply (Hco i t Hi).
    + intros i n Hi. apply (rlock_waits_as_lock _ _ n). by apply Hco.
    + intros i e c' Hs. destruct c as [σ ts].
      apply (guarded_step cell σ ts i e c'); [|done].
      intros t Hi. by apply Hco.
  - intros cell i n σ ts Hi Hl.
    destruct (iteration_is_with_lock cell i n σ ts Hi Hl) as (σ' & Hr & Hw).
    exists σ'. split; [done|].
    assert (σ' = Counter.Shared (cell (Counter.value σ + 1)) None) as Hσ'.
    { unfold WithLock.with_lock, WithLock.increment_body in Hw.
      rewrite Hl in Hw. simpl in Hw. by injection Hw as <-. }
    split; [by rewrite Hσ'|]. split; [done|].
    intros ->. rewrite Hσ'. by apply with_rlock_increment.
Qed.

(** A body that writes the counter and then raises. *)
Lemma scoped_lock_is_released_on_every_exit_witness :
  WithLock.with_lock 3
    (λ σ, Some (WithLock.Raised "ValueError",
                Counter.Shared 7 (Counter.lock σ)))
    (Counter.Shared 0 None)
    = Some (WithLock.Raised "ValueError", Counter.Shared 7 None)
  ∧ Counter.lock (Counter.Shared 7 None) = None.
Proof.
  split; [reflexivity|].
  destruct scoped_lock_is_released_on_every_exit as [H _].
  exact (proj2 (proj2 (H 3%nat
    (λ σ, Some (WithLock.Raised "ValueError",
                Counter.Shared 7 (Counter.lock σ)))
    (Counter.Shared 0 None) (WithLock.Raised "ValueError")
    (Counter.Shared 7 None) eq_refl))).
Defined.

(** ** The unguarded increment loop *)

Section RaceFacts.
Import RaceCondition.

Lemma race_step_at i v ts t e v' t' :
  ts !! i = Some t → tstep v t = Some (e, v', t') →
  step i (v, ts) = Some ((i, e), (v', <[i := t']> ts)).
Proof. intros Hi Ht. unfold step. simpl. rewrite Hi. simpl. by rewrite Ht. Qed.

Lemma race_step_inv i c ev c' :
  step i c = Some (ev, c') →
  ∃ t e v' t', c.2 !! i = Some t ∧ tstep c.1 t = Some (e, v', t')
               ∧ ev = (i, e) ∧ c' = (v', <[i := t']> c.2).
Proof.
  unfold step. destruct (c.2 !! i) as [t|] eqn:Hi; simpl; [|done].
  destruct (tstep c.1 t) as [[[e v'] t']|] eqn:Ht; simpl; [|done].
  intros [= <- <-]. by exists t, e, v', t'.
Qed.

Lemma solo_succ i n : solo i (N.succ n) = i :: i :: i :: solo i n.
Proof.
  unfold solo. rewrite N2Nat.inj_succ.
  replace (3 * S (N.to_nat n))%nat with (S (S (S (3 * N.to_nat n)))) by lia.
  done.
Qed.

(** A thread that runs alone adds one per iteration. *)
Lemma run_solo n : ∀ i v ts,
  ts !! i = Some (AtFor n) →
  ∃ tr, run (solo i n) (v, ts)
        = Some (tr, (v + Z.of_N n, <[i := AtFor 0]> ts)).
Proof.
  induction n as [|n IH] using N.peano_ind; intros i v ts Hi.
  - exists []. simpl. rewrite Z.add_0_r. by rewrite list_insert_id.
  - assert (i < length ts)%nat as Hlen by (by eapply lookup_lt_Some).
    destruct (IH i (v + 1) (<[i := AtFor n]> ts)) as [tr Hr].
    { by apply list_lookup_insert_eq. }
    rewrite list_insert_insert_eq in Hr.
    rewrite solo_succ. eexists. unfold run.
    eapply exec_next.
    { eapply race_step_at; [done|]. simpl.
      destruct (decide (N.succ n = 0%N)) as [|_]; [lia|]. done. }
    eapply exec_next.
    { eapply race_step_at; [by apply list_lookup_insert_eq|done]. }
    eapply exec_next.
    { eapply race_step_at;
        [apply list_lookup_insert_eq; by rewrite length_insert|done]. }
    rewrite !list_insert_insert_eq, N.pred_succ.
    replace (v + Z.of_N (N.succ n)) with (v + 1 + Z.of_N n) by lia.
    apply Hr.
Qed.

(** Threads that run one after the other add all their iterations. *)
Lemma run_in_turn n count : ∀ first v ts,
  (∀ j, (first ≤ j < first + count)%nat → ts !! j = Some (AtFor n)) →
  ∃ tr ts',
    run (in_turn first count n) (v, ts)
      = Some (tr, (v + Z.of_nat count * Z.of_N n, ts'))
    ∧ (∀ j, (first ≤ j < first + count)%nat → ts' !! j = Some (AtFor 0))
    ∧ (∀ j, ¬ (first ≤ j < first + count)%nat → ts' !! j = ts !! j).
Proof.
  induction count as [|count IH]; intros first v ts Hts.
  - exists [], ts. simpl. rewrite Z.add_0_r. split; [done|]. split; [lia|done].
  - destruct (run_solo n first v ts) as [tr1 H1]; [apply Hts; lia|].
    assert (first < length ts)%nat as Hlen.
    { eapply lookup_lt_Some. apply (Hts first). lia. }
    destruct (IH (S first) (v + Z.of_N n) (<[first := AtFor 0]> ts))
      as (tr2 & ts' & H2 & Hdone & Hsame).
    { intros j Hj. rewrite list_lookup_insert_ne by lia. apply Hts. lia. }
    exists (tr1 ++ tr2), ts'. split; [|split].
    + simpl. replace (v + Z.of_nat (S count) * Z.of_N n)
        with (v + Z.of_N n + Z.of_nat count * Z.of_N n) by lia.
      by apply (exec_app _ _ _ _ _ _ _ _ H1).
    + intros j Hj. destruct (decide (j = first)) as [->|Hne].
      * rewrite Hsame by lia. by apply list_lookup_insert_eq.
      * apply Hdone. lia.
    + intros j Hj. rewrite Hsame by lia. apply list_lookup_insert_ne. lia.
Qed.

Lemma finished_lookup c :
  (∀ j, (j < length c.2)%nat → c.2 !! j = Some (AtFor 0)) → finished c.
Proof.
  intros H. apply Forall_lookup. intros j t Hj.
  rewrite H in Hj by (by eapply lookup_lt_Some). by injection Hj as <-.
Qed.

Lemma run_length sch : ∀ c tr c',
  run sch c = Some (tr, c') → length c'.2 = length c.2.
Proof.
  induction sch as [|d sch IH]; intros c tr c' Hx.
  - simpl in Hx. by injection Hx as <- <-.
  - apply exec_cons in Hx as (e & c1 & tr' & Hs & Hr & ->).
    rewrite (IH _ _ _ Hr).
    apply race_step_inv in Hs as (t & e' & v' & t' & _ & _ & _ & ->).
    simpl. by rewrite length_insert.
Qed.

(** The schedule [lossy] loses the whole work of one thread. *)
Lemma run_lossy workers iters :
  (2 ≤ workers)%nat → iters ≠ 0%N →
  ∃ tr c,
    run (lossy workers iters) (init workers iters) = Some (tr, c)
    ∧ finished c
    ∧ c.1 = (Z.of_nat workers - 1) * Z.of_N iters.
Proof.
  intros Hw Hk. unfold lossy, init.
  set (ts0 := replicate workers (AtFor iters)).
  assert (length ts0 = workers) as Hlen0 by apply length_replicate.
  assert (∀ j, (j < workers)%nat → ts0 !! j = Some (AtFor iters)) as H0.
  { intros j Hj. by apply lookup_replicate_2. }
  set (ts1 := <[0%nat := Read (N.pred iters) 0]> ts0).
  assert (step 0 (0, ts0) = Some ((0%nat, Load 0), (0, ts1))) as S1.
  { eapply race_step_at; [apply H0; lia|]. simpl.
    by destruct (decide (iters = 0%N)). }
  destruct (run_solo iters 1 0 ts1) as [tr2 S2].
  { unfold ts1. rewrite list_lookup_insert_ne by lia. apply H0. lia. }
  set (ts2 := <[1%nat := AtFor 0]> ts1) in S2.
  assert (ts2 !! 0%nat = Some (Read (N.pred iters) 0)) as H20.
  { unfold ts2, ts1. rewrite list_lookup_insert_ne by lia.
    apply list_lookup_insert_eq. lia. }
  set (ts3 := <[0%nat := Added (N.pred iters) (0 + 1)]> ts2).
  assert (step 0 (0 + Z.of_N iters, ts2)
          = Some ((0%nat, Add), (0 + Z.of_N iters, ts3))) as S3.
  { eapply race_step_at; [done|done]. }
  set (ts4 := <[0%nat := AtFor (N.pred iters)]> ts3).
  assert (step 0 (0 + Z.of_N iters, ts3)
          = Some ((0%nat, Store (0 + 1)), (0 + 1, ts4))) as S4.
  { eapply race_step_at; [unfold ts3; apply list_lookup_insert_eq; unfold ts2, ts1;
                            rewrite !length_insert; lia|done]. }
  destruct (run_solo (N.pred iters) 0 (0 + 1) ts4) as [tr5 S5].
  { unfold ts4. apply list_lookup_insert_eq. unfold ts3, ts2, ts1.
    rewrite !length_insert. lia. }
  set (ts5 := <[0%nat := AtFor 0]> ts4) in S5.
  assert (∀ j, ts5 !! j =
               if decide (j < 2)%nat then
                 (if decide (j < workers)%nat then Some (AtFor 0) else None)
               else ts0 !! j) as H5.
  { intros j. unfold ts5, ts4, ts3, ts2, ts1.
    rewrite !list_insert_insert_eq.
    destruct j as [|[|j]]; simpl.
    - rewrite list_lookup_insert_eq by (rewrite !length_insert; lia).
      by destruct (decide (0 < workers)%nat); [|lia].
    - rewrite list_lookup_insert_ne by lia.
      rewrite list_lookup_insert_eq by (rewrite !length_insert; lia).
      by destruct (decide (1 < workers)%nat); [|lia].
    - by rewrite !list_lookup_insert_ne by lia. }
  destruct (run_in_turn iters (workers - 2) 2 (0 + 1 + Z.of_N (N.pred iters)) ts5)
    as (tr6 & ts6 & S6 & Hdone & Hsame).
  { intros j Hj. rewrite H5. destruct (decide (j < 2)%nat); [lia|].
    apply H0. lia. }
  eexists _, _. split; [|split].
  - unfold run. simpl. eapply exec_next; [exact S1|].
    eapply exec_app; [exact S2|].
    eapply exec_next; [exact S3|]. eapply exec_next; [exact S4|].
    eapply exec_app; [exact S5|exact S6].
  - apply finished_lookup. simpl. intros j Hj.
    assert (length ts6 = workers) as Hlen6.
    { pose proof (run_length _ _ _ _ S6) as Hl. simpl in Hl. rewrite Hl.
      unfold ts5, ts4, ts3, ts2, ts1. by rewrite !length_insert. }
    destruct (decide (j < 2)%nat).
    + rewrite Hsame by lia. rewrite H5.
      destruct (decide (j < 2)%nat); [|lia].
      destruct (decide (j < workers)%nat); [done|lia].
    + apply Hdone. lia.
  - simpl. rewrite Nat2Z.inj_sub by lia. rewrite N2Z.inj_pred by lia.
    change (Z.of_nat 2) with 2. unfold Z.pred. ring.
Qed.
End RaceFacts.

Section RaceBound.
Import RaceCondition.

Lemma race_inv_step total k i c e c' :
  race_inv total k c → step i c = Some (e, c') →
  race_inv total (race_advance k e) c'.
Proof.
  intros (Hv & Hp & Hts) (t & e' & v' & t' & Hi & Ht & -> & ->)%race_step_inv.
  destruct c as [v ts]; simpl in *.
  pose proof (Hts i t Hi) as Hti.
  unfold race_inv, race_advance; simpl.
  rewrite (sumZ_insert _ _ _ _ _ Hi).
  destruct t as [n|n w|n w]; simpl in Ht.
  - destruct (decide (n = 0%N)); [done|]. injection Ht as <- <- <-. simpl.
    split; [done|]. split; [lia|].
    intros j u. rewrite list_lookup_insert. case_decide.
    + by intros [= <-].
    + apply Hts.
  - injection Ht as <- <- <-. simpl. split; [done|]. split; [lia|].
    intros j u. rewrite list_lookup_insert. case_decide.
    + intros [= <-]. lia.
    + apply Hts.
  - injection Ht as <- <- <-. simpl. split; [lia|]. split; [lia|].
    intros j u. rewrite list_lookup_insert. case_decide.
    + by intros [= <-].
    + intros Hu. specialize (Hts j u Hu). destruct u; [done|lia|lia].
Qed.

Lemma race_inv_run total sch k c tr c' :
  race_inv total k c → run sch c = Some (tr, c') →
  race_inv total (foldl race_advance k tr) c'.
Proof. apply exec_invariant. intros. by eapply race_inv_step. Qed.

Lemma race_finished_pending c : finished c → sumZ race_pending c.2 = 0.
Proof.
  intros Hf. apply sumZ_zero. intros i t Hi.
  by rewrite (proj1 (Forall_lookup _ _) Hf i t Hi).
Qed.

Lemma race_main_init : main = init 2 100000.
Proof. reflexivity. Qed.
End RaceBound.

(** C7. Without the lock some schedule loses updates: for two or more
    workers the schedule [lossy] ends with the work of one whole worker
    missing, so the two threads of 09_race_condition.py can finish with
    chai_stock = 100000 < 200000.  Another schedule (the threads one after
    the other) ends with all 200000, so the loss shows in some runs and not
    in others; no run ends above workers × iterations. *)
Theorem unguarded_increments_can_be_lost :
  (∀ workers iters, (2 ≤ workers)%nat → iters ≠ 0%N →
     ∃ tr c,
       RaceCondition.run (RaceCondition.lossy workers iters)
         (RaceCondition.init workers iters) = Some (tr, c)
       ∧ RaceCondition.finished c
       ∧ c.1 < Z.of_nat workers * Z.of_N iters) ∧
  (∃ sch tr c,
     RaceCondition.run sch RaceCondition.main = Some (tr, c)
     ∧ RaceCondition.finished c ∧ c.1 = 100000 ∧ c.1 < 200000) ∧
  (∃ sch tr c,
     RaceCondition.run sch RaceCondition.main = Some (tr, c)
     ∧ RaceCondition.finished c ∧ c.1 = 200000) ∧
  (∀ workers iters sch tr c,
     RaceCondition.run sch (RaceCondition.init workers iters) = Some (tr, c) →
     RaceCondition.finished c → c.1 ≤ Z.of_nat workers * Z.of_N iters).
Proof.
  split; [|split; [|split]].
  - intros workers iters Hw Hk.
    destruct (run_lossy workers iters Hw Hk) as (tr & c & Hr & Hf & Hv).
    exists tr, c. split; [done|]. split; [done|]. rewrite Hv. nia.
  - destruct (run_lossy 2 100000) as (tr & c & Hr & Hf & Hv); [lia|done|].
    exists (RaceCondition.lossy 2 100000), tr, c.
    rewrite race_main_init. split; [done|]. split; [done|].
    rewrite Hv. split; [reflexivity|reflexivity].
  - destruct (run_in_turn 100000 2 0 0 (replicate 2 (RaceCondition.AtFor 100000)))
      as (tr & ts' & Hr & Hdone & _).
    { intros j Hj. apply lookup_replicate_2. lia. }
    exists (RaceCondition.in_turn 0 2 100000), tr, (0 + Z.of_nat 2 * Z.of_N 100000, ts').
    rewrite race_main_init. split; [done|]. split; [|reflexivity].
    apply finished_lookup. simpl. intros j Hj. apply Hdone.
    pose proof (run_length _ _ _ _ Hr) as Hl. simpl in Hl.
    rewrite Hl in Hj. lia.
  - intros workers iters sch tr c Hr Hf.
    assert (RaceCondition.race_inv (Z.of_nat workers * Z.of_N iters) 0
              (RaceCondition.init workers iters)) as H0.
    { split; [done|]. split; simpl.
      - by rewrite sumZ_replicate.
      - by intros i t [-> _]%lookup_replicate. }
    destruct (race_inv_run _ _ _ _ _ _ H0 Hr) as (Hv & Hp & _).
    rewrite (race_finished_pending c Hf) in Hp. lia.
Qed.

(** Two threads of one iteration each: thread 0 reads 0, thread 1 performs
    its iteration, thread 0 writes 1 over it. *)
Lemma unguarded_increments_can_be_lost_witness :
  ∃ tr c,
    RaceCondition.run [0; 1; 1; 1; 0; 0]%nat (RaceCondition.init 2 1)
      = Some (tr, c)
    ∧ RaceCondition.finished c ∧ c.1 < 2.
Proof.
  destruct unguarded_increments_can_be_lost as [H _].
  exact (H 2%nat 1%N (le_n 2) (λ E : 1%N = 0%N, eq_ind 1%N (λ n, match n with 0%N => False | _ => True end) I 0%N E)).
Defined.

(** ** Deadlock *)

Section DeadlockFacts.
Import Deadlock.

Lemma crossed_step d s e s' :
  crossed s → step d s = Some (e, s') →
  crossed s' ∧ e ≠ Print msg_completed ∧
  (S (distance (t1 s') + distance (t2 s')) = distance (t1 s) + distance (t2 s))%nat.
Proof.
  destruct s as [σ p1 p2 m]. intros (Hσ & H1 & H2 & Hm). simpl in *. subst.
  destruct d as [|[|]]; destruct p1; try done; destruct p2; try done;
    simpl; intros [= <- <-]; (split; [done|split; [done|done]]).
Qed.

Lemma crossed_run sch : ∀ s tr s',
  crossed s → run sch s = Some (tr, s') →
  crossed s' ∧ (Print msg_completed ∉ tr) ∧
  (length sch + (distance (t1 s') + distance (t2 s'))
   = distance (t1 s) + distance (t2 s))%nat.
Proof.
  induction sch as [|d sch IH]; intros s tr s' Hc Hr.
  - simpl in Hr. injection Hr as <- <-. split; [done|]. split; [|done].
    apply not_elem_of_nil.
  - apply exec_cons in Hr as (e & s1 & tr' & Hs & Hr & ->).
    destruct (crossed_step _ _ _ _ Hc Hs) as (Hc1 & He & Hd).
    destruct (IH _ _ _ Hc1 Hr) as (Hc' & Hn & Hl).
    split; [done|]. split.
    + intros [Heq|Hin]%elem_of_cons; [by destruct He|by destruct Hn].
    + simpl. lia.
Qed.

Lemma crossed_reaches_deadlock s :
  crossed s → ∃ tr, run (to_deadlock s) s = Some (tr, deadlocked).
Proof.
  destruct s as [σ p1 p2 m]. intros (Hσ & H1 & H2 & Hm). simpl in *. subst.
  destruct p1; try done; destruct p2; try done; eexists; reflexivity.
Qed.

Lemma crossed_stuck s : crossed s → stuck step s → s = deadlocked.
Proof.
  destruct s as [σ p1 p2 m]. intros (Hσ & H1 & H2 & Hm) Hst. simpl in *. subst.
  pose proof (Hst (RunTask Task1)) as S1. pose proof (Hst (RunTask Task2)) as S2.
  destruct p1; try done; destruct p2; try done.
Qed.

Lemma deadlocked_stuck : stuck step deadlocked.
Proof. by intros [|[|]]. Qed.

Lemma deadlocked_crossed : crossed deadlocked.
Proof. done. Qed.
End DeadlockFacts.

Section TimeoutFacts.
Import Deadlock DeadlockTimeout.

Lemma consistent_step d s e s' :
  consistent s = true → step d s = Some (e, s') → consistent s' = true.
Proof.
  destruct s as [[la lb] p1 p2]. unfold consistent. simpl.
  destruct p1 as [| | | | |[|]|[|]], p2 as [| | | | |[|]|[|]]; simpl;
    try done; intros [-> ->]%bool_decide_eq_true;
    destruct d as [[|]|[|]]; simpl; try done; by intros [= <- <-].
Qed.

Lemma consistent_run sch : ∀ s tr s',
  consistent s = true → run sch s = Some (tr, s') → consistent s' = true.
Proof.
  induction sch as [|d sch IH]; intros s tr s' Hc Hr.
  - simpl in Hr. by injection Hr as <- <-.
  - apply exec_cons in Hr as (e & s1 & tr' & Hs & Hr & ->).
    eapply IH; [|done]. by eapply consistent_step.
Qed.

(** Unless both tasks are finished, some statement or some timeout is
    enabled. *)
Lemma consistent_progress s :
  consistent s = true →
  (is_finished (t1 s) = true ∧ is_finished (t2 s) = true ∧
   held s = Locks None None)
  ∨ ∃ d, is_Some (step d s).
Proof.
  destruct s as [[la lb] p1 p2]. unfold consistent. simpl.
  destruct p1 as [| | | | |[|]|[|]], p2 as [| | | | |[|]|[|]]; simpl;
    try done; intros [-> ->]%bool_decide_eq_true;
    first [ by left
          | right; exists (Run Task1); by eexists
          | right; exists (Run Task2); by eexists
          | right; exists (Expire Task1); by eexists ].
Qed.

Lemma after_crossed_step d s e s' :
  after_crossed s → step d s = Some (e, s') → after_crossed s'.
Proof.
  intros [->|[H|H]].
  - destruct d as [[|]|[|]]; simpl; try done; intros [= <- <-]; right;
      first [by left | by right].
  - destruct s as [σ p1 p2]. simpl in H. intros Hs. right.
    destruct d as [[|]|[|]]; simpl in Hs.
    + left. destruct p1 as [| | | | |[|]|[|]]; try done; simpl in Hs;
        by simplify_option_eq.
    + destruct (run_step Task2 σ p2) as [[[? ?] ?]|]; simpl in Hs; [|done].
      injection Hs as <- <-. by left.
    + left. destruct p1 as [| | | | |[|]|[|]]; try done.
    + destruct (expire_step Task2 σ p2) as [[[? ?] ?]|]; simpl in Hs; [|done].
      injection Hs as <- <-. by left.
  - destruct s as [σ p1 p2]. simpl in H. intros Hs. right.
    destruct d as [[|]|[|]]; simpl in Hs.
    + destruct (run_step Task1 σ p1) as [[[? ?] ?]|]; simpl in Hs; [|done].
      injection Hs as <- <-. by right.
    + right. destruct p2 as [| | | | |[|]|[|]]; try done; simpl in Hs;
        by simplify_option_eq.
    + destruct (expire_step Task1 σ p1) as [[[? ?] ?]|]; simpl in Hs; [|done].
      injection Hs as <- <-. by right.
    + right. destruct p2 as [| | | | |[|]|[|]]; try done.
Qed.

Lemma after_crossed_run sch : ∀ s tr s',
  after_crossed s → run sch s = Some (tr, s') → after_crossed s'.
Proof.
  induction sch as [|d sch IH]; intros s tr s' Hc Hr.
  - simpl in Hr. by injection Hr as <- <-.
  - apply exec_cons in Hr as (e & s1 & tr' & Hs & Hr & ->).
    eapply IH; [|done]. by eapply after_crossed_step.
Qed.
End TimeoutFacts.

(** C2. With blocking acquisition (10_deadlock.py): the state in which both
    tasks wait at their inner with is reachable and no statement is enabled
    in it; from every state in which task 1 holds A, task 2 holds B and
    neither has taken its second lock, every run stays in such states (no
    task completes, the final message is never printed), is at most 6
    statements long, can be continued to the deadlocked state and can only
    stop there.  With [acquire(timeout=1)] on both sides: from the state in
    which each task holds its first lock, the only things that can happen
    are timeouts of the second acquire; the task that had one prints,
    releases its first lock and ends, after which the other task takes both
    locks and runs to its end; every run that ends has at least one task
    that gave up and leaves both locks free, and no run is ever blocked. *)
Theorem opposite_lock_order_deadlocks :
  (∃ sch tr, Deadlock.run sch Deadlock.init = Some (tr, Deadlock.deadlocked)) ∧
  stuck Deadlock.step Deadlock.deadlocked ∧
  (∀ s, Deadlock.crossed s →
     (∃ tr, Deadlock.run (Deadlock.to_deadlock s) s = Some (tr, Deadlock.deadlocked)) ∧
     (stuck Deadlock.step s → s = Deadlock.deadlocked) ∧
     ∀ sch tr s', Deadlock.run sch s = Some (tr, s') →
       Deadlock.crossed s' ∧
       Deadlock.t1 s' ≠ Deadlock.Done ∧ Deadlock.t2 s' ≠ Deadlock.Done ∧
       Deadlock.main s' ≠ Deadlock.MainDone ∧
       (Deadlock.Print Deadlock.msg_completed ∉ tr) ∧
       (length sch ≤ 6)%nat) ∧
  (∃ tr, DeadlockTimeout.run
           [DeadlockTimeout.Run Deadlock.Task1; DeadlockTimeout.Run Deadlock.Task2]
           DeadlockTimeout.init = Some (tr, DeadlockTimeout.crossed)) ∧
  (∀ d e s',
     DeadlockTimeout.step d DeadlockTimeout.crossed = Some (e, s') →
     ∃ t, d = DeadlockTimeout.Expire t ∧
          e = Deadlock.TimedOut t (Deadlock.second t) ∧
          DeadlockTimeout.pc_of t s' = DeadlockTimeout.BackOff) ∧
  (∀ t, is_Some (DeadlockTimeout.step (DeadlockTimeout.Expire t)
                   DeadlockTimeout.crossed)) ∧
  (∀ t, ∃ tr s,
     DeadlockTimeout.run
       [DeadlockTimeout.Expire t; DeadlockTimeout.Run t; DeadlockTimeout.Run t]
       DeadlockTimeout.crossed = Some (tr, s)
     ∧ DeadlockTimeout.pc_of t s = DeadlockTimeout.Finished false
     ∧ Deadlock.get (Deadlock.first t) (DeadlockTimeout.held s) = None
     ∧ ∃ tr' s',
         DeadlockTimeout.run
           (replicate 4 (DeadlockTimeout.Run (Deadlock.other t))) s
           = Some (tr', s')
         ∧ DeadlockTimeout.pc_of (Deadlock.other t) s'
           = DeadlockTimeout.Finished true
         ∧ DeadlockTimeout.held s' = Deadlock.Locks None None) ∧
  (∀ sch tr s,
     DeadlockTimeout.run sch DeadlockTimeout.crossed = Some (tr, s) →
     DeadlockTimeout.is_finished (DeadlockTimeout.t1 s) = true →
     DeadlockTimeout.is_finished (DeadlockTimeout.t2 s) = true →
     (DeadlockTimeout.t1 s = DeadlockTimeout.Finished false ∨
      DeadlockTimeout.t2 s = DeadlockTimeout.Finished false) ∧
     DeadlockTimeout.held s = Deadlock.Locks None None) ∧
  (∀ sch tr s,
     DeadlockTimeout.run sch DeadlockTimeout.init = Some (tr, s) →
     (DeadlockTimeout.is_finished (DeadlockTimeout.t1 s) = true ∧
      DeadlockTimeout.is_finished (DeadlockTimeout.t2 s) = true)
     ∨ ∃ d, is_Some (DeadlockTimeout.step d s)).
Proof.
  repeat apply conj.
  - exists [Deadlock.RunMain; Deadlock.RunMain;
            Deadlock.RunTask Deadlock.Task1; Deadlock.RunTask Deadlock.Task2;
            Deadlock.RunTask Deadlock.Task1; Deadlock.RunTask Deadlock.Task2;
            Deadlock.RunTask Deadlock.Task1; Deadlock.RunTask Deadlock.Task2;
            Deadlock.RunTask Deadlock.Task1; Deadlock.RunTask Deadlock.Task2].
    eexists. reflexivity.
  - apply deadlocked_stuck.
  - intros s Hc. split; [by apply crossed_reaches_deadlock|].
    split; [by apply crossed_stuck|].
    intros sch tr s' Hr.
    destruct (crossed_run sch s tr s' Hc Hr) as (Hc' & Hn & Hl).
    split; [done|]. destruct Hc' as (_ & H1 & H2 & Hm).
    split; [by intros E; rewrite E in H1|].
    split; [by intros E; rewrite E in H2|].
    split; [by rewrite Hm|]. split; [done|].
    destruct Hc as (_ & G1 & G2 & _).
    destruct (Deadlock.t1 s), (Deadlock.t2 s); try done; simpl in Hl; lia.
  - eexists. reflexivity.
  - intros d e s'. destruct d as [[|]|t]; simpl; try done.
    destruct t; simpl; intros [= <- <-]; by eexists.
  - intros []; by eexists.
  - intros []; eexists _, _; (split; [reflexivity|]);
      (split; [reflexivity|]); (split; [reflexivity|]);
      eexists _, _; (split; [reflexivity|]); by split.
  - intros sch tr s Hr F1 F2.
    pose proof (after_crossed_run sch _ _ _ (or_introl eq_refl) Hr) as Ha.
    pose proof (consistent_run sch DeadlockTimeout.crossed _ _ eq_refl Hr) as Hc.
    destruct s as [[la lb] p1 p2]. simpl in *.
    destruct p1 as [| | | | |[|]|[|]]; try done;
      destruct p2 as [| | | | |[|]|[|]]; try done;
      unfold DeadlockTimeout.consistent in Hc; simpl in Hc;
      apply bool_decide_eq_true in Hc as [-> ->];
      (split; [|done]); try (by left); try (by right).
    by destruct Ha as [?|[?|?]].
  - intros sch tr s Hr.
    pose proof (consistent_run sch DeadlockTimeout.init _ _ eq_refl Hr) as Hc.
    destruct (consistent_progress s Hc) as [(F1 & F2 & _)|Hd]; [by left|by right].
Qed.

(** Task 1 has printed and is about to sleep, task 2 is about to print;
    task 1 sleeps. *)
Lemma opposite_lock_order_deadlocks_witness :
  Deadlock.crossed
    (Deadlock.State (Deadlock.Locks (Some 1%nat) (Some 2%nat))
       Deadlock.SayWaiting Deadlock.SayFirst Deadlock.Join1).
Proof.
  destruct opposite_lock_order_deadlocks as (_ & _ & H & _).
  refine (proj1 (proj2 (proj2 (H
    (Deadlock.State (Deadlock.Locks (Some 1%nat) (Some 2%nat))
       Deadlock.Sleep Deadlock.SayFirst Deadlock.Join1) _))
    [Deadlock.RunTask Deadlock.Task1] _ _ eq_refl)).
  repeat split.
Defined.

(** ** Daemon and non-daemon threads *)

Section DaemonFacts.
Import Daemon.

Lemma sound_init d : sound d (init d).
Proof.
  split; [done|]. split; [simpl; lia|]. split; [|done].
  intros _. simpl. by destruct d.
Qed.

Lemma sound_step d dec s e s' :
  sound d s → step dec s = Some (e, s') → sound d s'.
Proof.
  destruct s as [dm n ex w]. intros (Hd & Hn & Hrun & Hex). simpl in *. subst dm.
  destruct dec; simpl.
  - unfold main_step. simpl. destruct ex; [done|]. specialize (Hrun eq_refl).
    destruct (script d !! n) as [[msg|]|] eqn:Hs.
    + intros [= <- <-]. pose proof (lookup_lt_Some _ _ _ Hs) as Hlt.
      split; [done|]. split; [simpl; lia|]. split; [|done]. intros _. simpl.
      destruct d; do 10 (destruct n as [|n]; simplify_eq/=; try done).
    + intros [= <- <-]. pose proof (lookup_lt_Some _ _ _ Hs) as Hlt.
      split; [done|]. split; [simpl; lia|]. split; [|done]. intros _. simpl.
      destruct d; do 10 (destruct n as [|n]; simplify_eq/=; try done).
    + apply lookup_ge_None in Hs.
      assert (¬ (n ≤ start_at d)%nat) as Hgt by (destruct d; simpl in *; lia).
      destruct (decide (n ≤ start_at d)%nat); [done|].
      rewrite Hrun. simpl. destruct d; simpl; [|done].
      intros [= <- <-]. split; [done|]. split; [done|]. by split.
  - unfold monitor_tea_temp. simpl.
    destruct w; try done; intros [= <- <-];
      (split; [done|]); (split; [done|]); split; simpl.
    all: try (intros Hx; by destruct (Hex Hx)).
    all: intros Hx; specialize (Hrun Hx);
      by destruct (decide (n ≤ start_at d)%nat).
Qed.

Lemma sound_run d sch : ∀ s tr s',
  sound d s → run sch s = Some (tr, s') → sound d s'.
Proof.
  induction sch as [|dec sch IH]; intros s tr s' Hc Hr.
  - simpl in Hr. by injection Hr as <- <-.
  - apply exec_cons in Hr as (e & s1 & tr' & Hs & Hr & ->).
    eapply IH; [|done]. by eapply sound_step.
Qed.
End DaemonFacts.

(** C6. With [daemon=True] (07_daemon.py): in every run, when the main
    module is at its end the monitor thread is still in its endless loop,
    and the shutdown completes at once whatever the thread is doing: the
    process exits and the thread is ended without having been joined.  With
    [daemon=False] (08_non_daemon.py): no run ever reaches the exit and the
    thread never returns; at the end of the main module the main thread is
    blocked while the monitor goes on.  In general the shutdown can complete
    exactly when the thread is a daemon or is no longer alive. *)
Theorem daemon_is_not_joined_and_attached_blocks_exit :
  (∀ sch tr s,
     Daemon.run sch (Daemon.init true) = Some (tr, s) →
     Daemon.at_shutdown s →
     Daemon.alive (Daemon.monitor s) = true ∧
     ∃ s', Daemon.step Daemon.RunMain s = Some (Daemon.Exit, s') ∧
           Daemon.exited s' = true ∧ Daemon.monitor s' = Daemon.Killed) ∧
  (∃ tr s,
     Daemon.run (replicate 8 Daemon.RunMain) (Daemon.init true) = Some (tr, s)
     ∧ Daemon.exited s = true ∧ Daemon.monitor s = Daemon.Killed) ∧
  (∀ sch tr s,
     Daemon.run sch (Daemon.init false) = Some (tr, s) →
     Daemon.exited s = false ∧ Daemon.monitor s ≠ Daemon.Returned ∧
     (Daemon.at_shutdown s →
      Daemon.step Daemon.RunMain s = None ∧
      is_Some (Daemon.step Daemon.RunWorker s))) ∧
  (∀ s, Daemon.at_shutdown s →
     (is_Some (Daemon.step Daemon.RunMain s) ↔
      Daemon.daemon s = true ∨ Daemon.alive (Daemon.monitor s) = false)).
Proof.
  repeat apply conj.
  - intros sch tr s Hr [Hend Hex].
    destruct (sound_run true sch _ _ _ (sound_init true) Hr) as (Hd & Hn & Hrun & _).
    specialize (Hrun Hex). apply lookup_ge_None in Hend. rewrite Hd in Hend.
    destruct (decide (Daemon.next s ≤ Daemon.start_at true)%nat) as [Hle|_].
    { simpl in Hle, Hend. lia. }
    split; [done|]. apply lookup_ge_None in Hend.
    destruct s as [dm n ex w]. simpl in *. subst.
    unfold Daemon.main_step. simpl. rewrite Hend. simpl. rewrite Hrun.
    by eexists.
  - eexists _, _. split; [reflexivity|]. by split.
  - intros sch tr s Hr.
    destruct (sound_run false sch _ _ _ (sound_init false) Hr) as (Hd & Hn & Hrun & Hex).
    assert (Daemon.exited s = false) as Hne.
    { destruct (Daemon.exited s); [|done]. by destruct Hex. }
    specialize (Hrun Hne). split; [done|]. split.
    + intros E. rewrite E in Hrun. by destruct (decide _).
    + intros [Hend _]. pose proof Hend as Hge. apply lookup_ge_None in Hge.
      rewrite Hd in Hge.
      destruct (decide (Daemon.next s ≤ Daemon.start_at false)%nat) as [Hle|_].
      { simpl in Hle, Hge. lia. }
      destruct s as [dm n ex w]. simpl in *. subst.
      unfold Daemon.main_step, Daemon.monitor_tea_temp. simpl in *. rewrite Hend. simpl.
      rewrite Hrun. simpl. split; [done|]. by destruct w; try done; eexists.
  - intros s [Hend Hex]. destruct s as [dm n ex w]. simpl in *. subst.
    unfold Daemon.main_step. cbn [Daemon.exited Daemon.daemon Daemon.next
                                  Daemon.monitor].
    rewrite Hend. destruct dm; simpl.
    + split; [by left|by eexists].
    + destruct (Daemon.alive w); simpl.
      * split; [by intros []|by intros [|]].
      * split; [by right|by eexists].
Qed.

(** The main module of 07_daemon.py is at its end while the monitor
    sleeps. *)
Lemma daemon_is_not_joined_and_attached_blocks_exit_witness :
  ∃ s', Daemon.step Daemon.RunMain
          (Daemon.State true 7 false Daemon.Sleeping)
        = Some (Daemon.Exit, s')
        ∧ Daemon.exited s' = true ∧ Daemon.monitor s' = Daemon.Killed.
Proof.
  destruct daemon_is_not_joined_and_attached_blocks_exit as (H & _).
  refine (proj2 (H (replicate 7 Daemon.RunMain ++ [Daemon.RunWorker]) _
                   (Daemon.State true 7 false Daemon.Sleeping) eq_refl _)).
  by split.
Defined.

(** ** asyncio.gather *)

Section GatherFacts.
Import Gather.
Context {V : Type}.
Implicit Types (l : list (future V)) (g : gathering V).

Lemma unsettled_nonneg (f : future V) : 0 ≤ unsettled f.
Proof. by destruct f. Qed.

Lemma results_lookup l : ∀ rs,
  results l = Some rs →
  length rs = length l ∧
  ∀ i, (l !! i = Some Pending → False) ∧
       (∀ v, rs !! i = Some v ↔ l !! i = Some (Returned v)).
Proof.
  induction l as [|f l IH]; intros rs; simpl.
  - intros [= <-]. split; [done|]. intros i. split; [done|]. by intros v.
  - destruct f as [|v0|e]; try done.
    destruct (results l) as [rs'|] eqn:Hr; simpl; [|done].
    intros [= <-]. destruct (IH rs' eq_refl) as [Hlen Hi].
    split; [simpl; lia|]. intros [|i]; simpl.
    + split; [done|]. intros v. split; by intros [= ->].
    + apply Hi.
Qed.

Lemma results_total l :
  sumZ unsettled l = 0 → Forall (λ f, failed f = false) l →
  is_Some (results l).
Proof.
  induction l as [|f l IH]; simpl; [by eexists|].
  intros Hs [Hf Hl]%Forall_cons.
  pose proof (sumZ_nonneg unsettled l unsettled_nonneg).
  destruct f as [|v|e]; simpl in *; try done; [lia|].
  destruct IH as [rs ->]; [lia|done|]. by eexists.
Qed.

Lemma sound_gather n : sound n (gather (V:=V) n).
Proof.
  split; [apply length_replicate|]. split.
  - simpl. rewrite sumZ_replicate. simpl. lia.
  - destruct n as [|n]; simpl; [done|]. split.
    + constructor; [done|]. apply Forall_forall. by intros f [-> _]%elem_of_replicate.
    + pose proof (sumZ_nonneg unsettled (replicate n (@Pending V)) unsettled_nonneg).
      lia.
Qed.

Lemma sound_finish n i f g g' :
  sound n g → settled f = true → finish i f g = Some g' → sound n g'.
Proof.
  intros (Hlen & Hcount & Hout) Hf. unfold finish.
  destruct (children g !! i) as [[| |]|] eqn:Hi; try done.
  intros [= <-].
  assert (i < length (children g))%nat as Hlt by (by eapply lookup_lt_Some).
  assert (sumZ unsettled (<[i := f]> (children g))
          = sumZ unsettled (children g) - 1) as Hsum.
  { rewrite (sumZ_insert _ _ _ _ _ Hi). destruct f; simpl in *; [done|lia|lia]. }
  pose proof (sumZ_nonneg unsettled (<[i := f]> (children g)) unsettled_nonneg).
  unfold done_callback. simpl.
  destruct (outer g) as [|rs|exc] eqn:Ho.
  - destruct Hout as [Hnf Hpos].
    rewrite list_lookup_insert_eq by done.
    destruct f as [|v|exc]; [done| |].
    + rewrite length_insert.
      assert (Forall (λ f, failed f = false) (<[i := Returned v]> (children g)))
        as Hnf' by (by apply Forall_insert).
      destruct (decide (S (nfinished g) = length (children g))) as [Heq|Hne].
      * destruct (results_total (<[i := Returned v]> (children g))) as [rs Hrs];
          [lia|done|].
        rewrite Hrs. split; [simpl; by rewrite length_insert|].
        split; [simpl; lia|]. done.
      * split; [simpl; by rewrite length_insert|]. split; [simpl; lia|].
        simpl. split; [done|]. lia.
    + split; [simpl; by rewrite length_insert|]. split; [simpl; lia|].
      simpl. exists i. by apply list_lookup_insert_eq.
  - destruct (results_lookup _ _ Hout) as [_ Hno]. by destruct (proj1 (Hno i)).
  - destruct Hout as [j Hj]. split; [simpl; by rewrite length_insert|].
    split; [simpl; lia|]. simpl. exists j.
    rewrite list_lookup_insert_ne; [done|]. intros ->. congruence.
Qed.

Lemma sound_gather_step n d g e g' :
  sound n g → step d g = Some (e, g') → sound n g'.
Proof.
  intros Hs. destruct d as [i v|i exc]; simpl.
  - destruct (finish i (Returned v) g) as [g1|] eqn:Hf; simpl; [|done].
    intros [= <- <-]. apply (sound_finish n i (Returned v) g g1 Hs eq_refl Hf).
  - destruct (finish i (Raised exc) g) as [g1|] eqn:Hf; simpl; [|done].
    intros [= <- <-]. apply (sound_finish n i (Raised exc) g g1 Hs eq_refl Hf).
Qed.

Lemma sound_gather_run n sch : ∀ g tr g',
  sound n g → run sch g = Some (tr, g') → sound n g'.
Proof.
  induction sch as [|d sch IH]; intros g tr g' Hc Hr.
  - simpl in Hr. by injection Hr as <- <-.
  - apply exec_cons in Hr as (e & g1 & tr' & Hs & Hr & ->).
    eapply IH; [|done]. by eapply sound_gather_step.
Qed.

Lemma all_settled_sum l :
  (∀ i f, l !! i = Some f → settled f = true) ↔ sumZ unsettled l = 0.
Proof.
  split.
  - intros H. apply sumZ_zero. intros i f Hi. specialize (H i f Hi). by destruct f.
  - intros Hs i f Hi.
    pose proof (sumZ_lookup_le unsettled l i f unsettled_nonneg Hi).
    destruct f; simpl in *; [lia|done|done].
Qed.
End GatherFacts.

Section AsyncTwoFacts.
Import AsyncTwo.

Lemma async_sound_step d s e s' :
  sound s → step d s = Some (e, s') → sound s'.
Proof.
  destruct s as [m bs [ch nf out]]. unfold sound. simpl.
  destruct m; try done.
  - intros ->. destruct d as [|i]; simpl.
    + intros [= <- <-]. simpl. repeat split; try done.
    + unfold brew. simpl. by destruct (names !! i).
  - intros (Hlen & -> & -> & -> & _).
    destruct bs as [|a [|b [|c [|]]]]; try done.
    destruct d as [|[|[|[|i]]]]; destruct a, b, c; intros Hs;
      vm_compute in Hs; try done; injection Hs as <- <-; simpl;
      repeat split; try done.
  - intros (Hlen & -> & -> & -> & Hall).
    specialize (Hall ltac:(done)).
    destruct bs as [|a [|b [|c [|]]]]; try done.
    destruct a, b, c; try done.
    destruct d as [|[|[|[|i]]]]; intros Hs;
      vm_compute in Hs; try done; injection Hs as <- <-; simpl;
      repeat split; try done.
  - intros (Hlen & -> & -> & -> & Hall).
    specialize (Hall ltac:(done)).
    destruct bs as [|a [|b [|c [|]]]]; try done.
    destruct a, b, c; try done.
    destruct d as [|[|[|[|i]]]]; intros Hs; vm_compute in Hs; done.
Qed.

Lemma async_sound_run sch : ∀ s tr s',
  sound s → run sch s = Some (tr, s') → sound s'.
Proof.
  induction sch as [|d sch IH]; intros s tr s' Hc Hr.
  - simpl in Hr. by injection Hr as <- <-.
  - apply exec_cons in Hr as (e & s1 & tr' & Hs & Hr & ->).
    eapply IH; [|done]. by eapply async_sound_step.
Qed.
End AsyncTwoFacts.

(** C4, as stated, fails: with two children, when the first raises the
    caller is resumed (with that exception) while the second child has not
    finished. *)
Lemma gather_resumes_at_first_failure :
  ∃ tr g,
    Gather.run [Gather.Raise 0 "boom"] (Gather.gather (V:=unit) 2)
      = Some (tr, g)
    ∧ Gather.resumed g
    ∧ Gather.outer g = Gather.Raised "boom"
    ∧ Gather.children g !! 1%nat = Some Gather.Pending
    ∧ ¬ (∀ i f, Gather.children g !! i = Some f → Gather.settled f = true).
Proof.
  eexists _, _. split; [reflexivity|]. split; [by simpl|].
  split; [done|]. split; [done|]. intros Hall.
  by specialize (Hall 1%nat Gather.Pending eq_refl).
Qed.

(** C4, amended. Whatever the order in which the children finish: the task
    awaiting [gather] is resumed exactly when every child has finished or
    some child has raised; when it is resumed with a result, every child has
    returned, the list has the length of the argument list and its i-th
    element is what the i-th child returned; when it is resumed with an
    exception, some child raised it.  In 02_async_two.py no brew can raise:
    [main] never fails, and once it is past the await all three brews are
    ready and the result is the list of their three results. *)
Theorem gather_waits_for_all_unless_one_fails :
  (∀ (V : Type) n sch tr (g : Gather.gathering V),
     Gather.run sch (Gather.gather n) = Some (tr, g) →
     length (Gather.children g) = n ∧
     (Gather.resumed g ↔
      (∀ i f, Gather.children g !! i = Some f → Gather.settled f = true) ∨
      (∃ i exc, Gather.children g !! i = Some (Gather.Raised exc))) ∧
     (∀ rs, Gather.outer g = Gather.Returned rs →
        length rs = n ∧
        ∀ i, (i < n)%nat →
          ∃ v, Gather.children g !! i = Some (Gather.Returned v) ∧
               rs !! i = Some v) ∧
     (∀ exc, Gather.outer g = Gather.Raised exc →
        ∃ i, Gather.children g !! i = Some (Gather.Raised exc))) ∧
  (∀ sch tr s,
     AsyncTwo.run sch AsyncTwo.init = Some (tr, s) →
     AsyncTwo.main s ≠ AsyncTwo.MainFailed ∧
     (AsyncTwo.main s = AsyncTwo.AfterGather ∨
      AsyncTwo.main s = AsyncTwo.MainDone →
      AsyncTwo.brews s = [AsyncTwo.Ready; AsyncTwo.Ready; AsyncTwo.Ready] ∧
      Gather.outer (AsyncTwo.gathered s) = Gather.Returned [(); (); ()])).
Proof.
  split.
  - intros V n sch tr g Hr.
    destruct (sound_gather_run n sch _ _ _ (sound_gather n) Hr)
      as (Hlen & Hcount & Hout).
    split; [done|]. unfold Gather.resumed. split; [|split].
    + rewrite all_settled_sum. destruct (Gather.outer g) as [|rs|exc].
      * destruct Hout as [Hnf Hpos]. split; [done|].
        intros [Hz|(i & exc & Hi)]; [lia|].
        by pose proof (proj1 (Forall_lookup _ _) Hnf i _ Hi).
      * split; [|done]. intros _. left. apply all_settled_sum.
        intros i f Hi. destruct (results_lookup _ _ Hout) as [_ Hl].
        destruct f; [by destruct (proj1 (Hl i))|done|done].
      * split; [|done]. intros _. right. destruct Hout as [i Hi]. by exists i, exc.
    + intros rs Hrs. rewrite Hrs in Hout.
      destruct (results_lookup _ _ Hout) as [Hl Hi]. split; [lia|].
      intros i Hlt. destruct (lookup_lt_is_Some_2 rs i) as [v Hv]; [lia|].
      exists v. split; [by apply Hi|done].
    + intros exc Hexc. by rewrite Hexc in Hout.
  - intros sch tr s Hr.
    assert (AsyncTwo.sound AsyncTwo.init) as H0 by done.
    pose proof (async_sound_run sch _ _ _ H0 Hr) as Hs.
    unfold AsyncTwo.sound in Hs.
    split; [intros E; by rewrite E in Hs|].
    intros [E|E]; rewrite E in Hs; destruct Hs as (Hlen & _ & Hout & _ & Hall);
      specialize (Hall ltac:(done)); rewrite Hall in Hout; (split; [|done]);
      destruct (AsyncTwo.brews s) as [|a [|b [|c [|]]]]; try done;
      by destruct a, b, c.
Qed.

(** Three children that return in the order 2, 0, 1. *)
Lemma gather_waits_for_all_unless_one_fails_witness :
  ∃ tr g,
    Gather.run [Gather.Return 2 30; Gather.Return 0 10; Gather.Return 1 20]
      (Gather.gather 3) = Some (tr, g)
    ∧ Gather.outer g = Gather.Returned [10; 20; 30]
    ∧ length [10; 20; 30] = 3%nat.
Proof.
  eexists _, _. split; [reflexivity|]. split; [reflexivity|].
  destruct gather_waits_for_all_unless_one_fails as [H _].
  exact (proj1 (proj1 (proj2 (proj2 (H Z 3%nat
    [Gather.Return 2 30; Gather.Return 0 10; Gather.Return 1 20] _ _ eq_refl)))
    [10; 20; 30] eq_refl)).
Defined.

(** ** pickle of a str *)

Section PickleFacts.
Import Pickle.

Lemma length_le_bytes w : ∀ n, length (le_bytes w n) = w.
Proof. induction w as [|w IH]; intros n; simpl; [done|]. by rewrite IH. Qed.

Lemma le_value_le_bytes w : ∀ n,
  (n < 256 ^ N.of_nat w)%N → le_value (le_bytes w n) = n.
Proof.
  induction w as [|w IH]; intros n Hn.
  - simpl in *. lia.
  - rewrite Nat2N.inj_succ, N.pow_succ_r' in Hn. simpl.
    rewrite IH by (apply N.Div0.div_lt_upper_bound; lia).
    destruct (Byte.of_N (n mod 256)) as [b|] eqn:Hb; simpl.
    + rewrite (Byte.to_of_N _ Hb).
      pose proof (N.Div0.div_mod n 256). lia.
    + apply Byte.of_N_None_iff in Hb.
      pose proof (N.mod_upper_bound n 256). lia.
Qed.

Lemma text_header_inv len header :
  text_header len = Some header →
  ∃ op w, header = op :: le_bytes w len ∧ header_width op = Some w
          ∧ (len < 256 ^ N.of_nat w)%N.
Proof.
  unfold text_header. repeat case_decide; intros [= <-].
  - by exists Byte.x8c, 1%nat.
  - by exists Byte.x58, 4%nat.
  - by exists Byte.x8d, 8%nat.
Qed.

Local Opaque le_bytes le_value.

(** What [dumps_str] writes, [loads_str] reads back as the same text. *)
Lemma loads_dumps_str s bs : dumps_str s = Some bs → loads_str bs = Some s.
Proof.
  unfold dumps_str.
  destruct (text_header _) as [header|] eqn:Hh; simpl; [|done].
  case_decide as Hlen; [|done]. intros [= <-].
  apply text_header_inv in Hh as (op & w & -> & Hw & Hlt).
  simpl. rewrite take_app_length' by (by rewrite length_le_bytes).
  rewrite drop_app_length' by (by rewrite length_le_bytes).
  rewrite le_value_le_bytes by done.
  rewrite decide_True by done.
  simpl. rewrite Hw. simpl.
  rewrite take_app_length' by (by rewrite length_le_bytes).
  rewrite drop_app_length' by (by rewrite length_le_bytes).
  rewrite le_value_le_bytes by done. rewrite Nat2N.id.
  rewrite drop_app_length, take_app_length.
  rewrite decide_True by done.
  by rewrite String.string_of_list_byte_of_string.
Qed.

Lemma dumps_str_short s :
  (String.length s < 250)%nat → is_Some (dumps_str s).
Proof.
  intros Hs. unfold dumps_str.
  assert (length (String.list_byte_of_string s) = String.length s) as Hl.
  { clear Hs. unfold String.list_byte_of_string.
    rewrite length_map. induction s as [|a s IH]; simpl; [done|]. by rewrite IH. }
  unfold text_header. rewrite Hl.
  rewrite decide_True by lia. simpl.
  rewrite decide_True; [by eexists|].
  rewrite !length_app, Hl. simpl. rewrite length_le_bytes.
  change (2 ^ 64)%N with 18446744073709551616%N. lia.
Qed.
End PickleFacts.

(** ** multiprocessing.Queue *)

Lemma omap_ext_Forall {A B} (f g : A → option B) (l : list A) :
  Forall (λ x, f x = g x) l → omap f l = omap g l.
Proof.
  induction 1 as [|x l Hx Hl IH]; [done|]. simpl. rewrite Hx.
  destruct (g x); [f_equal|]; exact IH.
Qed.

Section QueueFacts.
Import Pickle ProcessQueue.
Context `{Pickle T}.
Implicit Types (q : queue T) (g tr : list (event T)).

Lemma queue_step_cases d q e q' :
  step d q = Some (e, q') →
  (∃ p x b, buffers q !! p = Some b ∧ e = DidPut p x ∧
            q' = Queue (<[p := b ++ [x]]> (buffers q)) (pipe q)) ∨
  (∃ p x b bs, buffers q !! p = Some (x :: b) ∧ dumps x = Some bs ∧
               e = Sent p bs ∧
               q' = Queue (<[p := b]> (buffers q)) (pipe q ++ [(p, bs)])) ∨
  (∃ p x b, buffers q !! p = Some (x :: b) ∧ dumps x = None ∧
            e = Dropped p x ∧ q' = Queue (<[p := b]> (buffers q)) (pipe q)) ∨
  (∃ p bs rest x, pipe q = (p, bs) :: rest ∧ loads bs = Some x ∧
                  e = Got p x ∧ q' = Queue (buffers q) rest) ∨
  (∃ p bs rest, pipe q = (p, bs) :: rest ∧ loads bs = None ∧
                e = GetFailed ∧ q' = Queue (buffers q) rest).
Proof.
  destruct d as [p x|p|]; simpl.
  - destruct (buffers q !! p) as [b|] eqn:Hb; simpl; [|done].
    intros [= <- <-]. left. by exists p, x, b.
  - destruct (buffers q !! p) as [[|x b]|] eqn:Hb; simpl; try done.
    destruct (dumps x) as [bs|] eqn:Hd; intros [= <- <-].
    + right; left. by exists p, x, b, bs.
    + right; right; left. by exists p, x, b.
  - destruct (pipe q) as [|[p bs] rest] eqn:Hp; [done|].
    destruct (loads bs) as [x|] eqn:Hl; intros [= <- <-].
    + right; right; right; left. by exists p, bs, rest, x.
    + right; right; right; right. by exists p, bs, rest.
Qed.

Lemma buffer_insert p p' b q pp ms :
  buffers q !! p = Some b →
  buffer p' (Queue (<[p := pp]> (buffers q)) ms)
  = if decide (p = p') then pp else buffer p' q.
Proof.
  intros Hb. unfold buffer. simpl. case_decide as Hp.
  - subst. rewrite list_lookup_insert_eq; [done|]. by eapply lookup_lt_Some.
  - by rewrite list_lookup_insert_ne.
Qed.

Lemma picklable_cons_Some x l bs :
  dumps x = Some bs → picklable (x :: l) = x :: picklable l.
Proof. intros Hd. unfold picklable. apply filter_cons_True. by exists bs. Qed.

Lemma picklable_cons_None x l :
  dumps x = None → picklable (x :: l) = picklable l.
Proof.
  intros Hd. unfold picklable. apply filter_cons_False.
  unfold serializable. rewrite Hd. by intros [? ?].
Qed.

Lemma fifo_of_step g d q e q' :
  fifo_of g q → step d q = Some (e, q') → fifo_of (snoc g e) q'.
Proof.
  intros HI Hs p'. specialize (HI p'). unfold snoc.
  unfold gets_of, puts_of in *. rewrite !omap_app. simpl.
  apply queue_step_cases in Hs
    as [(p & x & b & Hb & -> & ->)|[(p & x & b & bs & Hb & Hd & -> & ->)|
       [(p & x & b & Hb & Hd & -> & ->)|[(p & bs & rest & x & Hp & Hl & -> & ->)|
       (p & bs & rest & Hp & Hl & -> & ->)]]]].
  - rewrite (buffer_insert _ _ _ _ _ _ Hb). unfold piped_of. simpl.
    rewrite app_nil_r. case_decide as Hpp.
    + subst p'. unfold buffer in HI. rewrite Hb in HI. simpl in HI.
      unfold picklable in *. rewrite !filter_app. rewrite <- HI.
      by rewrite <- !app_assoc.
    + by rewrite !app_nil_r.
  - rewrite (buffer_insert _ _ _ _ _ _ Hb). unfold piped_of. simpl.
    rewrite omap_app. simpl. rewrite !app_nil_r.
    rewrite (loads_dumps _ _ Hd). case_decide as Hpp.
    + subst p'. unfold buffer in HI. rewrite Hb in HI. simpl in HI.
      rewrite (picklable_cons_Some _ _ _ Hd) in HI. rewrite <- HI.
      by rewrite <- !app_assoc.
    + simpl. by rewrite !app_nil_r.
  - rewrite (buffer_insert _ _ _ _ _ _ Hb). unfold piped_of. simpl.
    rewrite !app_nil_r. case_decide as Hpp; [|done].
    subst p'. unfold buffer in HI. rewrite Hb in HI. simpl in HI.
    by rewrite (picklable_cons_None _ _ Hd) in HI.
  - unfold piped_of, buffer in *. simpl in *. rewrite Hp in HI. simpl in HI.
    rewrite Hl in HI. rewrite app_nil_r.
    case_decide; simpl in *; [|by rewrite app_nil_r].
    rewrite <- HI. by rewrite <- !app_assoc.
  - unfold piped_of, buffer in *. simpl in *. rewrite Hp in HI. simpl in HI.
    rewrite Hl in HI. rewrite !app_nil_r. by case_decide.
Qed.

Lemma pipe_order_step g d q e q' :
  pipe_order g q → step d q = Some (e, q') → pipe_order (snoc g e) q'.
Proof.
  unfold pipe_order, snoc, gets, sent, piped. intros HI Hs.
  rewrite !omap_app. simpl.
  apply queue_step_cases in Hs
    as [(p & x & b & Hb & -> & ->)|[(p & x & b & bs & Hb & Hd & -> & ->)|
       [(p & x & b & Hb & Hd & -> & ->)|[(p & bs & rest & x & Hp & Hl & -> & ->)|
       (p & bs & rest & Hp & Hl & -> & ->)]]]]; simpl.
  - by rewrite !app_nil_r.
  - rewrite omap_app. simpl. rewrite (loads_dumps _ _ Hd). simpl.
    by rewrite app_nil_r, app_assoc, HI.
  - by rewrite !app_nil_r.
  - rewrite Hp in HI. simpl in HI. rewrite Hl in HI.
    rewrite app_nil_r, <- HI. by rewrite <- app_assoc.
  - rewrite Hp in HI. simpl in HI. rewrite Hl in HI. by rewrite !app_nil_r.
Qed.

Lemma foldl_snoc_trace tr : ∀ g, foldl snoc g tr = g ++ tr.
Proof.
  induction tr as [|e tr IH]; intros g; simpl; [by rewrite app_nil_r|].
  rewrite IH. unfold snoc. by rewrite <- app_assoc.
Qed.

Lemma fifo_of_new n : fifo_of [] (new n).
Proof.
  intros p. unfold buffer, new. simpl.
  destruct (replicate n [] !! p) as [b|] eqn:Hb; simpl; [|done].
  by apply lookup_replicate in Hb as [-> _].
Qed.

Lemma fifo_of_run n sch tr q :
  run sch (new n) = Some (tr, q) → fifo_of tr q ∧ pipe_order tr q.
Proof.
  intros Hr. split.
  - pose proof (exec_invariant step fifo_of snoc fifo_of_step sch [] (new n)
                  tr q (fifo_of_new n) Hr) as HI.
    by rewrite foldl_snoc_trace in HI.
  - pose proof (exec_invariant step pipe_order snoc pipe_order_step sch []
                  (new n) tr q eq_refl Hr) as HI.
    by rewrite foldl_snoc_trace in HI.
Qed.

Lemma in_range_step n g d q e q' :
  in_range n g q → step d q = Some (e, q') → in_range n (snoc g e) q'.
Proof.
  intros (Hlen & Hpipe & Hg) Hs. unfold in_range, snoc.
  rewrite Forall_app, Forall_singleton.
  apply queue_step_cases in Hs
    as [(p & x & b & Hb & -> & ->)|[(p & x & b & bs & Hb & Hd & -> & ->)|
       [(p & x & b & Hb & Hd & -> & ->)|[(p & bs & rest & x & Hp & Hl & -> & ->)|
       (p & bs & rest & Hp & Hl & -> & ->)]]]]; simpl.
  - apply lookup_lt_Some in Hb. rewrite length_insert.
    split; [done|]. split; [done|]. split; [done|]. intros ? [= <-]. lia.
  - apply lookup_lt_Some in Hb. rewrite length_insert.
    split; [done|]. split; [|split; [done|intros ? [= <-]; lia]].
    rewrite Forall_app, Forall_singleton. split; [done|simpl; lia].
  - apply lookup_lt_Some in Hb. rewrite length_insert.
    split; [done|]. split; [done|]. split; [done|]. intros ? [= <-]. lia.
  - rewrite Hp in Hpipe. apply Forall_cons in Hpipe as [Hp1 Hrest].
    split; [done|]. split; [done|]. split; [done|]. by intros ? [= <-].
  - rewrite Hp in Hpipe. apply Forall_cons in Hpipe as [Hp1 Hrest].
    split; [done|]. split; [done|]. split; [done|]. by intros ? [= ].
Qed.

Lemma in_range_run n sch tr q :
  run sch (new n) = Some (tr, q) → in_range n tr q.
Proof.
  intros Hr.
  assert (in_range n ([] : list (event T)) (new n)) as H0.
  { split; [apply length_replicate|]. by split. }
  pose proof (exec_invariant step (in_range n) snoc (in_range_step n) sch []
                (new n) tr q H0 Hr) as HI.
  by rewrite foldl_snoc_trace in HI.
Qed.

(** With one process the items need not be told apart. *)
Lemma single_producer tr q :
  in_range 1 tr q →
  gets_of 0 tr = gets tr ∧ puts_of 0 tr = puts tr ∧ piped_of 0 q = piped q.
Proof.
  intros (_ & Hpipe & Hg). split; [|split].
  - apply omap_ext_Forall. eapply Forall_impl; [exact Hg|].
    intros [| | |p x|] He; simpl; try done.
    specialize (He p eq_refl). by rewrite decide_True by lia.
  - apply omap_ext_Forall. eapply Forall_impl; [exact Hg|].
    intros [p x| | | |] He; simpl; try done.
    specialize (He p eq_refl). by rewrite decide_True by lia.
  - apply omap_ext_Forall. eapply Forall_impl; [exact Hpipe|].
    intros m Hm. simpl in *. by rewrite decide_True by lia.
Qed.
End QueueFacts.

(** The str instance of the pickle contract. *)
Global Instance pickle_str : Pickle.Pickle string := {|
  Pickle.dumps := Pickle.dumps_str;
  Pickle.loads := Pickle.loads_str;
  Pickle.loads_dumps := loads_dumps_str
|}.

(** C3, as stated, fails: process 0 puts "a", then process 1 puts "b"; the
    feeder of process 1 writes first, and [get] returns "b" before "a". *)
Lemma queue_order_differs_from_put_order :
  ∃ tr q,
    ProcessQueue.run
      [ProcessQueue.Put 0 "a"; ProcessQueue.Put 1 "b"; ProcessQueue.Feed 1;
       ProcessQueue.Feed 0; ProcessQueue.Get; ProcessQueue.Get]
      (ProcessQueue.new 2) = Some (tr, q)
    ∧ ProcessQueue.puts tr = ["a"; "b"]
    ∧ ProcessQueue.gets tr = ["b"; "a"]
    ∧ ProcessQueue.gets tr ≠ ProcessQueue.puts tr
    ∧ q = ProcessQueue.new 2.
Proof.
  eexists _, _. split; [vm_compute; reflexivity|]. by repeat split.
Qed.

(** C3, amended. For every interleaving of puts, feeder writes and gets:
    an item that cannot be pickled is dropped by the feeder and never
    returned; the items that one process has put and that can be pickled
    are returned by [get] in the order of its puts, each at most once —
    those returned, those in the pipe and those in the buffer of the
    process make up its puts that can be pickled, in that order; across
    processes [get] returns the items in the order in which the feeders
    wrote them to the pipe; with a single process, as in
    11_process_queue.py, the items returned, those in the pipe and those in
    the buffer are the puts that can be pickled, in the order of the
    puts. *)
Theorem queue_is_fifo_per_producer :
  ∀ (T : Type) (H : Pickle.Pickle T) n sch tr (q : ProcessQueue.queue T),
    ProcessQueue.run sch (ProcessQueue.new n) = Some (tr, q) →
    (∀ p,
       ProcessQueue.gets_of p tr ++ ProcessQueue.piped_of p q
         ++ ProcessQueue.picklable (ProcessQueue.buffer p q)
       = ProcessQueue.picklable (ProcessQueue.puts_of p tr)) ∧
    (∀ p, ProcessQueue.gets_of p tr
            `prefix_of` ProcessQueue.picklable (ProcessQueue.puts_of p tr)) ∧
    ProcessQueue.gets tr ++ ProcessQueue.piped q = ProcessQueue.sent tr ∧
    (n = 1%nat →
     ProcessQueue.gets tr ++ ProcessQueue.piped q
       ++ ProcessQueue.picklable (ProcessQueue.buffer 0 q)
     = ProcessQueue.picklable (ProcessQueue.puts tr)).
Proof.
  intros T H n sch tr q Hr.
  destruct (fifo_of_run n sch tr q Hr) as [Hf Hp].
  split; [exact Hf|]. split; [|split; [exact Hp|]].
  - intros p. rewrite <- (Hf p). by eexists.
  - intros ->. destruct (single_producer tr q (in_range_run 1 sch tr q Hr))
      as (<- & <- & <-). apply Hf.
Qed.

(** Process 0 puts "a" and "c", process 1 puts "b"; the feeder of process 1
    writes first; two items have been got. *)
Lemma queue_is_fifo_per_producer_witness :
  ∃ tr q,
    ProcessQueue.run
      [ProcessQueue.Put 0 "a"; ProcessQueue.Put 1 "b"; ProcessQueue.Put 0 "c";
       ProcessQueue.Feed 1; ProcessQueue.Feed 0; ProcessQueue.Get;
       ProcessQueue.Get]
      (ProcessQueue.new 2) = Some (tr, q)
    ∧ ProcessQueue.gets tr = ["b"; "a"]
    ∧ ProcessQueue.gets_of 0 tr
        `prefix_of` ProcessQueue.picklable (ProcessQueue.puts_of 0 tr).
Proof.
  eexists _, _. split; [vm_compute; reflexivity|]. split; [reflexivity|].
  refine (proj1 (proj2 (queue_is_fifo_per_producer string pickle_str 2
    [ProcessQueue.Put 0 "a"; ProcessQueue.Put 1 "b"; ProcessQueue.Put 0 "c";
     ProcessQueue.Feed 1; ProcessQueue.Feed 0; ProcessQueue.Get;
     ProcessQueue.Get] _ _ _)) 0%nat).
  vm_compute. reflexivity.
Defined.

(** ** 11_process_queue.py *)

Section ProgramFacts.
Import Pickle ProcessQueue.

Lemma program_sound_step d s e s' :
  sound pickled_masala s →
  program_step (H:=pickle_str) d s = Some (e, s') →
  sound pickled_masala s'.
Proof.
  destruct s as [[bufs ms] c r m msg]. unfold sound, fed. simpl.
  intros [Heq Hocc].
  destruct ms as [|m0 ms], msg as [x|]; destruct c, m; simpl in Hocc;
    try done; vm_compute in Heq; simplify_eq;
    destruct d; intros Hs; vm_compute in Hs; try done;
    injection Hs as <- <-; split; vm_compute; reflexivity.
Qed.

Lemma program_sound_run sch : ∀ s tr s',
  sound pickled_masala s →
  program_run (H:=pickle_str) sch s = Some (tr, s') →
  sound pickled_masala s'.
Proof.
  induction sch as [|d sch IH]; intros s tr s' Hc Hr.
  - simpl in Hr. by injection Hr as <- <-.
  - apply exec_cons in Hr as (e & s1 & tr' & Hs & Hr & ->).
    eapply IH; [|done]. by eapply program_sound_step.
Qed.

(** An item that can be pickled goes through an empty queue unchanged. *)
Lemma put_feed_get `{Pickle T} n p (x : T) bs :
  (p < n)%nat → dumps x = Some bs →
  run [Put p x; Feed p; Get] (new n)
  = Some ([DidPut p x; Sent p bs; Got p x], new n).
Proof.
  intros Hp Hd. unfold run, new.
  eapply exec_next.
  { simpl. rewrite lookup_replicate_2 by done. reflexivity. }
  eapply exec_next.
  { simpl. rewrite list_lookup_insert_eq by (by rewrite length_replicate).
    simpl. rewrite Hd. reflexivity. }
  eapply exec_next.
  { simpl. rewrite (loads_dumps _ _ Hd). reflexivity. }
  simpl. rewrite list_insert_insert_eq.
  rewrite list_insert_id by (by apply lookup_replicate_2). reflexivity.
Qed.
End ProgramFacts.

(** C8. An item that can be pickled, put on an empty queue by one process,
    fed to the pipe and got by another process, comes out equal to what was
    put, for every type of item whose pickling reads back what it wrote; for
    a str this round trip holds of the byte layout written by [dumps_str].
    In 11_process_queue.py, in every run the message that the main process
    receives is the string that the child put, "☕ Masala chai is ready!";
    the get never fails, and the run in which the child goes first ends
    with that message printed. *)
Theorem queue_hand_off_is_identity :
  (∀ (T : Type) (H : Pickle.Pickle T) n p (x : T) bs,
     (p < n)%nat → Pickle.dumps x = Some bs →
     ProcessQueue.run
       [ProcessQueue.Put p x; ProcessQueue.Feed p; ProcessQueue.Get]
       (ProcessQueue.new n)
     = Some ([ProcessQueue.DidPut p x; ProcessQueue.Sent p bs;
              ProcessQueue.Got p x], ProcessQueue.new n)) ∧
  (∀ s bs, Pickle.dumps_str s = Some bs → Pickle.loads_str bs = Some s) ∧
  (∀ s, (String.length s < 250)%nat → is_Some (Pickle.dumps_str s)) ∧
  (∀ sch tr s,
     ProcessQueue.program_run (H:=pickle_str) sch ProcessQueue.init
       = Some (tr, s) →
     ProcessQueue.main s ≠ ProcessQueue.MainFailed ∧
     (ProcessQueue.main s = ProcessQueue.SayReceived ∨
      ProcessQueue.main s = ProcessQueue.SaySuccess ∨
      ProcessQueue.main s = ProcessQueue.MainDone →
      ProcessQueue.message s = Some ProcessQueue.masala ∧
      ProcessQueue.message s = ProcessQueue.result s)) ∧
  (∃ tr s,
     ProcessQueue.program_run (H:=pickle_str)
       [ProcessQueue.RunMain; ProcessQueue.RunChild; ProcessQueue.RunChild;
        ProcessQueue.RunFeeder; ProcessQueue.RunChild; ProcessQueue.RunChild;
        ProcessQueue.RunMain; ProcessQueue.RunMain; ProcessQueue.RunMain;
        ProcessQueue.RunMain]
       ProcessQueue.init = Some (tr, s)
     ∧ ProcessQueue.main s = ProcessQueue.MainDone
     ∧ ProcessQueue.message s = Some ProcessQueue.masala
     ∧ ProcessQueue.Print
         "📥 Main: Received '☕ Masala chai is ready!' from queue" ∈ tr).
Proof.
  repeat apply conj.
  - intros T H n p x bs. apply put_feed_get.
  - apply loads_dumps_str.
  - apply dumps_str_short.
  - intros sch tr s Hr.
    assert (ProcessQueue.sound ProcessQueue.pickled_masala ProcessQueue.init)
      as H0 by done.
    destruct (program_sound_run sch _ _ _ H0 Hr) as [Heq Hocc].
    destruct s as [[bufs ms] c r m msg]. unfold ProcessQueue.fed in *.
    simpl in *. split.
    + intros ->. by destruct c, ms, msg.
    + intros [-> | [-> | ->]]; destruct c, ms, msg; simpl in Hocc; try done;
        vm_compute in Heq; simplify_eq; by split.
  - eexists _, _. split; [vm_compute; reflexivity|].
    split; [reflexivity|]. split; [reflexivity|].
    apply list_elem_of_In. vm_compute. tauto.
Qed.

(** The string of the script, through a queue shared by two processes. *)
Lemma queue_hand_off_is_identity_witness :
  ∃ bs,
    Pickle.dumps_str ProcessQueue.masala = Some bs ∧
    ProcessQueue.run (H:=pickle_str)
      [ProcessQueue.Put 1 ProcessQueue.masala; ProcessQueue.Feed 1;
       ProcessQueue.Get]
      (ProcessQueue.new 2)
    = Some ([ProcessQueue.DidPut 1 ProcessQueue.masala; ProcessQueue.Sent 1 bs;
             ProcessQueue.Got 1 ProcessQueue.masala], ProcessQueue.new 2).
Proof.
  eexists. split; [vm_compute; reflexivity|].
  destruct queue_hand_off_is_identity as [H _].
  apply (H string pickle_str 2%nat 1%nat ProcessQueue.masala).
  - lia.
  - vm_compute. reflexivity.
Defined.

(* ================================================================== *)
(** * Further properties of the scripts *)

(** ** Runs and their traces *)

Section TraceFacts.
Context {D C E : Type}.
Variable step : D → C → option (E * C).

(** A run over a schedule in two parts is a run over the first part
    followed by a run over the second. *)
Lemma exec_app_inv s1 : ∀ s2 c tr c'',
  exec step (s1 ++ s2) c = Some (tr, c'') →
  ∃ tr1 c' tr2,
    exec step s1 c = Some (tr1, c') ∧ exec step s2 c' = Some (tr2, c'')
    ∧ tr = tr1 ++ tr2.
Proof.
  induction s1 as [|d s1 IH]; intros s2 c tr c'' Hr.
  - by exists [], c, tr.
  - rewrite <- app_comm_cons in Hr.
    apply exec_cons in Hr as (e & c1 & tr' & Hs & Hr & ->).
    destruct (IH _ _ _ _ Hr) as (tr1 & c' & tr2 & H1 & H2 & ->).
    exists (e :: tr1), c', tr2. split; [|done].
    by apply (exec_next step d s1 c e c1 tr1 c').
Qed.

(** A run takes one statement per event. *)
Lemma exec_length sch : ∀ c tr c',
  exec step sch c = Some (tr, c') → length tr = length sch.
Proof.
  induction sch as [|d sch IH]; intros c tr c' Hr.
  - simpl in Hr. by injection Hr as <- <-.
  - apply exec_cons in Hr as (e & c1 & tr' & Hs & Hr & ->).
    simpl. by rewrite (IH _ _ _ Hr).
Qed.

(** The point of a run at which a given event of its trace was produced. *)
Lemma exec_split_event sch c tr1 e tr2 c'' :
  exec step sch c = Some (tr1 ++ e :: tr2, c'') →
  ∃ sch1 d sch2 c1 c2,
    sch = sch1 ++ d :: sch2 ∧
    exec step sch1 c = Some (tr1, c1) ∧ step d c1 = Some (e, c2) ∧
    exec step sch2 c2 = Some (tr2, c'').
Proof.
  intros Hr. pose proof (exec_length _ _ _ _ Hr) as Hlen.
  rewrite length_app in Hlen. simpl in Hlen.
  rewrite <- (take_drop (length tr1) sch) in Hr.
  apply exec_app_inv in Hr as (t1 & c1 & t2 & H1 & H2 & Heq).
  pose proof (exec_length _ _ _ _ H1) as Hl1.
  rewrite length_take in Hl1.
  assert (length t1 = length tr1) as Hl by lia.
  apply app_inj_1 in Heq as [<- <-]; [|done].
  destruct (drop (length tr1) sch) as [|d sch2] eqn:Hd.
  { simpl in H2. by injection H2. }
  apply exec_cons in H2 as (e' & c2 & tr' & Hs & H2 & Heq).
  injection Heq as <- <-.
  exists (take (length tr1) sch), d, sch2, c1, c2.
  split; [|done]. by rewrite <- Hd, take_drop.
Qed.

(** An invariant that relates the state to the trace produced so far. *)
Lemma exec_trace_invariant (I : list E → C → Prop) :
  (∀ g d c e c', I g c → step d c = Some (e, c') → I (g ++ [e]) c') →
  ∀ sch c tr c', I [] c → exec step sch c = Some (tr, c') → I tr c'.
Proof.
  intros Hstep sch c tr c' H0 Hr.
  pose proof (exec_invariant step I (λ g e, g ++ [e]) Hstep sch [] c tr c' H0 Hr)
    as HI.
  assert (∀ (l : list E) g, foldl (λ g e, g ++ [e]) g l = g ++ l) as Hf.
  { induction l as [|x l IH]; intros g; simpl; [by rewrite app_nil_r|].
    by rewrite IH, <- app_assoc. }
  by rewrite Hf in HI.
Qed.
End TraceFacts.

(** ** More on the guarded increment loop *)

Lemma stores_app (g1 g2 : list (nat * Counter.event)) :
  Counter.stores (g1 ++ g2) = Counter.stores g1 + Counter.stores g2.
Proof. apply sumZ_app. Qed.

Lemma releases_app (g1 g2 : list (nat * Counter.event)) :
  Counter.releases (g1 ++ g2) = Counter.releases g1 + Counter.releases g2.
Proof. apply sumZ_app. Qed.

(** The invariant of the guarded loop, with the two counts read off the
    trace. *)
Lemma inv_trace cell workers iters sch tr c :
  cell 0 = 0 → (∀ x, cell (cell x + 1) = cell (x + 1)) →
  Counter.run cell sch (Counter.init workers iters) = Some (tr, c) →
  Counter.inv cell (Z.of_nat workers * Z.of_N iters)
    (Counter.stores tr, Counter.releases tr) c.
Proof. intros H0 H1. by apply inv_counts. Qed.

(** X1. In 08_thread_lock.py and in 12_process_value.py, at every point of
    every run at most one worker is inside the with block. *)
Theorem one_worker_in_the_block_at_a_time :
  (∀ workers iters sch tr c i j ti tj,
     ThreadLock.run sch (Counter.init workers iters) = Some (tr, c) →
     c.2 !! i = Some ti → c.2 !! j = Some tj →
     Counter.in_block ti = true → Counter.in_block tj = true → i = j) ∧
  (∀ workers iters sch tr c i j ti tj,
     ProcessValue.run sch (Counter.init workers iters) = Some (tr, c) →
     c.2 !! i = Some ti → c.2 !! j = Some tj →
     Counter.in_block ti = true → Counter.in_block tj = true → i = j).
Proof.
  assert (∀ cell total kr c i j ti tj,
            Counter.inv cell total kr c →
            c.2 !! i = Some ti → c.2 !! j = Some tj →
            Counter.in_block ti = true → Counter.in_block tj = true → i = j)
    as Hmain.
  { intros cell total kr c i j ti tj [_ _ _ Hc _ _] Hi Hj Bi Bj.
    apply (Hc i ti Hi) in Bi. apply (Hc j tj Hj) in Bj. congruence. }
  split; intros workers iters sch tr c i j ti tj Hr.
  - apply (Hmain _ _ _ _ _ _ _ _
             (inv_trace ThreadLock.cell workers iters sch tr c eq_refl
                thread_cell_succ Hr)).
  - apply (Hmain _ _ _ _ _ _ _ _
             (inv_trace ProcessValue.c_int workers iters sch tr c c_int_zero
                c_int_succ Hr)).
Qed.

(** Worker 0 is about to write, worker 1 waits at the loop head. *)
Lemma one_worker_in_the_block_at_a_time_witness :
  ∃ tr c,
    ThreadLock.run [0; 0; 0]%nat (Counter.init 2 1) = Some (tr, c)
    ∧ c.2 !! 0%nat = Some (Counter.Added 0 1)
    ∧ (∀ j tj, c.2 !! j = Some tj → Counter.in_block tj = true → 0%nat = j).
Proof.
  eexists _, _. split; [vm_compute; reflexivity|]. split; [reflexivity|].
  intros j tj Hj Bj.
  destruct one_worker_in_the_block_at_a_time as [H _].
  refine (H 2%nat 1%N [0; 0; 0]%nat _ _ 0%nat j (Counter.Added 0 1) tj _ _ Hj
            eq_refl Bj).
  - vm_compute. reflexivity.
  - reflexivity.
Defined.

(** X2. In 08_thread_lock.py the stores of a run write 1, 2, 3, ... in this
    order: every increment builds on the one before it, and no value is
    written twice. *)
Theorem stores_write_consecutive_values workers iters sch tr c :
  ThreadLock.run sch (Counter.init workers iters) = Some (tr, c) →
  stored_values tr = seqZ 1 (Counter.value c.1) ∧
  Z.of_nat (length (stored_values tr)) = Counter.value c.1.
Proof.
  intros Hr.
  pose (I := λ (g : list (nat * Counter.event)) (c : Counter.config),
          Counter.inv ThreadLock.cell (Z.of_nat workers * Z.of_N iters)
            (Counter.stores g, Counter.releases g) c
          ∧ stored_values g = seqZ 1 (Counter.stores g)).
  assert (I tr c) as [HI Hs].
  { apply (exec_trace_invariant (Counter.step ThreadLock.cell) I) with sch
      (Counter.init workers iters); [| |exact Hr].
    - intros g d c0 e c0' [HI Hs] Hstep.
      pose proof (inv_step ThreadLock.cell thread_cell_succ _ _ _ _ _ _ HI Hstep)
        as HI'.
      pose proof HI as [Hv Hk _ _ _ _]. simpl in Hv, Hk.
      unfold ThreadLock.cell in Hv.
      assert (Counter.advance (Counter.stores g, Counter.releases g) e
              = (Counter.stores (g ++ [e]), Counter.releases (g ++ [e]))) as Ha.
      { rewrite stores_app, releases_app. unfold Counter.advance,
          Counter.stores, Counter.releases. simpl.
        destruct e as [i []]; simpl; f_equal; lia. }
      rewrite Ha in HI'. split; [done|].
      unfold stored_values in *. rewrite omap_app, Hs, stores_app.
      destruct (thread_step_counter _ _ _ _ _ _ HI Hstep)
        as [[_ Hno]|(_ & _ & ->)].
      + destruct e as [i ev]. simpl in *.
        destruct ev; simpl; try (by rewrite app_nil_r, Z.add_0_r).
        by destruct (Hno v).
      + assert (Counter.stores [(d, Counter.Store (Counter.value c0.1 + 1))]
                = 1) as -> by reflexivity.
        rewrite seqZ_app by lia. f_equal. simpl. rewrite Hv.
        unfold seqZ. simpl. f_equal. lia.
    - split; [|done].
      apply (inv_init ThreadLock.cell eq_refl). }
  pose proof HI as [Hv _ _ _ _ _]. simpl in Hv. unfold ThreadLock.cell in Hv.
  rewrite Hv. split; [done|]. rewrite Hs, length_seqZ.
  pose proof HI as [_ Hk _ _ _ _]. simpl in Hk. lia.
Qed.

(** Two threads of one iteration each, one after the other. *)
Lemma stores_write_consecutive_values_witness :
  ∃ tr c,
    ThreadLock.run [1; 1; 1; 1; 1; 0; 0; 0; 0; 0]%nat (Counter.init 2 1)
      = Some (tr, c)
    ∧ stored_values tr = seqZ 1 (Counter.value c.1).
Proof.
  eexists _, _. split; [vm_compute; reflexivity|].
  refine (proj1 (stores_write_consecutive_values 2 1
                   [1; 1; 1; 1; 1; 0; 0; 0; 0; 0]%nat _ _ _)).
  vm_compute. reflexivity.
Defined.

Lemma c_int_exact_iff v : ProcessValue.c_int v = v ↔ - 2 ^ 31 ≤ v < 2 ^ 31.
Proof.
  split; [|apply c_int_exact].
  intros <-. apply c_int_range.
Qed.

(** X3. In 12_process_value.py, for any number of processes and of
    iterations, the counter of a finished run is workers × iterations
    wrapped to a C int; it is workers × iterations itself exactly when that
    number is below 2^31.  A workload of 2^31 increments ends with the
    counter at -2^31. *)
Theorem c_int_counter_is_exact_below_2_31 :
  (∀ workers iters sch tr c,
     ProcessValue.run sch (Counter.init workers iters) = Some (tr, c) →
     Counter.finished c →
     Counter.value c.1 = ProcessValue.c_int (Z.of_nat workers * Z.of_N iters) ∧
     (Counter.value c.1 = Z.of_nat workers * Z.of_N iters ↔
      Z.of_nat workers * Z.of_N iters < 2 ^ 31)) ∧
  (∃ sch tr c,
     ProcessValue.run sch (Counter.init 2 1073741824) = Some (tr, c) ∧
     Counter.finished c ∧ Counter.value c.1 = -2147483648).
Proof.
  split.
  - intros workers iters sch tr c Hr Hf.
    pose proof (inv_trace ProcessValue.c_int workers iters sch tr c c_int_zero
                  c_int_succ Hr) as HI.
    pose proof (finished_value _ _ _ _ HI Hf) as Hv.
    split; [done|]. rewrite Hv, c_int_exact_iff.
    change (2 ^ 31) with 2147483648. lia.
  - destruct (can_finish ProcessValue.c_int c_int_succ _ (0, 0)
                (Counter.init 2 1073741824)
                (inv_init ProcessValue.c_int c_int_zero 2 1073741824))
      as (sch & tr & c & Hr & Hf).
    exists sch, tr, c. split; [done|]. split; [done|].
    pose proof (inv_trace ProcessValue.c_int 2 1073741824 sch tr c c_int_zero
                  c_int_succ Hr) as HI.
    apply (finished_value _ _ _ _ HI Hf).
Qed.

(** Two processes of one iteration each. *)
Lemma c_int_counter_is_exact_below_2_31_witness :
  ∃ tr c,
    ProcessValue.run [0; 0; 0; 0; 0; 1; 1; 1; 1; 1]%nat (Counter.init 2 1)
      = Some (tr, c)
    ∧ Counter.value c.1 = ProcessValue.c_int (Z.of_nat 2 * Z.of_N 1).
Proof.
  eexists _, _. split; [vm_compute; reflexivity|].
  destruct c_int_counter_is_exact_below_2_31 as [H _].
  refine (proj1 (H 2%nat 1%N [0; 0; 0; 0; 0; 1; 1; 1; 1; 1]%nat _ _ _ _)).
  - vm_compute. reflexivity.
  - by repeat constructor.
Defined.

(** ** What the main programs print *)

(** X4. The main programs of 08_thread_lock.py and of 12_process_value.py,
    once all their workers are joined, print the counter they expected and
    the SUCCESS line; no run prints the ERROR line. The ERROR line is
    printed for every other counter value only. *)
Theorem guarded_mains_report_success :
  (∀ sch tr c,
     ThreadLock.run sch ThreadLock.main = Some (tr, c) → Counter.finished c →
     Report.thread_lock (Counter.value c.1)
     = [ "📊 Final counter: 1000000";
         "   Expected:      1000000";
         nl +:+ "✅ SUCCESS! Lock prevented race condition!" ]) ∧
  (∀ sch tr c,
     ProcessValue.run sch ProcessValue.main = Some (tr, c) →
     Counter.finished c →
     Report.process_value (Counter.value c.1)
     = [ "📊 Final counter value: 400000";
         "   Expected:            400000";
         nl +:+ "✅ SUCCESS! Lock prevented race condition across processes!" ]) ∧
  (∀ counter, counter ≠ 1000000 →
     last (Report.thread_lock counter)
     = Some (nl +:+ "❌ ERROR! Lost " +:+ Report.str (1000000 - counter)
             +:+ " increments")) ∧
  (∀ counter, counter ≠ 400000 →
     last (Report.process_value counter)
     = Some (nl +:+ "❌ ERROR! Lost " +:+ Report.str (400000 - counter)
             +:+ " increments")).
Proof.
  split; [|split; [|split]].
  - intros sch tr c Hr Hf. rewrite thread_main_init in Hr.
    pose proof (inv_trace ThreadLock.cell _ _ sch tr c eq_refl
                  thread_cell_succ Hr) as HI.
    rewrite (finished_value _ _ _ _ HI Hf). vm_compute. reflexivity.
  - intros sch tr c Hr Hf. rewrite process_main_init in Hr.
    pose proof (inv_trace ProcessValue.c_int _ _ sch tr c c_int_zero
                  c_int_succ Hr) as HI.
    rewrite (finished_value _ _ _ _ HI Hf). vm_compute. reflexivity.
  - intros counter Hc. unfold Report.thread_lock.
    by destruct (decide (counter = 1000000)).
  - intros counter Hc. unfold Report.process_value.
    by destruct (decide (counter = 400000)).
Qed.

(** A run of the ten threads that ends exists, and it reports success. *)
Lemma guarded_mains_report_success_witness :
  ∃ sch tr c,
    ThreadLock.run sch ThreadLock.main = Some (tr, c) ∧ Counter.finished c ∧
    Report.thread_lock (Counter.value c.1)
    = [ "📊 Final counter: 1000000";
        "   Expected:      1000000";
        nl +:+ "✅ SUCCESS! Lock prevented race condition!" ].
Proof.
  destruct (can_finish ThreadLock.cell thread_cell_succ _ (0, 0)
              ThreadLock.main (inv_init ThreadLock.cell eq_refl 10 100000))
    as (sch & tr & c & Hr & Hf).
  exists sch, tr, c. split; [done|]. split; [done|].
  exact (proj1 guarded_mains_report_success sch tr c Hr Hf).
Defined.

(** ** Bounds of the unguarded stock *)

Section RaceLow.
Import RaceCondition RaceBounds.

Lemma low_inv_init workers iters :
  (1 ≤ workers)%nat → (2 ≤ iters)%N → low_inv iters (init workers iters).
Proof.
  intros Hw Hk. split; [done|]. split.
  - intros i t [-> _]%lookup_replicate. by left.
  - right. intros Hf. unfold finished, init in Hf. simpl in Hf.
    destruct workers as [|w]; [lia|]. simpl in Hf.
    apply Forall_cons in Hf as [[=] _]. lia.
Qed.

Lemma not_finished_insert i t ts :
  (i < length ts)%nat → t ≠ AtFor 0 → ∀ v, ¬ finished (v, <[i := t]> ts).
Proof.
  intros Hi Ht v Hf. unfold finished in Hf. simpl in Hf.
  rewrite Forall_lookup in Hf.
  apply Ht, (Hf i). by apply list_lookup_insert_eq.
Qed.

Lemma low_inv_step iters i c e c' :
  (2 ≤ iters)%N → low_inv iters c → step i c = Some (e, c') →
  low_inv iters c'.
Proof.
  intros Hk (H0 & Hts & _) (t & e' & v' & t' & Hi & Ht & -> & ->)%race_step_inv.
  destruct c as [v ts]; simpl in *.
  assert (i < length ts)%nat as Hlen by (by eapply lookup_lt_Some).
  pose proof (Hts i t Hi) as Hti.
  destruct t as [n|n w|n w]; simpl in Ht.
  - destruct (decide (n = 0%N)); [done|]. injection Ht as <- <- <-.
    unfold low_inv; simpl. split; [done|]. split.
    + intros j u. rewrite list_lookup_insert. case_decide.
      * intros [= <-]. simpl. destruct Hti as [->|[Hn Hv]].
        -- by left.
        -- right. split; [lia|]. done.
      * apply Hts.
    + right. by apply not_finished_insert.
  - injection Ht as <- <- <-. unfold low_inv; simpl. split; [done|]. split.
    + intros j u. rewrite list_lookup_insert. case_decide.
      * intros [= <-]. simpl. destruct Hti as [[-> Hw]|(Hn & Hw & Hv)].
        -- left. split; [done|lia].
        -- right. split; [done|]. split; [lia|done].
      * apply Hts.
    + right. by apply not_finished_insert.
  - injection Ht as <- <- <-.
    assert (1 ≤ w) as Hw1 by (destruct Hti as [[_ ?]|(_ & ? & _)]; lia).
    unfold low_inv; simpl. split; [lia|]. split.
    + intros j u. rewrite list_lookup_insert. case_decide.
      * intros [= <-]. simpl. right. split; [|done].
        destruct Hti as [[-> _]|(Hn & _ & _)]; lia.
      * intros Hu. specialize (Hts j u Hu). simpl.
        destruct u as [m|m x|m x]; simpl in Hts.
        -- destruct Hts as [->|[? _]]; [by left|right; done].
        -- destruct Hts as [[-> ?]|(? & ? & _)]; [by left|right; done].
        -- destruct Hts as [[-> ?]|(? & ? & _)]; [by left|right; done].
    + destruct Hti as [[-> _]|(_ & Hw2 & _)].
      * right. apply not_finished_insert; [done|]. intros [=]. lia.
      * by left.
Qed.

Lemma low_inv_run iters sch : ∀ c tr c',
  (2 ≤ iters)%N → low_inv iters c → run sch c = Some (tr, c') →
  low_inv iters c'.
Proof.
  induction sch as [|d sch IH]; intros c tr c' Hk HI Hr.
  - simpl in Hr. by injection Hr as <- <-.
  - apply exec_cons in Hr as (e & c1 & tr' & Hs & Hr & ->).
    eapply IH; [done| |done]. by eapply low_inv_step.
Qed.

(** A thread that runs alone for [n] of its iterations. *)
Lemma run_solo_part n : ∀ i m v ts,
  ts !! i = Some (AtFor (m + n)) →
  ∃ tr, run (solo i n) (v, ts)
        = Some (tr, (v + Z.of_N n, <[i := AtFor m]> ts)).
Proof.
  induction n as [|n IH] using N.peano_ind; intros i m v ts Hi.
  - exists []. simpl. rewrite Z.add_0_r. rewrite N.add_0_r in Hi.
    by rewrite list_insert_id.
  - assert (i < length ts)%nat as Hlen by (by eapply lookup_lt_Some).
    destruct (IH i m (v + 1) (<[i := AtFor (m + n)]> ts)) as [tr Hr].
    { by apply list_lookup_insert_eq. }
    rewrite list_insert_insert_eq in Hr.
    rewrite solo_succ. eexists. unfold run.
    eapply exec_next.
    { eapply race_step_at; [done|]. simpl.
      destruct (decide ((m + N.succ n)%N = 0%N)) as [|_]; [lia|]. done. }
    eapply exec_next.
    { eapply race_step_at; [by apply list_lookup_insert_eq|done]. }
    eapply exec_next.
    { eapply race_step_at;
        [apply list_lookup_insert_eq; by rewrite length_insert|done]. }
    rewrite !list_insert_insert_eq.
    replace (N.pred (m + N.succ n)) with (m + n)%N by lia.
    replace (v + Z.of_N (N.succ n)) with (v + 1 + Z.of_N n) by lia.
    apply Hr.
Qed.

(** The schedule [lowest] ends with a stock of 2. *)
Lemma run_lowest workers iters :
  (2 ≤ workers)%nat → iters ≠ 0%N →
  ∃ tr c,
    run (lowest workers iters) (init workers iters) = Some (tr, c)
    ∧ finished c ∧ c.1 = 2.
Proof.
  intros Hw Hk. unfold lowest, init.
  set (K := N.pred iters).
  assert (iters = (1 + K)%N) as HK by (unfold K; lia).
  set (ts0 := replicate workers (AtFor iters)).
  assert (length ts0 = workers) as Hlen0 by apply length_replicate.
  assert (∀ j, (j < workers)%nat → ts0 !! j = Some (AtFor iters)) as H0.
  { intros j Hj. by apply lookup_replicate_2. }
  (* thread 0 reads 0 *)
  set (ts1 := <[0%nat := Read K 0]> ts0).
  assert (step 0 (0, ts0) = Some ((0%nat, Load 0), (0, ts1))) as S1.
  { eapply race_step_at; [apply H0; lia|]. simpl.
    by destruct (decide (iters = 0%N)). }
  (* thread 1 runs all but its last iteration *)
  destruct (run_solo_part K 1 1%N 0 ts1) as [tr2 S2].
  { unfold ts1. rewrite list_lookup_insert_ne by lia. rewrite <- HK.
    apply H0. lia. }
  set (ts2 := <[1%nat := AtFor 1]> ts1) in S2.
  assert (length ts2 = workers) as Hlen2.
  { unfold ts2, ts1. by rewrite !length_insert. }
  (* thread 0 writes 1 *)
  set (ts3 := <[0%nat := Added K (0 + 1)]> ts2).
  assert (step 0 (0 + Z.of_N K, ts2)
          = Some ((0%nat, Add), (0 + Z.of_N K, ts3))) as S3.
  { eapply race_step_at.
    - unfold ts2, ts1. rewrite list_lookup_insert_ne by lia.
      apply list_lookup_insert_eq. lia.
    - done. }
  set (ts4 := <[0%nat := AtFor K]> ts3).
  assert (step 0 (0 + Z.of_N K, ts3)
          = Some ((0%nat, Store (0 + 1)), (0 + 1, ts4))) as S4.
  { eapply race_step_at.
    - unfold ts3. apply list_lookup_insert_eq. lia.
    - done. }
  (* thread 1 reads that 1 *)
  set (ts5 := <[1%nat := Read 0 (0 + 1)]> ts4).
  assert (step 1 (0 + 1, ts4)
          = Some ((1%nat, Load (0 + 1)), (0 + 1, ts5))) as S5.
  { eapply race_step_at.
    - unfold ts4, ts3. rewrite !list_lookup_insert_ne by lia.
      unfold ts2. apply list_lookup_insert_eq. unfold ts1.
      rewrite length_insert. lia.
    - done. }
  (* thread 0 runs to its end *)
  destruct (run_solo K 0 (0 + 1) ts5) as [tr6 S6].
  { unfold ts5, ts4. rewrite list_lookup_insert_ne by lia.
    apply list_lookup_insert_eq. unfold ts3. rewrite length_insert. lia. }
  set (ts6 := <[0%nat := AtFor 0]> ts5) in S6.
  assert (length ts6 = workers) as Hlen6.
  { unfold ts6, ts5, ts4, ts3. by rewrite !length_insert. }
  assert (∀ j, (2 ≤ j)%nat → ts6 !! j = ts0 !! j) as H6.
  { intros j Hj. unfold ts6, ts5, ts4, ts3, ts2, ts1.
    by rewrite !list_lookup_insert_ne by lia. }
  (* the other threads run to their end *)
  destruct (run_in_turn iters (workers - 2) 2 (0 + 1 + Z.of_N K) ts6)
    as (tr7 & ts7 & S7 & Hdone & Hsame).
  { intros j Hj. rewrite H6 by lia. apply H0. lia. }
  assert (length ts7 = workers) as Hlen7.
  { pose proof (run_length _ _ _ _ S7) as Hl. simpl in Hl. by rewrite Hl. }
  assert (ts7 !! 1%nat = Some (Read 0 (0 + 1))) as H71.
  { rewrite Hsame by lia. unfold ts6, ts5.
    rewrite list_lookup_insert_ne by lia. apply list_lookup_insert_eq.
    unfold ts4, ts3. rewrite !length_insert. lia. }
  assert (ts7 !! 0%nat = Some (AtFor 0)) as H70.
  { rewrite Hsame by lia. unfold ts6. apply list_lookup_insert_eq.
    unfold ts5, ts4, ts3. rewrite !length_insert. lia. }
  (* thread 1 writes 2 *)
  set (v7 := 0 + 1 + Z.of_N K + Z.of_nat (workers - 2) * Z.of_N iters) in S7.
  set (ts8 := <[1%nat := Added 0 (0 + 1 + 1)]> ts7).
  assert (step 1 (v7, ts7) = Some ((1%nat, Add), (v7, ts8))) as S8.
  { eapply race_step_at; [done|done]. }
  set (ts9 := <[1%nat := AtFor 0]> ts8).
  assert (step 1 (v7, ts8)
          = Some ((1%nat, Store (0 + 1 + 1)), (0 + 1 + 1, ts9))) as S9.
  { eapply race_step_at.
    - unfold ts8. apply list_lookup_insert_eq. lia.
    - done. }
  eexists _, _. split; [|split].
  - unfold run. simpl. eapply exec_next; [exact S1|].
    eapply exec_app; [exact S2|].
    eapply exec_next; [exact S3|]. eapply exec_next; [exact S4|].
    eapply exec_next; [exact S5|].
    eapply exec_app; [exact S6|].
    eapply exec_app; [exact S7|].
    eapply exec_next; [exact S8|]. eapply exec_next; [exact S9|].
    reflexivity.
  - apply finished_lookup. simpl. intros j Hj.
    unfold ts9, ts8 in *. rewrite !length_insert in Hj.
    rewrite list_insert_insert_eq.
    destruct (decide (j = 1%nat)) as [->|Hj1].
    + apply list_lookup_insert_eq. lia.
    + rewrite list_lookup_insert_ne by done.
      destruct (decide (j = 0%nat)) as [->|Hj0]; [done|].
      apply Hdone. lia.
  - reflexivity.
Qed.

Lemma alone_init iters : alone iters (init 1 iters).
Proof. exists (AtFor iters). split; [done|]. simpl. lia. Qed.

Lemma alone_step iters i c e c' :
  alone iters c → step i c = Some (e, c') → alone iters c'.
Proof.
  intros (t0 & Hts & Ht0) (t & e' & v' & t' & Hi & Ht & -> & ->)%race_step_inv.
  destruct c as [v ts]; simpl in *. subst ts.
  destruct i as [|i]; [|done]. injection Hi as <-.
  exists t'. split; [done|].
  destruct t0 as [n|n w|n w]; simpl in Ht.
  - destruct (decide (n = 0%N)); [done|]. injection Ht as <- <- <-. simpl.
    split; [done|lia].
  - injection Ht as <- <- <-. simpl. lia.
  - injection Ht as <- <- <-. simpl. lia.
Qed.

Lemma alone_run iters sch : ∀ c tr c',
  alone iters c → run sch c = Some (tr, c') → alone iters c'.
Proof.
  induction sch as [|d sch IH]; intros c tr c' HI Hr.
  - simpl in Hr. by injection Hr as <- <-.
  - apply exec_cons in Hr as (e & c1 & tr' & Hs & Hr & ->).
    eapply IH; [|done]. by eapply alone_step.
Qed.
End RaceLow.

Lemma race_upper workers iters sch tr c :
  RaceCondition.run sch (RaceCondition.init workers iters) = Some (tr, c) →
  RaceCondition.finished c → c.1 ≤ Z.of_nat workers * Z.of_N iters.
Proof.
  intros Hr Hf.
  assert (RaceCondition.race_inv (Z.of_nat workers * Z.of_N iters) 0
            (RaceCondition.init workers iters)) as H0.
  { split; [done|]. split; simpl.
    - by rewrite sumZ_replicate.
    - by intros i t [-> _]%lookup_replicate. }
  destruct (race_inv_run _ _ _ _ _ _ H0 Hr) as (Hv & Hp & _).
  rewrite (race_finished_pending c Hf) in Hp. lia.
Qed.

(** X5. Without a lock, threads of two or more iterations each never end
    with a stock below 2, however the increments interleave; and a stock of
    exactly 2 is possible for any two or more threads: thread 1 overwrites
    everything with a value computed from the single increment it has seen.
    The two threads of 09_race_condition.py end between 2 and 200000, and
    can end at 2. *)
Theorem unguarded_stock_is_at_least_two :
  (∀ workers iters sch tr c,
     (1 ≤ workers)%nat → (2 ≤ iters)%N →
     RaceCondition.run sch (RaceCondition.init workers iters) = Some (tr, c) →
     RaceCondition.finished c → 2 ≤ c.1) ∧
  (∀ workers iters, (2 ≤ workers)%nat → iters ≠ 0%N →
     ∃ tr c,
       RaceCondition.run (RaceBounds.lowest workers iters)
         (RaceCondition.init workers iters) = Some (tr, c)
       ∧ RaceCondition.finished c ∧ c.1 = 2) ∧
  (∀ sch tr c,
     RaceCondition.run sch RaceCondition.main = Some (tr, c) →
     RaceCondition.finished c → 2 ≤ c.1 ≤ 200000) ∧
  (∃ sch tr c,
     RaceCondition.run sch RaceCondition.main = Some (tr, c)
     ∧ RaceCondition.finished c ∧ c.1 = 2).
Proof.
  assert (∀ workers iters sch tr c,
     (1 ≤ workers)%nat → (2 ≤ iters)%N →
     RaceCondition.run sch (RaceCondition.init workers iters) = Some (tr, c) →
     RaceCondition.finished c → 2 ≤ c.1) as Hlow.
  { intros workers iters sch tr c Hw Hk Hr Hf.
    destruct (low_inv_run iters sch _ _ _ Hk (low_inv_init workers iters Hw Hk)
                Hr) as (_ & _ & [H2|Hn]); [done|by destruct Hn]. }
  split; [exact Hlow|]. split; [exact run_lowest|]. split.
  - intros sch tr c Hr Hf. rewrite race_main_init in Hr. split.
    + apply (Hlow 2%nat 100000%N sch tr c); [lia|lia|done|done].
    + apply (race_upper 2 100000 sch tr c Hr Hf).
  - destruct (run_lowest 2 100000) as (tr & c & Hr & Hf & Hv); [lia|done|].
    exists (RaceBounds.lowest 2 100000), tr, c. rewrite race_main_init.
    split; [exact Hr|]. split; [exact Hf|exact Hv].
Qed.

(** Two threads of two iterations each, in the schedule [lowest]. *)
Lemma unguarded_stock_is_at_least_two_witness :
  ∃ tr c,
    RaceCondition.run (RaceBounds.lowest 2 2) (RaceCondition.init 2 2)
      = Some (tr, c)
    ∧ RaceCondition.finished c ∧ c.1 = 2 ∧ 2 ≤ c.1.
Proof.
  eexists _, _. split; [vm_compute; reflexivity|].
  split; [by repeat constructor|]. split; [reflexivity|].
  destruct unguarded_stock_is_at_least_two as [H _].
  refine (H 2%nat 2%N (RaceBounds.lowest 2 2) _ _ _ _ _ _).
  - lia.
  - lia.
  - vm_compute. reflexivity.
  - by repeat constructor.
Defined.

(** X6. One thread alone loses nothing: with a single thread of [restock]
    the stock ends at the number of iterations, so the loss needs two
    threads. *)
Theorem single_thread_loses_nothing iters sch tr c :
  RaceCondition.run sch (RaceCondition.init 1 iters) = Some (tr, c) →
  RaceCondition.finished c → c.1 = Z.of_N iters.
Proof.
  intros Hr Hf.
  destruct (alone_run iters sch _ _ _ (alone_init iters) Hr) as (t & Hts & Ht).
  unfold RaceCondition.finished in Hf. rewrite Hts in Hf.
  apply Forall_cons in Hf as [-> _]. simpl in Ht. lia.
Qed.

Lemma single_thread_loses_nothing_witness :
  ∃ tr c,
    RaceCondition.run [0; 0; 0; 0; 0; 0]%nat (RaceCondition.init 1 2)
      = Some (tr, c)
    ∧ RaceCondition.finished c ∧ c.1 = Z.of_N 2.
Proof.
  eexists _, _. split; [vm_compute; reflexivity|].
  split; [by repeat constructor|].
  refine (single_thread_loses_nothing 2 [0; 0; 0; 0; 0; 0]%nat _ _ _ _).
  - vm_compute. reflexivity.
  - by repeat constructor.
Defined.

(** X7. The report of 09_race_condition.py: in every run the number of lost
    increments it prints lies between 0 and 199998, and the lines RACE
    CONDITION DETECTED are printed exactly when that number is not 0; the
    line "Got lucky" is printed only for a stock of exactly 200000.  Both
    reports occur. *)
Theorem race_report_shows_the_loss :
  (∀ sch tr c,
     RaceCondition.run sch RaceCondition.main = Some (tr, c) →
     RaceCondition.finished c →
     0 ≤ 200000 - c.1 ≤ 199998 ∧
     Report.race_condition c.1
     = [ nl +:+ "📊 Final chai stock: " +:+ Report.str c.1;
         "   Expected:         200000";
         "   Lost increments:  " +:+ Report.str (200000 - c.1) ]
       ++ (if decide (200000 - c.1 = 0)
           then [ nl +:+ "✅ Got lucky this time! (Race condition may still exist)" ]
           else [ nl +:+ "❌ RACE CONDITION DETECTED!";
                  "   Some increments were lost due to concurrent access." ])) ∧
  (∃ sch tr c,
     RaceCondition.run sch RaceCondition.main = Some (tr, c) ∧
     RaceCondition.finished c ∧
     Report.race_condition c.1
     = [ nl +:+ "📊 Final chai stock: 2";
         "   Expected:         200000";
         "   Lost increments:  199998";
         nl +:+ "❌ RACE CONDITION DETECTED!";
         "   Some increments were lost due to concurrent access." ]) ∧
  (∃ sch tr c,
     RaceCondition.run sch RaceCondition.main = Some (tr, c) ∧
     RaceCondition.finished c ∧
     Report.race_condition c.1
     = [ nl +:+ "📊 Final chai stock: 200000";
         "   Expected:         200000";
         "   Lost increments:  0";
         nl +:+ "✅ Got lucky this time! (Race condition may still exist)" ]).
Proof.
  split; [|split].
  - intros sch tr c Hr Hf. rewrite race_main_init in Hr.
    assert (2 ≤ c.1).
    { destruct (low_inv_run 100000 sch _ _ _ ltac:(lia)
                  (low_inv_init 2 100000 ltac:(lia) ltac:(lia)) Hr)
        as (_ & _ & [H2|Hn]); [done|by destruct Hn]. }
    pose proof (race_upper 2 100000 sch tr c Hr Hf).
    split; [lia|]. unfold Report.race_condition.
    destruct (decide (c.1 < 200000)), (decide (200000 - c.1 = 0));
      first [done | lia].
  - destruct (run_lowest 2 100000) as (tr & c & Hr & Hf & Hv); [lia|done|].
    exists (RaceBounds.lowest 2 100000), tr, c. rewrite race_main_init.
    split; [exact Hr|]. split; [exact Hf|]. rewrite Hv. reflexivity.
  - destruct (run_in_turn 100000 2 0 0
                (replicate 2 (RaceCondition.AtFor 100000)))
      as (tr & ts' & Hr & Hdone & _).
    { intros j Hj. apply lookup_replicate_2. lia. }
    exists (RaceCondition.in_turn 0 2 100000), tr,
      (0 + Z.of_nat 2 * Z.of_N 100000, ts').
    rewrite race_main_init. split; [exact Hr|]. split.
    + apply finished_lookup. simpl. intros j Hj. apply Hdone.
      pose proof (run_length _ _ _ _ Hr) as Hl. simpl in Hl.
      rewrite Hl in Hj. lia.
    + reflexivity.
Qed.

(** The run of [lowest] ends, and its report shows a loss within the
    bounds. *)
Lemma race_report_shows_the_loss_witness :
  ∃ sch tr c,
    RaceCondition.run sch RaceCondition.main = Some (tr, c) ∧
    RaceCondition.finished c ∧ 0 ≤ 200000 - c.1 ≤ 199998.
Proof.
  destruct (run_lowest 2 100000) as (tr & c & Hr & Hf & Hv); [lia|done|].
  exists (RaceBounds.lowest 2 100000), tr, c.
  rewrite race_main_init.
  split; [exact Hr|]. split; [exact Hf|].
  rewrite <- race_main_init in Hr.
  exact (proj1 (proj1 race_report_shows_the_loss
                  (RaceBounds.lowest 2 100000) tr c Hr Hf)).
Defined.

(** ** The states of 10_deadlock.py *)

Section DeadlockReach.
Import Deadlock DeadlockStates.

Lemma states_init : consistent init.
Proof. done. Qed.

Lemma states_eq s :
  consistent s → s = State (locks_of (t1 s) (t2 s)) (t1 s) (t2 s) (main s).
Proof. destruct s as [σ p1 p2 m]. intros [Hσ _]. simpl in *. by subst. Qed.

Lemma states_step d s e s' :
  consistent s → step d s = Some (e, s') →
  consistent s' ∧ left s = S (left s') ∧
  (e = Print msg_completed ↔ main s' = MainDone) ∧ main s ≠ MainDone.
Proof.
  intros Hc Hs. rewrite (states_eq s Hc) in Hs.
  destruct Hc as (_ & Hx & Hm). destruct s as [σ p1 p2 m]. simpl in *.
  destruct p1, p2; try discriminate Hx;
    destruct m; try discriminate Hm;
    destruct d as [|[|]]; try discriminate Hs;
    injection Hs as <- <-; (split; [done|]); (split; [done|]);
    (split; [|done]); split; done.
Qed.

Lemma states_stuck s :
  consistent s → (stuck step s ↔ s = deadlocked ∨ s = final).
Proof.
  intros Hc. rewrite (states_eq s Hc).
  destruct Hc as (_ & Hx & Hm). destruct s as [σ p1 p2 m]. simpl in *.
  split.
  - intros Hst.
    pose proof (Hst RunMain) as S0. pose proof (Hst (RunTask Task1)) as S1.
    pose proof (Hst (RunTask Task2)) as S2.
    destruct p1; try discriminate Hx; try discriminate S1;
      destruct p2; try discriminate Hx; try discriminate S2;
      destruct m; try discriminate Hm; try discriminate S0;
      first [by left | by right].
  - intros [Heq|Heq]; pose proof (f_equal t1 Heq) as E1;
      pose proof (f_equal t2 Heq) as E2; pose proof (f_equal main Heq) as E3;
      simpl in E1, E2, E3; subst; by intros [|[|]].
Qed.

Lemma states_run sch : ∀ g s tr s',
  consistent s → (Print msg_completed ∈ g ↔ main s = MainDone) →
  run sch s = Some (tr, s') →
  consistent s' ∧ (Print msg_completed ∈ g ++ tr ↔ main s' = MainDone) ∧
  left s = (length sch + left s')%nat.
Proof.
  induction sch as [|d sch IH]; intros g s tr s' Hc Hg Hr.
  - simpl in Hr. injection Hr as <- <-. by rewrite app_nil_r.
  - apply exec_cons in Hr as (e & s1 & tr' & Hs & Hr & ->).
    destruct (states_step _ _ _ _ Hc Hs) as (Hc1 & Hl & He & Hm).
    destruct (IH (g ++ [e]) s1 tr' s' Hc1) as (Hc' & Hg' & Hl'); [|done|].
    + rewrite elem_of_app, list_elem_of_singleton, Hg. split.
      * intros [?|Heq]; [done|]. symmetry in Heq. by apply He.
      * intros ?. right. symmetry. by apply He.
    + split; [done|]. rewrite <- app_assoc in Hg'. split; [done|].
      simpl. lia.
Qed.
End DeadlockReach.

(** X8. In 10_deadlock.py the deadlock is the only way to hang: whatever
    the schedule, the program can make no further step exactly when both
    tasks wait at their inner with (each holding its first lock) or when it
    has ended; the line "Both tasks completed" has been printed exactly
    when the program has ended with both tasks returned and both locks
    free; the two tasks are never inside their inner with blocks together;
    no run is longer than 21 statements.  A run to the end exists: task 1
    returns before task 2 takes its first lock. *)
Theorem deadlock_is_the_only_hang :
  (∀ sch tr s,
     Deadlock.run sch Deadlock.init = Some (tr, s) →
     (stuck Deadlock.step s ↔
      s = Deadlock.deadlocked ∨ s = DeadlockStates.final) ∧
     (Deadlock.Print Deadlock.msg_completed ∈ tr ↔ s = DeadlockStates.final) ∧
     ¬ (DeadlockStates.has_second (Deadlock.t1 s) = true ∧
        DeadlockStates.has_second (Deadlock.t2 s) = true) ∧
     (length sch ≤ 21)%nat) ∧
  (∃ tr,
     Deadlock.run DeadlockStates.one_after_the_other Deadlock.init
       = Some (tr, DeadlockStates.final) ∧
     last tr = Some (Deadlock.Print Deadlock.msg_completed)).
Proof.
  split.
  - intros sch tr s Hr.
    destruct (states_run sch [] _ _ _ states_init
                ltac:(by rewrite elem_of_nil) Hr) as (Hc & Hp & Hl).
    simpl in Hp, Hl. split; [by apply states_stuck|]. split; [|split].
    + rewrite Hp, (states_eq s Hc).
      destruct Hc as (_ & _ & Hm). destruct s as [σ p1 p2 m]. simpl in *.
      split.
      * intros ->. by destruct p1, p2.
      * intros Heq. by apply (f_equal Deadlock.main) in Heq.
    + destruct Hc as (_ & Hx & _). intros [H1 H2].
      by destruct (Deadlock.t1 s), (Deadlock.t2 s).
    + change (DeadlockStates.left Deadlock.init) with 21%nat in Hl. lia.
  - eexists. split; vm_compute; reflexivity.
Qed.

(** The run in which each task takes its first lock. *)
Lemma deadlock_is_the_only_hang_witness :
  ∃ tr s,
    Deadlock.run
      [Deadlock.RunMain; Deadlock.RunMain; Deadlock.RunTask Deadlock.Task1;
       Deadlock.RunTask Deadlock.Task2] Deadlock.init = Some (tr, s) ∧
    ¬ stuck Deadlock.step s ∧ (Deadlock.Print Deadlock.msg_completed ∉ tr).
Proof.
  eexists _, _. split; [vm_compute; reflexivity|].
  destruct deadlock_is_the_only_hang as [H _].
  destruct (H [Deadlock.RunMain; Deadlock.RunMain;
               Deadlock.RunTask Deadlock.Task1;
               Deadlock.RunTask Deadlock.Task2] _ _
              ltac:(vm_compute; reflexivity)) as (Hs & Hp & _).
  split.
  - rewrite Hs. by intros [|].
  - rewrite Hp. done.
Defined.

(** ** One lock order for both tasks *)

Section OrderingFacts.
Import Deadlock LockOrdering.

Lemma ordering_eq s :
  consistent s → s = State (locks_of (t1 s) (t2 s)) (t1 s) (t2 s) (main s).
Proof. destruct s as [σ p1 p2 m]. intros [Hσ _]. simpl in *. by subst. Qed.

Lemma ordering_step d s e s' :
  consistent s → step d s = Some (e, s') →
  consistent s' ∧ left s = S (left s') ∧
  (e = Print msg_completed ↔ main s' = MainDone) ∧ main s ≠ MainDone.
Proof.
  intros Hc Hs. rewrite (ordering_eq s Hc) in Hs.
  destruct Hc as (_ & Hx & Hm). destruct s as [σ p1 p2 m]. simpl in *.
  destruct p1, p2; try discriminate Hx;
    destruct m; try discriminate Hm;
    destruct d as [|[|]]; try discriminate Hs;
    injection Hs as <- <-; (split; [done|]); (split; [done|]);
    (split; [|done]); split; done.
Qed.

(** Some statement is enabled in every state but the last. *)
Lemma ordering_progress s :
  consistent s → s ≠ final → ∃ d, is_Some (step d s).
Proof.
  intros Hc Hne. rewrite (ordering_eq s Hc) in Hne |- *.
  destruct Hc as (_ & Hx & Hm). destruct s as [σ p1 p2 m]. simpl in *.
  destruct p1; try discriminate Hx;
    destruct p2; try discriminate Hx;
    destruct m; try discriminate Hm; try done;
    first [ by exists RunMain | by exists (RunTask Task1)
          | by exists (RunTask Task2) ].
Qed.

Lemma ordering_run sch : ∀ g s tr s',
  consistent s → (Print msg_completed ∈ g ↔ main s = MainDone) →
  run sch s = Some (tr, s') →
  consistent s' ∧ (Print msg_completed ∈ g ++ tr ↔ main s' = MainDone) ∧
  left s = (length sch + left s')%nat.
Proof.
  induction sch as [|d sch IH]; intros g s tr s' Hc Hg Hr.
  - simpl in Hr. injection Hr as <- <-. by rewrite app_nil_r.
  - apply exec_cons in Hr as (e & s1 & tr' & Hs & Hr & ->).
    destruct (ordering_step _ _ _ _ Hc Hs) as (Hc1 & Hl & He & Hm).
    destruct (IH (g ++ [e]) s1 tr' s' Hc1) as (Hc' & Hg' & Hl'); [|done|].
    + rewrite elem_of_app, list_elem_of_singleton, Hg. split.
      * intros [?|Heq]; [done|]. symmetry in Heq. by apply He.
      * intros ?. right. symmetry. by apply He.
    + split; [done|]. rewrite <- app_assoc in Hg'. split; [done|].
      simpl. lia.
Qed.

(** From a consistent state the program can be run to its end. *)
Lemma ordering_can_finish n : ∀ s,
  consistent s → left s = n → ∃ sch tr, run sch s = Some (tr, final).
Proof.
  induction n as [|n IH]; intros s Hc Hn.
  - exists [], []. simpl. f_equal. f_equal. rewrite (ordering_eq s Hc).
    destruct Hc as (_ & Hx & Hm). destruct s as [σ p1 p2 m]. simpl in *.
    unfold left in Hn. simpl in Hn.
    by destruct p1, p2, m.
  - assert (s ≠ final) as Hne by (by intros ->).
    destruct (ordering_progress s Hc Hne) as [d [[e s1] Hs]].
    destruct (ordering_step _ _ _ _ Hc Hs) as (Hc1 & Hl & _).
    destruct (IH s1 Hc1) as (sch & tr & Hr); [lia|].
    exists (d :: sch), (e :: tr). by eapply exec_next.
Qed.

Lemma ordering_stuck s : consistent s → (stuck step s ↔ s = final).
Proof.
  intros Hc. rewrite (ordering_eq s Hc).
  destruct Hc as (_ & Hx & Hm). destruct s as [σ p1 p2 m]. simpl in *.
  split.
  - intros Hst.
    pose proof (Hst RunMain) as S0. pose proof (Hst (RunTask Task1)) as S1.
    pose proof (Hst (RunTask Task2)) as S2.
    destruct p1; try discriminate Hx; try discriminate S1;
      destruct p2; try discriminate Hx; try discriminate S2;
      destruct m; try discriminate Hm; try discriminate S0; done.
  - intros Heq; pose proof (f_equal t1 Heq) as E1;
      pose proof (f_equal t2 Heq) as E2; pose proof (f_equal main Heq) as E3;
      simpl in E1, E2, E3; subst; by intros [|[|]].
Qed.
End OrderingFacts.

(** X9. The fix that 10_deadlock.py recommends: when both tasks take lock A
    first and lock B second, no run can hang.  Whatever the schedule, the
    program has no enabled statement only when it has ended; from every
    point it reaches it can be run to its end; "Both tasks completed" has
    been printed exactly when it has ended; the two tasks are never inside
    their with blocks together; no run is longer than 15 statements. *)
Theorem same_lock_order_never_deadlocks sch tr s :
  LockOrdering.run sch LockOrdering.init = Some (tr, s) →
  (stuck LockOrdering.step s ↔ s = LockOrdering.final) ∧
  (∃ sch' tr', LockOrdering.run sch' s = Some (tr', LockOrdering.final)) ∧
  (Deadlock.Print Deadlock.msg_completed ∈ tr ↔ s = LockOrdering.final) ∧
  ¬ (LockOrdering.has_a (LockOrdering.t1 s) = true ∧
     LockOrdering.has_a (LockOrdering.t2 s) = true) ∧
  (length sch ≤ 15)%nat.
Proof.
  intros Hr.
  assert (LockOrdering.consistent LockOrdering.init) as H0 by done.
  destruct (ordering_run sch [] _ _ _ H0 ltac:(by rewrite elem_of_nil) Hr)
    as (Hc & Hp & Hl).
  simpl in Hp, Hl. split; [by apply ordering_stuck|].
  split; [by eapply ordering_can_finish|]. split; [|split].
  - rewrite Hp, (ordering_eq s Hc).
    destruct Hc as (_ & _ & Hm). destruct s as [σ p1 p2 m]. simpl in *.
    split.
    + intros ->. by destruct p1, p2.
    + intros Heq. by apply (f_equal LockOrdering.main) in Heq.
  - destruct Hc as (_ & Hx & _). intros [H1 H2].
    by destruct (LockOrdering.t1 s), (LockOrdering.t2 s).
  - change (LockOrdering.left LockOrdering.init) with 15%nat in Hl. lia.
Qed.

(** Both tasks are started and each has tried the outer with: task 1 holds
    lock A, task 2 waits; the program is not stuck. *)
Lemma same_lock_order_never_deadlocks_witness :
  ∃ tr s,
    LockOrdering.run
      [Deadlock.RunMain; Deadlock.RunMain; Deadlock.RunTask Deadlock.Task1;
       Deadlock.RunTask Deadlock.Task1] LockOrdering.init = Some (tr, s) ∧
    LockOrdering.step (Deadlock.RunTask Deadlock.Task2) s = None ∧
    ¬ stuck LockOrdering.step s.
Proof.
  eexists _, _. split; [vm_compute; reflexivity|]. split; [reflexivity|].
  destruct (same_lock_order_never_deadlocks
              [Deadlock.RunMain; Deadlock.RunMain;
               Deadlock.RunTask Deadlock.Task1;
               Deadlock.RunTask Deadlock.Task1] _ _
              ltac:(vm_compute; reflexivity)) as (Hs & _).
  by rewrite Hs.
Defined.

(** ** What the daemon scripts print *)

Section DaemonOutputFacts.
Import Daemon DaemonOutput.

Lemma prints_app tr1 tr2 : prints (tr1 ++ tr2) = prints tr1 ++ prints tr2.
Proof. apply omap_app. Qed.

Lemma monitored_app tr1 tr2 :
  monitored (tr1 ++ tr2) = (monitored tr1 + monitored tr2)%nat.
Proof. unfold monitored. by rewrite prints_app, filter_app, length_app. Qed.

(** [n] rounds of the monitor print its line [n] times and leave the
    state as it was. *)
Lemma run_rounds d k ex n :
  ∃ tr, run (concat (replicate n [RunWorker; RunWorker]))
            (State d k ex Monitoring)
        = Some (tr, State d k ex Monitoring)
        ∧ monitored tr = n.
Proof.
  induction n as [|n [tr [Hr Hn]]].
  - by exists [].
  - exists ([Print monitor_msg; Slept] ++ tr). split.
    + unfold run.
      change (concat (replicate (S n) [RunWorker; RunWorker]))
        with (RunWorker :: RunWorker
              :: concat (replicate n [RunWorker; RunWorker])).
      eapply exec_next; [reflexivity|]. eapply exec_next; [reflexivity|].
      exact Hr.
    + rewrite monitored_app, Hn. done.
Qed.

(** With [daemon=True] the main thread can always go on. *)
Lemma daemon_main_enabled s :
  sound true s → exited s = false → is_Some (step RunMain s).
Proof.
  destruct s as [dm n ex w]. intros (Hd & _). simpl in *. subst.
  intros ->. unfold step, main_step. cbn [exited daemon next monitor].
  destruct (script true !! n) as [[msg|]|]; by eexists.
Qed.

Lemma exited_stuck d s : sound d s → exited s = true → stuck step s.
Proof.
  destruct s as [dm n ex w]. intros (_ & _ & _ & Hex). simpl in *.
  intros ->. destruct (Hex eq_refl) as [_ ->]. by intros [|].
Qed.

(** With [daemon=False] some statement is always enabled. *)
Lemma attached_never_stuck s : sound false s → ¬ stuck step s.
Proof.
  destruct s as [dm n ex w]. intros (Hd & Hn & Hrun & Hex) Hst.
  simpl in *. subst.
  assert (ex = false) as -> by (destruct ex; [by destruct Hex|done]).
  specialize (Hrun eq_refl).
  pose proof (Hst RunMain) as S0. pose proof (Hst RunWorker) as S1.
  unfold step, main_step in S0. cbn [exited daemon next monitor] in S0.
  destruct (script false !! n) as [[msg|]|] eqn:Hs; [done|done|].
  apply lookup_ge_None in Hs.
  destruct (decide (n ≤ start_at false)%nat) as [Hle|_].
  { simpl in Hle, Hs. lia. }
  unfold step, monitor_tea_temp in S1. simpl in S1. by destruct w.
Qed.
End DaemonOutputFacts.

(** X10. 07_daemon.py: how often the monitor prints depends on the schedule
    alone - for every n, also for 0, some run prints its line n times and
    then exits; the main thread is never held up, and once the process has
    exited nothing runs any more, so nothing is printed after the exit.
    08_non_daemon.py: some statement is enabled at every point of every
    run, so the program never comes to an end, and for every n some run
    prints the monitor's line n times after the last line of the main
    module. *)
Theorem daemon_output_depends_on_the_schedule :
  (∀ n, ∃ tr s,
     Daemon.run (DaemonOutput.rounds true n) (Daemon.init true) = Some (tr, s)
     ∧ Daemon.exited s = true ∧ DaemonOutput.monitored tr = n) ∧
  (∀ sch tr s,
     Daemon.run sch (Daemon.init true) = Some (tr, s) →
     if Daemon.exited s then stuck Daemon.step s
     else is_Some (Daemon.step Daemon.RunMain s)) ∧
  (∀ sch tr s,
     Daemon.run sch (Daemon.init false) = Some (tr, s) →
     ¬ stuck Daemon.step s) ∧
  (∀ n, ∃ tr1 s1 tr2 s2,
     Daemon.run (replicate 9 Daemon.RunMain) (Daemon.init false)
       = Some (tr1, s1)
     ∧ DaemonOutput.prints tr1 = DaemonOutput.lines false
     ∧ Daemon.run (concat (replicate n [Daemon.RunWorker; Daemon.RunWorker])) s1
       = Some (tr2, s2)
     ∧ DaemonOutput.monitored tr2 = n).
Proof.
  split; [|split; [|split]].
  - intros n.
    destruct (run_rounds true 5 false n) as (tr & Hr & Hn).
    eexists _, _. split.
    + unfold DaemonOutput.rounds, Daemon.run.
      eapply exec_app; [reflexivity|]. eapply exec_app; [exact Hr|].
      reflexivity.
    + split; [done|].
      rewrite !monitored_app, Hn.
      match goal with
      | |- (?a + (n + ?b))%nat = n =>
          change a with 0%nat; change b with 0%nat
      end.
      lia.
  - intros sch tr s Hr.
    pose proof (sound_run true sch _ _ _ (sound_init true) Hr) as Hs.
    destruct (Daemon.exited s) eqn:Hex.
    + by eapply exited_stuck.
    + by apply daemon_main_enabled.
  - intros sch tr s Hr. apply attached_never_stuck.
    apply (sound_run false sch _ _ _ (sound_init false) Hr).
  - intros n.
    destruct (run_rounds false 9 false n) as (tr & Hr & Hn).
    eexists _, _, tr, _. split; [reflexivity|]. split; [reflexivity|].
    split; [exact Hr|exact Hn].
Qed.

(** The daemon is killed before it has printed anything. *)
Lemma daemon_output_depends_on_the_schedule_witness :
  ∃ tr s,
    Daemon.run (replicate 8 Daemon.RunMain) (Daemon.init true) = Some (tr, s)
    ∧ DaemonOutput.monitored tr = 0%nat ∧ stuck Daemon.step s.
Proof.
  eexists _, _. split; [vm_compute; reflexivity|]. split; [reflexivity|].
  exact (proj1 (proj2 daemon_output_depends_on_the_schedule)
           (replicate 8 Daemon.RunMain) _ _ eq_refl).
Defined.

(** ** The result of encrypt *)

(** X11. [encrypt] of 05_process_async.py is undone by dropping its two
    leading characters and reversing the rest, so it loses nothing and no
    two inputs give the same result; the result is two characters longer
    than the input and begins with the lock and a space; it is the input
    itself behind that prefix exactly for a palindrome.  For the argument
    of [main] the result is the lock followed by " 4321_drac_tiderc". *)
Theorem encrypt_can_be_undone :
  (∀ data, ProcessAsync.decrypt (ProcessAsync.encrypt data) = data) ∧
  (∀ d1 d2, ProcessAsync.encrypt d1 = ProcessAsync.encrypt d2 → d1 = d2) ∧
  (∀ data,
     length (ProcessAsync.encrypt data) = (length data + 2)%nat ∧
     take 2 (ProcessAsync.encrypt data) = [ProcessAsync.lock; 32%N]) ∧
  (∀ data,
     ProcessAsync.encrypt data = [ProcessAsync.lock; 32%N] ++ data ↔
     reverse data = data) ∧
  ProcessAsync.encrypt ProcessAsync.credit_card
  = ProcessAsync.lock :: ProcessAsync.text " 4321_drac_tiderc".
Proof.
  assert (∀ data, ProcessAsync.decrypt (ProcessAsync.encrypt data) = data)
    as Hundo.
  { intros data. unfold ProcessAsync.decrypt, ProcessAsync.encrypt. simpl.
    apply reverse_involutive. }
  split; [exact Hundo|]. split; [|split; [|split]].
  - intros d1 d2 Heq. rewrite <- (Hundo d1), <- (Hundo d2). by rewrite Heq.
  - intros data. unfold ProcessAsync.encrypt. simpl.
    rewrite length_reverse. split; [lia|done].
  - intros data. unfold ProcessAsync.encrypt. simpl. split.
    + by intros [= ->].
    + by intros ->.
  - reflexivity.
Qed.

(** A palindrome comes back unchanged behind the prefix. *)
Lemma encrypt_can_be_undone_witness :
  ProcessAsync.encrypt (ProcessAsync.text "level")
  = [ProcessAsync.lock; 32%N] ++ ProcessAsync.text "level".
Proof.
  apply (proj2 (proj1 (proj2 (proj2 (proj2 encrypt_can_be_undone)))
                  (ProcessAsync.text "level"))).
  reflexivity.
Defined.

(** ** The exception that gather raises *)

Section GatherFirst.
Import Gather.
Context {V : Type}.

Lemma first_raise_snoc (g : list (decision (V:=V))) d :
  first_raise (g ++ [d]) =
  match first_raise g with
  | Some exc => Some exc
  | None => match d with Raise _ exc => Some exc | Return _ _ => None end
  end.
Proof.
  unfold first_raise. rewrite omap_app.
  destruct (omap _ g) as [|x l]; simpl; [|done]. by destruct d.
Qed.

Lemma first_raise_step n (g : list (decision (V:=V))) d (s : gathering V) e s' :
  sound n s → first_raise_inv g s → step d s = Some (e, s') →
  first_raise_inv (g ++ [e]) s'.
Proof.
  intros (Hlen & Hcount & Hout) HI Hs.
  assert (e = d) as ->.
  { destruct d; simpl in Hs;
      destruct (finish _ _ s); simpl in Hs; by simplify_eq. }
  unfold first_raise_inv in *. rewrite first_raise_snoc.
  assert (∀ i f, finish i f s = Some s' →
            children s !! i = Some Pending ∧
            s' = done_callback i
                   (Gathering (<[i := f]> (children s)) (nfinished s)
                      (outer s))) as Hfin.
  { intros i f. unfold finish.
    destruct (children s !! i) as [[| |]|]; try done. by intros [= <-]. }
  assert (∀ i f, children s !! i = Some Pending →
            <[i := f]> (children s) !! i = Some f) as Hins.
  { intros i f Hi. apply list_lookup_insert_eq. by eapply lookup_lt_Some. }
  destruct d as [i v|i exc]; simpl in Hs.
  - destruct (finish i (Returned v) s) as [s1|] eqn:Hf; simpl in Hs; [|done].
    injection Hs as <-. destruct (Hfin _ _ Hf) as [Hi ->].
    unfold done_callback. simpl. rewrite (Hins _ _ Hi).
    destruct (first_raise g) as [exc'|].
    + rewrite HI. done.
    + destruct (outer s) as [|rs|exc'] eqn:Ho.
      * case_decide; [|done]. by destruct (results _).
      * done.
      * by destruct (HI exc').
  - destruct (finish i (Raised exc) s) as [s1|] eqn:Hf; simpl in Hs; [|done].
    injection Hs as <-. destruct (Hfin _ _ Hf) as [Hi ->].
    unfold done_callback. simpl. rewrite (Hins _ _ Hi).
    destruct (first_raise g) as [exc'|].
    + rewrite HI. done.
    + destruct (outer s) as [|rs|exc'] eqn:Ho.
      * done.
      * destruct (results_lookup _ _ Hout) as [_ Hl].
        by destruct (proj1 (Hl i)).
      * by destruct (HI exc').
Qed.
End GatherFirst.

(** X12. Whatever the order in which the children of [gather] finish, the
    exception that the awaiting task gets is the one of the child that
    raised first in time, not the one of the first failing argument; the
    task gets no exception if no child has raised.  Once the outer future
    is settled, a child that finishes later does not change it. *)
Theorem gather_raises_the_first_failure :
  ∀ (V : Type) n sch tr (g : Gather.gathering V),
    Gather.run sch (Gather.gather n) = Some (tr, g) →
    (∀ exc, Gather.outer g = Gather.Raised exc ↔ first_raise tr = Some exc) ∧
    (∀ d e g', Gather.outer g ≠ Gather.Pending →
       Gather.step d g = Some (e, g') → Gather.outer g' = Gather.outer g).
Proof.
  intros V n sch tr g Hr.
  assert (Gather.sound n g ∧ first_raise_inv tr g) as [Hs HI].
  { apply (exec_trace_invariant Gather.step
             (λ g s, Gather.sound n s ∧ first_raise_inv g s))
      with sch (Gather.gather n); [| |exact Hr].
    - intros g0 d s e s' [Hs HI] Hstep. split.
      + by eapply sound_gather_step.
      + by eapply first_raise_step.
    - split; [apply sound_gather|]. intros exc. by destruct n. }
  split.
  - intros exc. unfold first_raise_inv in HI.
    destruct (first_raise tr) as [exc'|].
    + rewrite HI. split; by intros [= ->].
    + split; [by intros ?%HI|done].
  - intros d e g' Hne Hstep.
    assert (∀ i f, Gather.finish i f g = Some g' →
              Gather.outer g' = Gather.outer g) as Hfin.
    { intros i f. unfold Gather.finish.
      destruct (Gather.children g !! i) as [[| |]|]; try done.
      intros [= <-]. unfold Gather.done_callback. simpl.
      by destruct (Gather.outer g). }
    destruct d as [i v|i exc]; simpl in Hstep.
    + destruct (Gather.finish i (Gather.Returned v) g) as [g1|] eqn:Hf;
        simpl in Hstep; [|done].
      injection Hstep as _ <-. by eapply Hfin.
    + destruct (Gather.finish i (Gather.Raised exc) g) as [g1|] eqn:Hf;
        simpl in Hstep; [|done].
      injection Hstep as _ <-. by eapply Hfin.
Qed.

(** Of three children the third raises first, the second later: the
    awaiting task gets the exception of the third. *)
Lemma gather_raises_the_first_failure_witness :
  ∃ g,
    Gather.run [Gather.Return 0 1; Gather.Raise 2 "cold"; Gather.Raise 1 "late"]
      (Gather.gather 3)
    = Some ([Gather.Return 0 1; Gather.Raise 2 "cold"; Gather.Raise 1 "late"], g)
    ∧ Gather.outer g = Gather.Raised "cold".
Proof.
  eexists. split; [vm_compute; reflexivity|].
  apply (proj1 (gather_raises_the_first_failure Z 3
                  [Gather.Return 0 1; Gather.Raise 2 "cold";
                   Gather.Raise 1 "late"] _ _ eq_refl)).
  reflexivity.
Defined.

(** ** Threads that are started and joined *)

Section ThreadsFacts.
Import Threads ThreadsInv.
Variable p : program.

Lemma main_trace_snoc g e :
  main_trace (g ++ [e]) =
  main_trace g ++ match by_ e with
                  | Main => option_list (main_stmt_of (what e))
                  | _ => []
                  end.
Proof.
  unfold main_trace. rewrite omap_app. f_equal. simpl.
  destruct (by_ e); [|done|done]. by destruct (main_stmt_of _).
Qed.

Lemma begun_snoc i g e :
  begun i (g ++ [e]) =
  begun i g ++ (if decide (by_ e = Worker i)
                then option_list (stmt_of (what e)) else []).
Proof.
  unfold begun. rewrite omap_app. f_equal. simpl.
  destruct (decide _); [|done]. by destruct (stmt_of _).
Qed.

(** What a statement of the main module does. *)
Lemma main_step_inv s e s' :
  main_step p s = Some (e, s') →
  ∃ st, script p !! next s = Some st ∧
        when e = now s ∧ by_ e = Main ∧ main_stmt_of (what e) = Some st ∧
        now s' = now s ∧ next s' = S (next s) ∧
        match st with
        | Start i =>
            threads s !! i = Some NotStarted ∧
            threads s' = <[i := At 0]> (threads s) ∧
            start s' = start s ∧ end_ s' = end_ s
        | Join i =>
            finished p i s = true ∧ threads s' = threads s ∧
            start s' = start s ∧ end_ s' = end_ s
        | SetStart =>
            threads s' = threads s ∧ start s' = Some (now s) ∧
            end_ s' = end_ s
        | SetEnd =>
            threads s' = threads s ∧ start s' = start s ∧
            end_ s' = Some (now s)
        | Print _ =>
            threads s' = threads s ∧ start s' = start s ∧ end_ s' = end_ s
        | PrintElapsed before after =>
            threads s' = threads s ∧ start s' = start s ∧ end_ s' = end_ s ∧
            ∃ t0 t1, start s = Some t0 ∧ end_ s = Some t1 ∧
                     what e = SaidElapsed before (t1 - t0) after
        end.
Proof.
  unfold main_step. destruct (script p !! next s) as [st|]; simpl; [|done].
  intros Hs. exists st. split; [done|].
  destruct st as [msg|i|i| | |b a].
  - by injection Hs as <- <-.
  - destruct (threads s !! i) as [[| | |]|]; try done.
    by injection Hs as <- <-.
  - destruct (finished p i s); [|done]. by injection Hs as <- <-.
  - by injection Hs as <- <-.
  - by injection Hs as <- <-.
  - destruct (start s) as [t0|] eqn:H0; simpl in Hs; [|done].
    destruct (end_ s) as [t1|] eqn:H1; simpl in Hs; [|done].
    injection Hs as <- <-. do 5 (split; [done|]). simpl.
    rewrite H0, H1. do 3 (split; [done|]). by exists t0, t1.
Qed.

(** What a statement of a thread does. *)
Lemma worker_step_inv i s e s' :
  worker_step p i s = Some (e, s') →
  ∃ body t t',
    targets p !! i = Some body ∧ threads s !! i = Some t ∧
    s' = set_thread i t' s ∧ when e = now s ∧ by_ e = Worker i ∧
    main_stmt_of (what e) ≠ Some (Start i) ∧
    ((∃ pc st, t = At pc ∧ body !! pc = Some st ∧
               stmt_of (what e) = Some st ∧
               match st with
               | Say _ => t' = At (S pc)
               | Sleep ms =>
                   (0 ≤ ms ∧ t' = Sleeping pc (now s + ms)) ∨
                   (ms < 0 ∧ t' = Failed pc)
               end) ∨
     (∃ pc until, t = Sleeping pc until ∧ t' = At (S pc) ∧
                  stmt_of (what e) = None ∧ until ≤ now s)).
Proof.
  unfold worker_step.
  destruct (targets p !! i) as [body|]; simpl; [|done].
  destruct (threads s !! i) as [t|]; simpl; [|done].
  destruct t as [|pc|pc u|pc]; [done| | |done].
  - destruct (body !! pc) as [[msg|ms]|] eqn:Hpc; simpl; [| |done].
    + intros [= <- <-]. exists body, (At pc), (At (S pc)).
      do 6 (split; [done|]). left. by exists pc, (Say msg).
    + destruct (decide (0 ≤ ms)).
      * intros [= <- <-]. exists body, (At pc), (Sleeping pc (now s + ms)).
        do 6 (split; [done|]). left. exists pc, (Sleep ms).
        do 3 (split; [done|]). by left.
      * intros [= <- <-]. exists body, (At pc), (Failed pc).
        do 6 (split; [done|]). left. exists pc, (Sleep ms).
        do 3 (split; [done|]). right. split; [lia|done].
  - destruct (decide (u ≤ now s)); [|done].
    intros [= <- <-]. exists body, (Sleeping pc u), (At (S pc)).
    do 6 (split; [done|]). right. by exists pc, u.
Qed.

Lemma finished_set_thread i j t s :
  i ≠ j → finished p i (set_thread j t s) = finished p i s.
Proof.
  intros Hne. unfold finished, set_thread. simpl.
  by rewrite list_lookup_insert_ne.
Qed.

Lemma ordered_init : ordered p [] (init p).
Proof.
  split; simpl.
  - by rewrite take_0.
  - apply length_replicate.
  - intros i t [-> Hi]%lookup_replicate.
    destruct (lookup_lt_is_Some_2 (targets p) i Hi) as [body Hb].
    exists body. split; [done|]. split; [by rewrite take_0|].
    split; [simpl; lia|]. split; [done|]. split; [by intros pc [=]|].
    simpl. lia.
  - rewrite take_0. by intros i ?%elem_of_nil.
  - rewrite take_0. by intros i ?%elem_of_nil.
  - rewrite take_0. split; [by intros ?%elem_of_nil|by intros [? [=]]].
  - rewrite take_0. split; [by intros ?%elem_of_nil|by intros [? [=]]].
Qed.

Lemma elem_of_take_S {A} (l : list A) n x y :
  l !! n = Some y → x ∈ take (S n) l ↔ x ∈ take n l ∨ x = y.
Proof.
  intros Hn. rewrite (take_S_r _ _ _ Hn), elem_of_app, list_elem_of_singleton.
  done.
Qed.

Lemma started_event e i :
  by_ e = Main → main_stmt_of (what e) = Some (Start i) →
  e = Event (when e) Main (Started i).
Proof. destruct e as [t w []]; simpl; intros -> [=]. by subst. Qed.

Lemma joined_event e i :
  by_ e = Main → main_stmt_of (what e) = Some (Join i) →
  e = Event (when e) Main (Joined i).
Proof. destruct e as [t w []]; simpl; intros -> [=]. by subst. Qed.

Lemma ordered_tick g s dt e s' :
  ordered p g s → step p (Tick dt) s = Some (e, s') → ordered p (g ++ [e]) s'.
Proof.
  intros [Hm Hl Ht Hs Hj Hst Hen] [= <- <-]. split; simpl.
  - rewrite main_trace_snoc. simpl. by rewrite app_nil_r.
  - done.
  - intros i t Hi. destruct (Ht i t Hi) as (body & Hb & Hbg & Hc & Hn & Hf).
    exists body. split; [done|]. split.
    { rewrite begun_snoc. simpl. by rewrite app_nil_r. }
    split; [done|]. split; [|done]. intros Hne.
    destruct (Hn Hne) as [? [t0 ?]].
    split; [done|]. exists t0. apply elem_of_app. by left.
  - done.
  - done.
  - done.
  - done.
Qed.

Lemma ordered_main_step g s e s' :
  ordered p g s → main_step p s = Some (e, s') → ordered p (g ++ [e]) s'.
Proof.
  intros [Hm Hl Ht Hs Hj Hst Hen]
    (st & Hk & Hw & Hby & Hwhat & Hnow & Hnext & Hdo)%main_step_inv.
  assert (∀ x, x ∈ take (next s') (script p) ↔
               x ∈ take (next s) (script p) ∨ x = st) as Htake.
  { intros x. rewrite Hnext. by apply elem_of_take_S. }
  assert (∀ i, begun i (g ++ [e]) = begun i g) as Hbegun.
  { intros i. rewrite begun_snoc, Hby. simpl. by rewrite app_nil_r. }
  assert (main_trace (g ++ [e]) = take (next s') (script p)) as Hmain.
  { rewrite main_trace_snoc, Hby, Hwhat, Hm, Hnext. simpl.
    by rewrite (take_S_r _ _ _ Hk). }
  assert (∀ i t,
            threads s !! i = Some t → threads s' !! i = Some t →
            ∃ body, targets p !! i = Some body ∧
                    begun i (g ++ [e]) = take (count t) body ∧
                    (count t ≤ length body)%nat ∧
                    (t ≠ NotStarted →
                     Start i ∈ take (next s') (script p) ∧
                     ∃ t0, Event t0 Main (Started i) ∈ g ++ [e]) ∧
                    (∀ pc, t = Failed pc →
                     ∃ ms, body !! pc = Some (Sleep ms) ∧ ms < 0) ∧
                    (∀ k ms, (k < count t)%nat →
                             body !! k = Some (Sleep ms) →
                             ms < 0 → t = Failed k)) as Hsame.
  { intros i t Hi _.
    destruct (Ht i t Hi) as (body & Hb & Hbg & Hc & Hn & Hf).
    exists body. split; [done|]. rewrite Hbegun. split; [done|].
    split; [done|]. split; [|done].
    intros Hne. destruct (Hn Hne) as [? [t0 ?]].
    split; [apply Htake; by left|]. exists t0. apply elem_of_app. by left. }
  assert (st ≠ SetStart → start s' = start s →
          SetStart ∈ take (next s') (script p) ↔ is_Some (start s')) as Hst'.
  { intros Hne ->. rewrite Htake, <- Hst. split; [|by left].
    by intros [?|?]. }
  assert (st ≠ SetEnd → end_ s' = end_ s →
          SetEnd ∈ take (next s') (script p) ↔ is_Some (end_ s')) as Hen'.
  { intros Hne ->. rewrite Htake, <- Hen. split; [|by left].
    by intros [?|?]. }
  assert (threads s' = threads s → (∀ i, st ≠ Start i) →
          (if decide (st = SetStart) then is_Some (start s')
           else start s' = start s) →
          (if decide (st = SetEnd) then is_Some (end_ s')
           else end_ s' = end_ s) →
          (∀ i, st = Join i → finished p i s = true) →
          ordered p (g ++ [e]) s') as Hplain.
  { intros Hth Hns Hs1 Hs2 Hfin. split.
    - done.
    - by rewrite Hth.
    - intros i t Hi. apply Hsame; [by rewrite <- Hth|done].
    - intros i [Hi|Hi]%Htake; [|by destruct (Hns i)].
      rewrite Hth. by apply Hs.
    - intros i [Hi|Hi]%Htake.
      + specialize (Hj i Hi). unfold finished in *. by rewrite Hth.
      + specialize (Hfin i (eq_sym Hi)). unfold finished in *.
        by rewrite Hth.
    - destruct (decide (st = SetStart)) as [->|Hne]; [|by apply Hst'].
      split; [done|]. intros _. apply Htake. by right.
    - destruct (decide (st = SetEnd)) as [->|Hne]; [|by apply Hen'].
      split; [done|]. intros _. apply Htake. by right. }
  destruct st as [msg|i|i| | |b a].
  - destruct Hdo as (Hth & H1 & H2). by apply Hplain.
  - destruct Hdo as (Hi & Hth & H1 & H2).
    assert (i < length (threads s))%nat as Hlt by (by eapply lookup_lt_Some).
    pose proof (started_event e i Hby Hwhat) as He.
    split.
    + done.
    + by rewrite Hth, length_insert.
    + intros j t. rewrite Hth.
      destruct (decide (j = i)) as [->|Hne].
      * rewrite list_lookup_insert_eq by done. intros [= <-].
        destruct (Ht i NotStarted Hi) as (body & Hb & Hbg & Hc & _).
        exists body. split; [done|]. rewrite Hbegun. split; [done|].
        split; [simpl; lia|]. split; [|split; [by intros pc [=]|simpl; lia]].
        intros _. split; [apply Htake; by right|].
        exists (when e). apply elem_of_app. right.
        apply list_elem_of_singleton. done.
      * rewrite list_lookup_insert_ne by done. intros Hj'.
        apply Hsame; [done|]. rewrite Hth.
        by rewrite list_lookup_insert_ne.
    + intros j [Hj'|Hj']%Htake.
      * destruct (Hs j Hj') as (t & Hjt & Hne). rewrite Hth.
        destruct (decide (j = i)) as [->|Hji].
        -- exists (At 0). by rewrite list_lookup_insert_eq.
        -- exists t. by rewrite list_lookup_insert_ne.
      * injection Hj' as ->. exists (At 0). rewrite Hth.
        by rewrite list_lookup_insert_eq.
    + intros j [Hj'|Hj']%Htake; [|done].
      specialize (Hj j Hj'). unfold finished in *. rewrite Hth.
      destruct (decide (j = i)) as [->|Hji].
      * by rewrite Hi in Hj.
      * by rewrite list_lookup_insert_ne.
    + by apply Hst'.
    + by apply Hen'.
  - destruct Hdo as (Hf & Hth & H1 & H2). apply Hplain; try done.
    by intros j [= ->].
  - destruct Hdo as (Hth & H1 & H2). apply Hplain; try done.
    simpl. by rewrite H1.
  - destruct Hdo as (Hth & H1 & H2). apply Hplain; try done.
    simpl. by rewrite H2.
  - destruct Hdo as (Hth & H1 & H2 & _). by apply Hplain.
Qed.

Lemma ordered_worker_step i g s e s' :
  ordered p g s → worker_step p i s = Some (e, s') →
  ordered p (g ++ [e]) s'.
Proof.
  intros [Hm Hl Ht Hs Hj Hst Hen]
    (body & t & t' & Hb & Hi & -> & Hw & Hby & _ & Hdo)%worker_step_inv.
  assert (i < length (threads s))%nat as Hlt by (by eapply lookup_lt_Some).
  destruct (Ht i t Hi) as (body' & Hb' & Hbg & Hc & Hn & _ & Hneg).
  assert (body' = body) as -> by congruence.
  assert (t ≠ NotStarted ∧ t' ≠ NotStarted ∧ running t body = true ∧
          begun i (g ++ [e]) = take (count t') body ∧
          (count t' ≤ length body)%nat ∧
          (∀ pc, t' = Failed pc →
           ∃ ms, body !! pc = Some (Sleep ms) ∧ ms < 0) ∧
          (∀ k ms, (k < count t')%nat → body !! k = Some (Sleep ms) →
                   ms < 0 → t' = Failed k))
    as (Hne & Hne' & Hrun & Hbg' & Hc' & Hf' & Hneg').
  { rewrite begun_snoc, Hby, decide_True by done.
    destruct Hdo as [(pc & st & -> & Hpc & Hst' & Hdo)|(pc & u & -> & -> & Hst' & _)].
    - rewrite Hst', Hbg. simpl. rewrite <- (take_S_r _ _ _ Hpc).
      pose proof (lookup_lt_Some _ _ _ Hpc) as Hlt'.
      assert (∀ k ms, (k < S pc)%nat → body !! k = Some (Sleep ms) →
                      ms < 0 → k = pc) as Hk.
      { intros k ms Hlt'' Hk Hms.
        destruct (decide (k = pc)) as [|Hkp]; [done|].
        assert (k < pc)%nat as Hlt3 by lia.
        by specialize (Hneg k ms Hlt3 Hk Hms). }
      destruct st as [msg|ms];
        [subst t'|destruct Hdo as [[Hpos ->]|[Hms ->]]]; simpl;
        (split; [done|]); (split; [done|]);
        (split; [by apply bool_decide_eq_true|]); (split; [done|]);
        (split; [lia|]).
      + split; [by intros pc' [=]|]. intros k ms Hlt'' Hk' Hms.
        pose proof (Hk k ms Hlt'' Hk' Hms) as ->. congruence.
      + split; [by intros pc' [=]|]. intros k ms' Hlt'' Hk' Hms.
        pose proof (Hk k ms' Hlt'' Hk' Hms) as ->.
        assert (ms' = ms) as -> by congruence. lia.
      + split; [intros pc' [= <-]; by exists ms|].
        intros k ms' Hlt'' Hk' Hms'. by rewrite (Hk k ms' Hlt'' Hk' Hms').
    - rewrite Hst', Hbg. simpl. rewrite app_nil_r.
      do 5 (split; [done|]). split; [by intros pc' [=]|].
      intros k ms Hlt' Hk Hms. by specialize (Hneg k ms Hlt' Hk Hms). }
  split; simpl.
  - rewrite main_trace_snoc, Hby. simpl. by rewrite app_nil_r.
  - by rewrite length_insert.
  - intros j u. destruct (decide (j = i)) as [->|Hji].
    + rewrite list_lookup_insert_eq by done. intros [= <-].
      exists body. split; [done|]. split; [done|]. split; [done|].
      split; [|by split].
      intros _. destruct (Hn Hne) as [? [t0 ?]]. split; [done|].
      exists t0. apply elem_of_app. by left.
    + rewrite list_lookup_insert_ne by done. intros Hju.
      destruct (Ht j u Hju) as (bj & Hbj & Hbgj & Hcj & Hnj & Hfj).
      exists bj. split; [done|]. split.
      { rewrite begun_snoc, Hby, decide_False; [by rewrite app_nil_r|].
        by intros [= ->]. }
      split; [done|]. split; [|done].
      intros Hu. destruct (Hnj Hu) as [? [t0 ?]].
      split; [done|]. exists t0. apply elem_of_app. by left.
  - intros j Hj'. destruct (Hs j Hj') as (u & Hju & Hu).
    destruct (decide (j = i)) as [->|Hji].
    + exists t'. by rewrite list_lookup_insert_eq.
    + exists u. by rewrite list_lookup_insert_ne.
  - intros j Hj'. specialize (Hj j Hj').
    destruct (decide (j = i)) as [->|Hji].
    + unfold finished in Hj. rewrite Hi, Hb in Hj.
      destruct t as [|pc|pc u|pc]; [done| |done|done].
      simpl in Hrun. apply bool_decide_eq_true in Hrun, Hj. lia.
    + by rewrite finished_set_thread.
  - done.
  - done.
Qed.

Lemma ordered_step d g s e s' :
  ordered p g s → step p d s = Some (e, s') → ordered p (g ++ [e]) s'.
Proof.
  destruct d as [dt| |i].
  - apply ordered_tick.
  - apply ordered_main_step.
  - apply ordered_worker_step.
Qed.

Lemma ordered_run sch tr s :
  run p sch (init p) = Some (tr, s) → ordered p tr s.
Proof.
  apply (exec_trace_invariant (step p) (ordered p)).
  - intros g d c e c'. apply ordered_step.
  - apply ordered_init.
Qed.

(** A thread that can take a step has been started and has not
    ended. *)
Lemma worker_step_running i s e s' :
  worker_step p i s = Some (e, s') →
  by_ e = Worker i ∧ finished p i s = false ∧
  ∃ t, threads s !! i = Some t ∧ t ≠ NotStarted.
Proof.
  intros (body & t & t' & Hb & Hi & -> & Hw & Hby & _ & Hdo)%worker_step_inv.
  split; [done|]. unfold finished. rewrite Hi, Hb. split.
  - destruct Hdo as [(pc & st & -> & Hpc & _)|(pc & u & -> & _)]; [|done].
    apply lookup_lt_Some in Hpc. apply bool_decide_eq_false. lia.
  - exists t. split; [done|].
    by destruct Hdo as [(pc & st & -> & _)|(pc & u & -> & _)].
Qed.

Lemma step_by d s e s' :
  step p d s = Some (e, s') →
  match by_ e with
  | Main => d = RunMain
  | Worker i => d = RunWorker i
  | Clock => ∃ dt, d = Tick dt
  end.
Proof.
  destruct d as [dt| |i]; simpl.
  - intros [= <- <-]. by exists dt.
  - by intros (st & _ & _ & -> & _)%main_step_inv.
  - by intros [-> _]%worker_step_running.
Qed.

Lemma output_snoc g e : output (g ++ [e]) = output g ++ output [e].
Proof. apply omap_app. Qed.

Lemma output_main e st :
  by_ e = Main → main_stmt_of (what e) = Some st →
  output [e] = match line_of st with Some l => [(Main, l)] | None => [] end.
Proof.
  destruct e as [t w a]. simpl. intros ->.
  destruct a; simpl; intros [= <-]; done.
Qed.

Lemma said_begun i tr : said i tr = lines (begun i tr).
Proof.
  unfold said, lines, begun.
  induction tr as [|[t w a] tr IH]; [done|]. simpl.
  destruct (decide (w = Worker i)) as [->|Hne]; [|exact IH].
  destruct a; simpl; first [exact IH | f_equal; exact IH].
Qed.
End ThreadsFacts.

Section FramedFacts.
Import Threads ThreadsInv.
Variable p : program.
Variables first closing : string.
Hypothesis Hframed : framed p first closing.

Lemma head_app_l {A} (l1 l2 : list A) x :
  head l1 = Some x → head (l1 ++ l2) = Some x.
Proof. by destruct l1. Qed.

Lemma framed_all_finished g s i :
  ordered p g s → next s = length (script p) →
  (i < length (targets p))%nat → finished p i s = true.
Proof.
  intros Ho Hn Hi. apply (ordered_join _ _ _ Ho).
  rewrite Hn, firstn_all. by apply (framed_joined _ _ _ Hframed).
Qed.

Lemma framed_step d g s e s' :
  framed_inv p first closing g s → step p d s = Some (e, s') →
  framed_inv p first closing (g ++ [e]) s'.
Proof.
  intros (Ho & H0 & Hh & Hl) Hs.
  split; [by eapply ordered_step|].
  rewrite output_snoc.
  destruct d as [dt| |i]; simpl in Hs.
  - injection Hs as <- <-. simpl. rewrite app_nil_r. done.
  - pose proof Hs as (st & Hk & Hw & Hby & Hwhat & Hnow & Hnext & _)%main_step_inv.
    rewrite (output_main e st Hby Hwhat), Hnext.
    split; [done|]. split.
    + intros _. destruct (decide (next s = 0%nat)) as [Hz|Hz].
      * rewrite (H0 Hz). rewrite Hz, (framed_first _ _ _ Hframed) in Hk.
        by injection Hk as <-.
      * assert (0 < next s)%nat as Hpos by lia.
        by rewrite (head_app_l _ _ _ (Hh Hpos)).
    + intros Hend. pose proof (framed_last _ _ _ Hframed) as Hlast.
      rewrite last_lookup, <- Hend in Hlast. simpl in Hlast.
      rewrite Hk in Hlast. simpl in Hlast. rewrite Hlast.
      by rewrite last_snoc.
  - pose proof Hs as (Hby & Hnf & t & Hi & Hne)%worker_step_running.
    destruct (ordered_thread _ _ _ Ho i t Hi)
      as (body & Hb & _ & _ & Hst & _).
    destruct (Hst Hne) as [Hin _].
    pose proof Hs as (_ & _ & t' & _ & _ & -> & _)%worker_step_inv. simpl.
    split; [|split].
    + intros Hz. rewrite Hz, take_0 in Hin. by apply elem_of_nil in Hin.
    + intros Hpos. by rewrite (head_app_l _ _ _ (Hh Hpos)).
    + intros Hend. apply lookup_lt_Some in Hb.
      by rewrite (framed_all_finished g s i Ho Hend Hb) in Hnf.
Qed.

Lemma framed_run sch tr s :
  run p sch (init p) = Some (tr, s) → framed_inv p first closing tr s.
Proof.
  apply (exec_trace_invariant (step p) (framed_inv p first closing)).
  - intros g d c e c'. apply framed_step.
  - split; [apply ordered_init|]. split; [done|]. split.
    + simpl. lia.
    + simpl. intros Hn. pose proof (framed_first _ _ _ Hframed) as Hf.
      apply lookup_lt_Some in Hf. lia.
Qed.
End FramedFacts.

(** What a thread has done when the main module has joined it. *)
Lemma joined_thread_has_ended p g s i body :
  ThreadsInv.ordered p g s → Threads.targets p !! i = Some body →
  Threads.begun i g `prefix_of` body ∧
  (Threads.Join i ∈ take (Threads.next s) (Threads.script p) →
   (ThreadsInv.no_raise body ∧ Threads.begun i g = body) ∨
   (∃ pc ms,
      body !! pc = Some (Threads.Sleep ms) ∧ ms < 0 ∧
      ThreadsInv.no_raise (take pc body) ∧
      Threads.begun i g = take (S pc) body)).
Proof.
  intros Ho Hb.
  assert (i < length (Threads.threads s))%nat as Hlt.
  { rewrite (ThreadsInv.ordered_length _ _ _ Ho). by eapply lookup_lt_Some. }
  destruct (lookup_lt_is_Some_2 _ _ Hlt) as [t Ht].
  destruct (ThreadsInv.ordered_thread _ _ _ Ho i t Ht)
    as (body' & Hb' & Hbg & Hc & _ & Hf & Hneg).
  assert (body' = body) as -> by congruence.
  rewrite Hbg. split; [apply prefix_take|].
  intros Hj%(ThreadsInv.ordered_join _ _ _ Ho).
  unfold Threads.finished in Hj. rewrite Ht, Hb in Hj.
  destruct t as [|pc|pc u|pc]; [done| |done|].
  - apply bool_decide_eq_true in Hj. simpl in *. left.
    split; [|by rewrite take_ge].
    intros ms (k & Hk)%list_elem_of_lookup_1.
    destruct (decide (0 ≤ ms)) as [|Hms]; [done|].
    pose proof (lookup_lt_Some _ _ _ Hk) as Hlt'.
    assert (k < pc)%nat as Hkp by lia.
    by specialize (Hneg k ms Hkp Hk ltac:(lia)).
  - right. destruct (Hf pc eq_refl) as (ms & Hpc & Hms).
    exists pc, ms. do 2 (split; [done|]). split; [|done].
    intros ms' (k & Hk)%list_elem_of_lookup_1.
    destruct (decide (0 ≤ ms')) as [|Hms']; [done|].
    apply lookup_take_Some in Hk as [Hk Hkp]. simpl in Hneg.
    assert (k < S pc)%nat as Hlt' by lia.
    pose proof (Hneg k ms' Hlt' Hk ltac:(lia)) as [= ->]. lia.
Qed.

(** A thread whose function sleeps for a negative time ends there: the
    main module joins it at once, although the function goes on with a
    sleep of five seconds. *)
Lemma negative_sleep_ends_the_thread :
  let p := Threads.Program
             [[Threads.Say "a"; Threads.Sleep (-1); Threads.Sleep 5000]]
             [Threads.Start 0; Threads.Join 0] in
  ∃ tr s,
    Threads.run p
      [Threads.RunMain; Threads.RunWorker 0; Threads.RunWorker 0;
       Threads.RunMain] (Threads.init p) = Some (tr, s) ∧
    Threads.threads s = [Threads.Failed 1] ∧
    Threads.begun 0 tr = [Threads.Say "a"; Threads.Sleep (-1)] ∧
    last tr = Some (Threads.Event 0 Threads.Main (Threads.Joined 0)) ∧
    Threads.step p (Threads.RunWorker 0) s = None.
Proof.
  eexists _, _. split; [vm_compute; reflexivity|].
  repeat split; vm_compute; reflexivity.
Qed.

Ltac sleeps_literal Hin :=
  let Heq := fresh "Heq" in
  repeat (apply elem_of_cons in Hin as [Heq|Hin];
          [first [discriminate Heq | injection Heq as ->; lia]|]);
  by apply elem_of_nil in Hin.

(** No function of the four scripts sleeps for a negative time. *)
Lemma sleeps_ok_threading : ThreadsInv.sleeps_ok Threading.program.
Proof.
  intros [|[|i]] body [= <-] ms Hin; vm_compute in Hin; sleeps_literal Hin.
Qed.

Lemma sleeps_ok_multiprocessing :
  ThreadsInv.sleeps_ok Multiprocessing.program.
Proof.
  intros [|[|[|i]]] body [= <-] ms Hin; vm_compute in Hin; sleeps_literal Hin.
Qed.

Lemma sleeps_ok_thread_one : ThreadsInv.sleeps_ok ThreadOne.program.
Proof.
  intros [|[|i]] body [= <-] ms Hin; vm_compute in Hin; sleeps_literal Hin.
Qed.

Lemma sleeps_ok_thread_two : ThreadsInv.sleeps_ok ThreadTwo.program.
Proof.
  intros [|[|i]] body [= <-] ms Hin; vm_compute in Hin; sleeps_literal Hin.
Qed.


(** The four scripts begin and end with a line of the main module and join
    all their threads. *)
Lemma framed_threading :
  ThreadsInv.framed Threading.program
    ("🚀 Starting the chai shop operations..." +:+ nl)
    (nl +:+ "✅ All orders taken and chai brewed!").
Proof.
  split; [reflexivity|reflexivity|]. intros i Hi.
  destruct i as [|[|i]]; [| |simpl in Hi; lia].
  - by apply (list_elem_of_lookup_2 _ 3%nat).
  - by apply (list_elem_of_lookup_2 _ 4%nat).
Qed.

Lemma framed_multiprocessing :
  ThreadsInv.framed Multiprocessing.program
    ("🚀 Starting all chai makers in parallel..." +:+ nl)
    (nl +:+ "🎉 All chai served!").
Proof.
  split; [reflexivity|reflexivity|]. intros i Hi.
  destruct i as [|[|[|i]]]; [| | |simpl in Hi; lia].
  - by apply (list_elem_of_lookup_2 _ 4%nat).
  - by apply (list_elem_of_lookup_2 _ 5%nat).
  - by apply (list_elem_of_lookup_2 _ 6%nat).
Qed.

Lemma framed_thread_one :
  ThreadsInv.framed ThreadOne.program ThreadOne.rule
    (nl +:+ "🎉 Breakfast is ready in " +:+ " seconds!").
Proof.
  split; [reflexivity|reflexivity|]. intros i Hi.
  destruct i as [|[|i]]; [| |simpl in Hi; lia].
  - by apply (list_elem_of_lookup_2 _ 7%nat).
  - by apply (list_elem_of_lookup_2 _ 8%nat).
Qed.

Lemma framed_thread_two :
  ThreadsInv.framed ThreadTwo.program ThreadOne.rule
    (nl +:+ "🎉 All chai varieties are ready to serve!").
Proof.
  split; [reflexivity|reflexivity|]. intros i Hi.
  destruct i as [|[|i]]; [| |simpl in Hi; lia].
  - by apply (list_elem_of_lookup_2 _ 6%nat).
  - by apply (list_elem_of_lookup_2 _ 7%nat).
Qed.




Section ThreadsTime.
Import Threads ThreadsInv.
Variable p : program.

Lemma slept_take_S body pc st :
  body !! pc = Some st →
  slept (take (S pc) body)
  = slept (take pc body) + match st with Sleep ms => ms | Say _ => 0 end.
Proof.
  intros Hpc. rewrite (take_S_r _ _ _ Hpc). unfold slept.
  rewrite sumZ_app. simpl. lia.
Qed.

Lemma started_in_main_trace g t0 i :
  Event t0 Main (Started i) ∈ g → Start i ∈ main_trace g.
Proof.
  intros Hin. unfold main_trace. apply list_elem_of_omap.
  by exists (Event t0 Main (Started i)).
Qed.

Lemma joined_of_main_trace g i :
  Join i ∈ main_trace g → ∃ t1, Event t1 Main (Joined i) ∈ g.
Proof.
  unfold main_trace. intros ([t w a] & Hin & He)%list_elem_of_omap.
  simpl in He. destruct w; [|done|done]. destruct a; simpl in He; try done.
  injection He as ->. by eexists.
Qed.

Lemma step_now d s e s' :
  step p d s = Some (e, s') → now s ≤ now s' ∧ when e = now s'.
Proof.
  destruct d as [dt| |i]; simpl.
  - intros [= <- <-]. simpl. lia.
  - intros (st & _ & Hw & _ & _ & Hn & _)%main_step_inv. lia.
  - intros (body & t & t' & _ & _ & -> & Hw & _)%worker_step_inv.
    simpl. lia.
Qed.

Lemma timed_init : timed p [] (init p).
Proof.
  split.
  - by intros e ?%elem_of_nil.
  - by intros i t body t0 _ _ ?%elem_of_nil.
  - by intros i t1 ?%elem_of_nil.
  - by intros i body t0 t1 _ _ ?%elem_of_nil.
Qed.

(** A thread that has ended takes no step and is not started again. *)
Lemma finished_step d s e s' i :
  step p d s = Some (e, s') → finished p i s = true →
  finished p i s' = true.
Proof.
  intros Hs Hf. destruct d as [dt| |j]; simpl in Hs.
  - by injection Hs as <- <-.
  - apply main_step_inv in Hs as (st & _ & _ & _ & _ & _ & _ & Hdo).
    unfold finished in *.
    destruct st as [msg|j|j| | |b a].
    + destruct Hdo as (-> & _). done.
    + destruct Hdo as (Hj & -> & _).
      destruct (decide (i = j)) as [->|Hne]; [by rewrite Hj in Hf|].
      by rewrite list_lookup_insert_ne.
    + destruct Hdo as (_ & -> & _). done.
    + destruct Hdo as (-> & _). done.
    + destruct Hdo as (-> & _). done.
    + destruct Hdo as (-> & _). done.
  - pose proof Hs as (_ & Hnf & _)%worker_step_running.
    apply worker_step_inv in Hs as (body & t & t' & _ & _ & -> & _).
    destruct (decide (i = j)) as [->|Hne]; [congruence|].
    by rewrite finished_set_thread.
Qed.

Lemma timed_step d g s e s' :
  timed p g s → step p d s = Some (e, s') → timed p (g ++ [e]) s'.
Proof.
  intros [Hpast Hth Hjd Hjn] Hs.
  destruct (step_now _ _ _ _ Hs) as [Hnow Hwhen].
  assert (∀ e', e' ∈ g ++ [e] → when e' ≤ now s') as Hpast'.
  { intros e' [Hin| ->%list_elem_of_singleton]%elem_of_app; [|lia].
    specialize (Hpast e' Hin). lia. }
  assert (∀ i t1, Event t1 Main (Joined i) ∈ g ++ [e] →
                  finished p i s' = true) as Hjd'.
  { intros i t1 [Hin|He%list_elem_of_singleton]%elem_of_app.
    - eapply finished_step; [done|]. by eapply Hjd.
    - destruct d as [dt| |j]; simpl in Hs.
      + injection Hs as <- <-. done.
      + apply main_step_inv in Hs
          as (st & _ & _ & _ & Hwhat & _ & _ & Hdo).
        rewrite <- He in Hwhat. simpl in Hwhat. injection Hwhat as <-.
        destruct Hdo as (Hf & Hth' & _). unfold finished in *.
        by rewrite Hth'.
      + apply worker_step_running in Hs as [Hby _]. by rewrite <- He in Hby. }
  split; [done| |done|].
  - intros i t body t0 Hi Hb Hin.
    destruct d as [dt| |j]; simpl in Hs.
    + injection Hs as <- <-. simpl in *.
      apply elem_of_app in Hin as [Hin|Hin%list_elem_of_singleton]; [|done].
      specialize (Hth i t body t0 Hi Hb Hin).
      destruct t as [|pc|pc u|pc]; [done|lia|done|done].
    + apply main_step_inv in Hs
        as (st & _ & Hw & Hby & Hwhat & Hn & _ & Hdo).
      assert (threads s' = threads s →
              (∀ j, st ≠ Start j) →
              match t with
              | NotStarted => False
              | At pc => t0 + slept (take pc body) ≤ now s'
              | Sleeping pc until => t0 + slept (take (S pc) body) ≤ until
              | Failed pc => ∃ ms, body !! pc = Some (Sleep ms) ∧ ms < 0
              end) as Hplain.
      { intros Heq Hns. rewrite Heq in Hi.
        apply elem_of_app in Hin as [Hin|He%list_elem_of_singleton].
        - specialize (Hth i t body t0 Hi Hb Hin).
          destruct t as [|pc|pc u|pc]; [done|lia|done|done].
        - rewrite <- He in Hwhat. simpl in Hwhat. injection Hwhat as <-.
          by destruct (Hns i). }
      destruct st as [msg|j|j| | |b a].
      * destruct Hdo as (Heq & _). by apply Hplain.
      * destruct Hdo as (Hj & Heq & _). rewrite Heq in Hi.
        destruct (decide (i = j)) as [->|Hne].
        -- rewrite list_lookup_insert_eq in Hi
             by (by eapply lookup_lt_Some).
           injection Hi as <-. rewrite take_0.
           apply elem_of_app in Hin as [Hin|He%list_elem_of_singleton].
           ++ by destruct (Hth j NotStarted body t0 Hj Hb Hin).
           ++ rewrite <- He in Hw. simpl in Hw. unfold slept. simpl. lia.
        -- rewrite list_lookup_insert_ne in Hi by done.
           apply elem_of_app in Hin as [Hin|He%list_elem_of_singleton].
           ++ specialize (Hth i t body t0 Hi Hb Hin).
              destruct t as [|pc|pc u|pc]; [done|lia|done|done].
           ++ rewrite <- He in Hwhat. simpl in Hwhat. by injection Hwhat.
      * destruct Hdo as (_ & Heq & _). by apply Hplain.
      * destruct Hdo as (Heq & _). by apply Hplain.
      * destruct Hdo as (Heq & _). by apply Hplain.
      * destruct Hdo as (Heq & _). by apply Hplain.
    + apply worker_step_inv in Hs
        as (bj & tj & tj' & Hbj & Hj & -> & Hw & Hby & _ & Hdo).
      simpl in *.
      apply elem_of_app in Hin as [Hin|He%list_elem_of_singleton];
        [|by rewrite <- He in Hby].
      destruct (decide (i = j)) as [->|Hne].
      * rewrite list_lookup_insert_eq in Hi by (by eapply lookup_lt_Some).
        injection Hi as <-. assert (bj = body) as -> by congruence.
        specialize (Hth j tj body t0 Hj Hb Hin).
        destruct Hdo as [(pc & st & -> & Hpc & _ & Hdo)
                        |(pc & u & -> & -> & _ & Hu)].
        -- pose proof (slept_take_S _ _ _ Hpc) as Hsl. simpl in Hth.
           destruct st as [msg|ms];
             [subst tj'|destruct Hdo as [[_ ->]|[Hms ->]]]; simpl;
             [lia|lia|by exists ms].
        -- simpl in *. lia.
      * rewrite list_lookup_insert_ne in Hi by done.
        by apply (Hth i t body t0).
  - intros i body t0 t1 Hb Hok H0 H1.
    apply elem_of_app in H1 as [H1|H1%list_elem_of_singleton].
    + apply elem_of_app in H0 as [H0|H0%list_elem_of_singleton].
      * by eapply Hjn.
      * (* a thread that was joined is not started again *)
        pose proof (Hjd i t1 H1) as Hf.
        destruct d as [dt| |j]; simpl in Hs.
        -- injection Hs as <- <-. done.
        -- apply main_step_inv in Hs
             as (st & _ & _ & _ & Hwhat & _ & _ & Hdo).
           rewrite <- H0 in Hwhat. simpl in Hwhat. injection Hwhat as <-.
           destruct Hdo as (Hi & _). unfold finished in Hf.
           by rewrite Hi in Hf.
        -- apply worker_step_running in Hs as [Hby _].
           by rewrite <- H0 in Hby.
    + apply elem_of_app in H0 as [H0|H0%list_elem_of_singleton];
        [|congruence].
      destruct d as [dt| |j]; simpl in Hs.
      * injection Hs as <- <-. done.
      * apply main_step_inv in Hs
          as (st & _ & Hw & _ & Hwhat & _ & _ & Hdo).
        rewrite <- H1 in Hwhat, Hw. simpl in Hwhat, Hw.
        injection Hwhat as <-. destruct Hdo as (Hf & _).
        unfold finished in Hf. rewrite Hb in Hf.
        destruct (threads s !! i) as [[|pc|pc u|pc]|] eqn:Hi; try done.
        -- apply bool_decide_eq_true in Hf.
           specialize (Hth i (At pc) body t0 Hi Hb H0). simpl in Hth.
           rewrite take_ge in Hth by done. lia.
        -- destruct (Hth i (Failed pc) body t0 Hi Hb H0) as (ms & Hpc & Hms).
           apply list_elem_of_lookup_2 in Hpc. specialize (Hok ms Hpc). lia.
      * apply worker_step_running in Hs as [Hby _].
        by rewrite <- H1 in Hby.
Qed.

Lemma timed_run sch tr s :
  run p sch (init p) = Some (tr, s) → timed p tr s.
Proof.
  apply (exec_trace_invariant (step p) (timed p)).
  - intros g d c e c'. apply timed_step.
  - apply timed_init.
Qed.
End ThreadsTime.

Section ThreadsClock.
Import Threads ThreadsInv.
Variable p : program.
Hypothesis Hclock : clock_ok p.

Lemma clocked_init : clocked p [] (init p).
Proof.
  split.
  - by intros ts [=].
  - by intros ts te i body [=].
  - by intros t b ms a i body ?%elem_of_nil.
Qed.

Lemma clocked_step d g s e s' :
  ordered p g s → timed p g s → clocked p g s →
  step p d s = Some (e, s') → clocked p (g ++ [e]) s'.
Proof.
  intros Ho Ht [Hst Hen Hpr] Hs.
  destruct (step_now p _ _ _ _ Hs) as [Hnow Hwhen].
  assert (start s' = start s → end_ s' = end_ s →
          (∀ i t0, e ≠ Event t0 Main (Started i)) →
          (∀ t b ms a, e ≠ Event t Main (SaidElapsed b ms a)) →
          clocked p (g ++ [e]) s') as Hplain.
  { intros Hs1 Hs2 Hns Hnp. split.
    - intros ts. rewrite Hs1. intros Hts. destruct (Hst ts Hts) as [Hle Hall].
      split; [lia|].
      intros i t0 [Hin|He%list_elem_of_singleton]%elem_of_app;
        [by eapply Hall|].
      by destruct (Hns i t0).
    - intros ts te i body. rewrite Hs1, Hs2. apply Hen.
    - intros t b ms a i body
        [Hin|He%list_elem_of_singleton]%elem_of_app Hb;
        [by eapply Hpr|].
      by destruct (Hnp t b ms a). }
  destruct d as [dt| |j]; simpl in Hs.
  - injection Hs as <- <-. by apply Hplain.
  - apply main_step_inv in Hs as (st & Hk & Hw & Hby & Hwhat & Hn & Hnx & Hdo).
    destruct st as [msg|j|j| | |b a].
    + destruct Hdo as (_ & H1 & H2).
      apply Hplain; try done; intros *; intros ->; done.
    + destruct Hdo as (_ & _ & H1 & H2). split.
      * intros ts. rewrite H1. intros Hts.
        destruct (Hst ts Hts) as [Hle Hall]. split; [lia|].
        intros i t0 [Hin|He%list_elem_of_singleton]%elem_of_app;
          [by eapply Hall|].
        rewrite <- He in Hw. simpl in Hw. lia.
      * intros ts te i body. rewrite H1, H2. apply Hen.
      * intros t b ms a i body
          [Hin|He%list_elem_of_singleton]%elem_of_app Hb;
          [by eapply Hpr|].
        rewrite <- He in Hwhat. done.
    + destruct Hdo as (_ & _ & H1 & H2).
      apply Hplain; try done; intros *; intros ->; done.
    + destruct Hdo as (_ & H1 & H2). split.
      * intros ts. rewrite H1. intros [= <-]. split; [lia|].
        intros i t0 [Hin|He%list_elem_of_singleton]%elem_of_app.
        -- apply started_in_main_trace in Hin.
           rewrite (ordered_main _ _ _ Ho) in Hin.
           by destruct (start_first _ Hclock _ _ Hk Hin) as [Hno _],
             (Hno i).
        -- rewrite <- He in Hwhat. done.
      * intros ts te i body _. rewrite H2. intros Hte.
        assert (SetEnd ∈ take (next s) (script p)) as Hin.
        { apply (ordered_end _ _ _ Ho). by eexists. }
        by destruct (start_first _ Hclock _ _ Hk Hin) as [_ ?].
      * intros t b ms a i body
          [Hin|He%list_elem_of_singleton]%elem_of_app Hb;
          [by eapply Hpr|].
        rewrite <- He in Hwhat. done.
    + destruct Hdo as (_ & H1 & H2). split.
      * intros ts. rewrite H1. intros Hts.
        destruct (Hst ts Hts) as [Hle Hall]. split; [lia|].
        intros i t0 [Hin|He%list_elem_of_singleton]%elem_of_app;
          [by eapply Hall|].
        rewrite <- He in Hwhat. done.
      * intros ts te i body. rewrite H1, H2. intros Hts [= <-] Hb Hok.
        destruct (Hst ts Hts) as [_ Hall].
        assert (Join i ∈ take (next s) (script p)) as Hj.
        { apply (joined_before_end _ Hclock _ _ Hk).
          by eapply lookup_lt_Some. }
        pose proof (ordered_join _ _ _ Ho i Hj) as Hf.
        rewrite <- (ordered_main _ _ _ Ho) in Hj.
        apply joined_of_main_trace in Hj as [t1 H1'].
        unfold finished in Hf.
        destruct (threads s !! i) as [t|] eqn:Hi; [|done].
        assert (t ≠ NotStarted) as Hne by (by intros ->).
        destruct (ordered_thread _ _ _ Ho i t Hi)
          as (body' & _ & _ & _ & Hst' & _).
        destruct (Hst' Hne) as [_ [t0 H0]].
        pose proof (timed_join _ _ _ Ht i body t0 t1 Hb Hok H0 H1').
        pose proof (timed_past _ _ _ Ht _ H1') as Hp. simpl in Hp.
        specialize (Hall i t0 H0). lia.
      * intros t b ms a i body
          [Hin|He%list_elem_of_singleton]%elem_of_app Hb;
          [by eapply Hpr|].
        rewrite <- He in Hwhat. done.
    + destruct Hdo as (_ & H1 & H2 & t0 & t1 & H0 & H1' & Hwe). split.
      * intros ts. rewrite H1. intros Hts.
        destruct (Hst ts Hts) as [Hle Hall]. split; [lia|].
        intros i t0' [Hin|He%list_elem_of_singleton]%elem_of_app;
          [by eapply Hall|].
        rewrite <- He in Hwhat. done.
      * intros ts te i body. rewrite H1, H2. apply Hen.
      * intros t b' ms a' i body
          [Hin|He%list_elem_of_singleton]%elem_of_app Hb;
          [by eapply Hpr|].
        intros Hok.
        rewrite <- He in Hwe. simpl in Hwe. injection Hwe as _ -> _.
        pose proof (Hen t0 t1 i body H0 H1' Hb Hok). lia.
  - pose proof Hs as [Hby _]%worker_step_running.
    apply worker_step_inv in Hs as (body & t & t' & _ & _ & -> & _).
    apply Hplain; try done; intros *; intros ->; done.
Qed.

Lemma clocked_run sch tr s :
  run p sch (init p) = Some (tr, s) → clocked p tr s.
Proof.
  intros Hr.
  assert (ordered p tr s ∧ timed p tr s ∧ clocked p tr s) as (_ & _ & H);
    [|done].
  revert Hr.
  apply (exec_trace_invariant (step p)
           (λ g s, ordered p g s ∧ timed p g s ∧ clocked p g s)).
  - intros g d c e c' (Ho & Ht & Hc) Hs. split; [|split].
    + by eapply ordered_step.
    + by eapply timed_step.
    + by eapply clocked_step.
  - split; [apply ordered_init|]. split; [apply timed_init|].
    apply clocked_init.
Qed.
End ThreadsClock.

Lemma clock_ok_thread_one : ThreadsInv.clock_ok ThreadOne.program.
Proof.
  split.
  - intros k st Hk Hin.
    assert (k = 4%nat) as ->.
    { do 11 (destruct k as [|k]; [simpl in Hk; done|]).
      simpl in Hk. by rewrite lookup_nil in Hk. }
    simpl in Hin. split.
    + intros i ->.
      do 4 (apply elem_of_cons in Hin as [Hin|Hin]; [done|]).
      by apply elem_of_nil in Hin.
    + intros ->.
      do 4 (apply elem_of_cons in Hin as [Hin|Hin]; [done|]).
      by apply elem_of_nil in Hin.
  - intros k i Hk Hi.
    assert (k = 9%nat) as ->.
    { do 11 (destruct k as [|k]; [simpl in Hk; done|]).
      simpl in Hk. by rewrite lookup_nil in Hk. }
    destruct i as [|[|i]]; [| |simpl in Hi; lia].
    + by apply (list_elem_of_lookup_2 _ 7%nat).
    + by apply (list_elem_of_lookup_2 _ 8%nat).
Qed.



Section ThreadsProgress.
Import Threads ThreadsInv.
Variable p : program.
Hypothesis Hwf : well_formed p.

Lemma cost_nonneg body : 0 ≤ cost body.
Proof.
  unfold cost. apply sumZ_nonneg. by intros [msg|ms].
Qed.

Lemma cost_drop body pc st :
  body !! pc = Some st →
  cost (drop pc body)
  = match st with Say _ => 1 | Sleep _ => 2 end + cost (drop (S pc) body).
Proof.
  intros Hpc. by rewrite (drop_S _ _ _ Hpc).
Qed.

Lemma left_set_thread i t t' body s :
  threads s !! i = Some t → targets p !! i = Some body →
  left p (set_thread i t' s)
  = left p s - left_thread (t, body) + left_thread (t', body).
Proof.
  intros Hi Hb. unfold left, set_thread. simpl.
  assert (zip (<[i := t']> (threads s)) (targets p)
          = <[i := (t', body)]> (zip (threads s) (targets p))) as ->.
  { rewrite <- (list_insert_id (targets p) i body Hb) at 1.
    unfold zip. symmetry. apply (insert_zip_with pair). }
  rewrite (sumZ_insert _ _ _ (t, body)); [lia|].
  by apply lookup_zip_Some.
Qed.

(** A thread that has a statement left can take a step, after the clock
    has moved if it sleeps. *)
Lemma running_step s i t body :
  threads s !! i = Some t → targets p !! i = Some body →
  running t body = true →
  ∃ sch tr s',
    run p sch s = Some (tr, s') ∧ left p s' < left p s ∧ next s' = next s.
Proof.
  intros Hi Hb Hrun. destruct t as [|pc|pc u|pc]; [done| | |done].
  - apply bool_decide_eq_true in Hrun.
    destruct (lookup_lt_is_Some_2 body pc Hrun) as [st Hpc].
    pose proof (cost_drop body pc st Hpc) as Hcost.
    pose proof (cost_nonneg (drop (S pc) body)) as Hnn.
    destruct st as [msg|ms].
    + exists [RunWorker i]. eexists _, _. split.
      * simpl. unfold worker_step. rewrite Hb, Hi. simpl. rewrite Hpc.
        simpl. reflexivity.
      * rewrite (left_set_thread i (At pc) (At (S pc)) body s Hi Hb).
        unfold left_thread. simpl. split; [lia|done].
    + assert (0 ≤ ms) as Hms.
      { apply (sleeps_nonneg _ Hwf i body ms Hb).
        by eapply list_elem_of_lookup_2. }
      exists [RunWorker i]. eexists _, _. split.
      * simpl. unfold worker_step. rewrite Hb, Hi. simpl. rewrite Hpc.
        simpl. rewrite decide_True by done. reflexivity.
      * rewrite (left_set_thread i (At pc) (Sleeping pc (now s + ms)) body
                   s Hi Hb).
        unfold left_thread. simpl. split; [lia|done].
  - exists [Tick (Z.to_N (u - now s)); RunWorker i]. eexists _, _. split.
    + simpl. unfold worker_step. simpl. rewrite Hb, Hi. simpl.
      rewrite decide_True by lia. reflexivity.
    + rewrite (left_set_thread i (Sleeping pc u) (At (S pc)) body
                 (State (now s + Z.of_N (Z.to_N (u - now s))) (start s)
                    (end_ s) (next s) (threads s)) Hi Hb).
      unfold left, left_thread. simpl. split; [lia|done].
Qed.

(** When no thread has a statement left, the main module can run its
    next statement. *)
Lemma main_progress g s :
  ordered p g s →
  (∀ i t body, threads s !! i = Some t → targets p !! i = Some body →
               running t body = false) →
  (next s < length (script p))%nat →
  ∃ e s', main_step p s = Some (e, s').
Proof.
  intros Ho Hidle Hlt.
  destruct (lookup_lt_is_Some_2 _ _ Hlt) as [st Hk].
  unfold main_step. rewrite Hk. simpl.
  destruct st as [msg|i|i| | |b a].
  - by eexists _, _.
  - destruct (start_once _ Hwf _ _ Hk) as [Hi Hnot].
    rewrite <- (ordered_length _ _ _ Ho) in Hi.
    destruct (lookup_lt_is_Some_2 _ _ Hi) as [t Ht]. rewrite Ht.
    destruct (ordered_thread _ _ _ Ho i t Ht)
      as (_ & _ & _ & _ & Hst & _).
    destruct t as [|pc|pc u|pc]; [by eexists _, _| | |];
      by destruct Hst as [? _].
  - pose proof (join_started _ Hwf _ _ Hk) as Hin.
    destruct (ordered_started _ _ _ Ho i Hin) as (t & Ht & Hne).
    destruct (ordered_thread _ _ _ Ho i t Ht) as (body & Hb & _ & Hc & _).
    specialize (Hidle i t body Ht Hb).
    unfold finished. rewrite Ht, Hb.
    destruct t as [|pc|pc u|pc]; [done| |done|by eexists _, _].
    simpl in Hidle. apply bool_decide_eq_false in Hidle.
    rewrite bool_decide_eq_true_2 by lia. by eexists _, _.
  - by eexists _, _.
  - by eexists _, _.
  - destruct (elapsed_known _ Hwf _ _ _ Hk) as [H1 H2].
    apply (ordered_start _ _ _ Ho) in H1 as [t0 ->].
    apply (ordered_end _ _ _ Ho) in H2 as [t1 ->]. simpl.
    by eexists _, _.
Qed.

Lemma left_main_step s e s' :
  main_step p s = Some (e, s') → left p s' < left p s.
Proof.
  intros (st & Hk & _ & _ & _ & _ & Hn & Hdo)%main_step_inv.
  pose proof (lookup_lt_Some _ _ _ Hk) as Hlt. unfold left. rewrite Hn.
  assert (sumZ left_thread (zip (threads s') (targets p))
          = sumZ left_thread (zip (threads s) (targets p))) as ->; [|lia].
  destruct st as [msg|i|i| | |b a].
  - by destruct Hdo as (-> & _).
  - destruct Hdo as (Hi & -> & _).
    destruct (start_once _ Hwf _ _ Hk) as [Hlti _].
    destruct (lookup_lt_is_Some_2 _ _ Hlti) as [body Hb].
    pose proof (left_set_thread i NotStarted (At 0) body s Hi Hb) as Hl.
    unfold left, set_thread in Hl. simpl in Hl.
    change (left_thread (NotStarted, body)) with (cost body) in Hl.
    change (left_thread (At 0, body)) with (cost body) in Hl. lia.
  - by destruct Hdo as (_ & -> & _).
  - by destruct Hdo as (-> & _).
  - by destruct Hdo as (-> & _).
  - by destruct Hdo as (-> & _).
Qed.
End ThreadsProgress.

Section ThreadsFinish.
Import Threads ThreadsInv.
Variable p : program.
Hypothesis Hwf : well_formed p.

Lemma ordered_exec sch : ∀ g s tr s',
  ordered p g s → run p sch s = Some (tr, s') → ordered p (g ++ tr) s'.
Proof.
  induction sch as [|d sch IH]; intros g s tr s' Ho Hr.
  - simpl in Hr. injection Hr as <- <-. by rewrite app_nil_r.
  - apply exec_cons in Hr as (e & s1 & tr' & Hs & Hr & ->).
    rewrite (cons_middle e), app_assoc. eapply IH; [|done].
    by eapply ordered_step.
Qed.

Lemma left_nonneg s : 0 ≤ left p s.
Proof.
  unfold left.
  assert (0 ≤ sumZ left_thread (zip (threads s) (targets p))); [|lia].
  apply sumZ_nonneg. intros [t body]. unfold left_thread. simpl.
  destruct t as [|pc|pc u|pc].
  - apply cost_nonneg.
  - apply cost_nonneg.
  - pose proof (cost_nonneg (drop (S pc) body)). lia.
  - done.
Qed.

(** Either some thread has a statement left, or none has. *)
Lemma busy_or_idle s :
  (∃ i t body, threads s !! i = Some t ∧ targets p !! i = Some body ∧
               running t body = true) ∨
  (∀ i t body, threads s !! i = Some t → targets p !! i = Some body →
               running t body = false).
Proof.
  destruct (list_find (λ tb, running tb.1 tb.2 = true)
              (zip (threads s) (targets p))) as [[i [t body]]|] eqn:Hfind.
  - left. apply list_find_Some in Hfind as (Hi & Hrun & _).
    apply lookup_zip_Some in Hi as [Hi Hb]. by exists i, t, body.
  - right. intros i t body Hi Hb. apply list_find_None in Hfind.
    assert (zip (threads s) (targets p) !! i = Some (t, body)) as Hz
      by (by apply lookup_zip_Some).
    pose proof (proj1 (Forall_lookup _ _) Hfind i _ Hz) as Hn. simpl in Hn.
    by destruct (running t body).
Qed.

(** From every state of a run the program can be run to its end. *)
Lemma threads_can_finish n : ∀ g s,
  ordered p g s → left p s ≤ Z.of_nat n →
  ∃ sch tr s', run p sch s = Some (tr, s') ∧ final p s'.
Proof.
  induction n as [|n IH]; intros g s Ho Hn.
  - exists [], [], s. split; [done|].
    pose proof (left_nonneg s) as Hnn.
    destruct (busy_or_idle s) as [(i & t & body & Hi & Hb & Hrun)|Hidle].
    + destruct (running_step p Hwf s i t body Hi Hb Hrun)
        as (sch & tr & s' & _ & Hl & _).
      pose proof (left_nonneg s'). lia.
    + split; [|done].
      destruct (decide (next s < length (script p))%nat) as [Hlt|Hge].
      * destruct (main_progress p Hwf g s Ho Hidle Hlt) as (e & s' & Hs).
        pose proof (left_main_step p Hwf s e s' Hs).
        pose proof (left_nonneg s'). lia.
      * apply lookup_ge_None. lia.
  - destruct (busy_or_idle s) as [(i & t & body & Hi & Hb & Hrun)|Hidle].
    + destruct (running_step p Hwf s i t body Hi Hb Hrun)
        as (sch & tr & s1 & Hr & Hl & _).
      destruct (IH (g ++ tr) s1) as (sch' & tr' & s' & Hr' & Hf).
      { by eapply ordered_exec. }
      { lia. }
      exists (sch ++ sch'), (tr ++ tr'), s'. split; [|done].
      by eapply exec_app.
    + destruct (decide (next s < length (script p))%nat) as [Hlt|Hge].
      * destruct (main_progress p Hwf g s Ho Hidle Hlt) as (e & s1 & Hs).
        pose proof (left_main_step p Hwf s e s1 Hs).
        destruct (IH (g ++ [e]) s1) as (sch' & tr' & s' & Hr' & Hf).
        { by eapply ordered_main_step. }
        { lia. }
        exists (RunMain :: sch'), (e :: tr'), s'. split; [|done].
        by eapply exec_next.
      * exists [], [], s. split; [done|]. split; [|done].
        apply lookup_ge_None. lia.
Qed.
End ThreadsFinish.

(** Membership in a list that is given by its elements. *)
Ltac elem_of_literal :=
  repeat first [ by (apply elem_of_cons; left) | apply elem_of_cons; right ].

Ltac not_elem_of_literal H :=
  repeat (apply elem_of_cons in H as [H|H]; [done|]);
  by apply elem_of_nil in H.

(** The cases of an index [k] into a script given by its statements;
    [tac] closes the cases in which [Hk] is not absurd. *)
Ltac script_cases k Hk tac :=
  let k' := fresh "k" in
  destruct k as [|k'];
  [ simpl in Hk; first [ discriminate Hk | tac ]
  | first [ by (simpl in Hk; rewrite lookup_nil in Hk)
          | script_cases k' Hk tac ] ].

Ltac sleeps_of_literal Hb Hin :=
  vm_compute in Hb; injection Hb as <-;
  repeat (apply elem_of_cons in Hin as [Hin|Hin];
          [first [discriminate Hin | by injection Hin as ->]|]);
  by apply elem_of_nil in Hin.

Lemma well_formed_threading : ThreadsInv.well_formed Threading.program.
Proof.
  split.
  - intros k i Hk.
    script_cases k Hk
      ltac:(injection Hk as <-; (split; [simpl; lia|]); intros Hin;
            simpl in Hin; not_elem_of_literal Hin).
  - intros k i Hk.
    script_cases k Hk ltac:(injection Hk as <-; simpl; elem_of_literal).
  - intros k b a Hk. script_cases k Hk ltac:(fail).
  - intros i body ms Hb Hin.
    destruct i as [|[|i]]; [| |done]; sleeps_of_literal Hb Hin.
Qed.

Lemma well_formed_multiprocessing :
  ThreadsInv.well_formed Multiprocessing.program.
Proof.
  split.
  - intros k i Hk.
    script_cases k Hk
      ltac:(injection Hk as <-; (split; [simpl; lia|]); intros Hin;
            simpl in Hin; not_elem_of_literal Hin).
  - intros k i Hk.
    script_cases k Hk ltac:(injection Hk as <-; simpl; elem_of_literal).
  - intros k b a Hk. script_cases k Hk ltac:(fail).
  - intros i body ms Hb Hin.
    destruct i as [|[|[|i]]]; [| | |done]; sleeps_of_literal Hb Hin.
Qed.

Lemma well_formed_thread_one : ThreadsInv.well_formed ThreadOne.program.
Proof.
  split.
  - intros k i Hk.
    script_cases k Hk
      ltac:(injection Hk as <-; (split; [simpl; lia|]); intros Hin;
            simpl in Hin; not_elem_of_literal Hin).
  - intros k i Hk.
    script_cases k Hk ltac:(injection Hk as <-; simpl; elem_of_literal).
  - intros k b a Hk.
    script_cases k Hk
      ltac:(injection Hk as <- <-; simpl; split; elem_of_literal).
  - intros i body ms Hb Hin.
    destruct i as [|[|i]]; [| |done]; sleeps_of_literal Hb Hin.
Qed.

Lemma well_formed_thread_two : ThreadsInv.well_formed ThreadTwo.program.
Proof.
  split.
  - intros k i Hk.
    script_cases k Hk
      ltac:(injection Hk as <-; (split; [simpl; lia|]); intros Hin;
            simpl in Hin; not_elem_of_literal Hin).
  - intros k i Hk.
    script_cases k Hk ltac:(injection Hk as <-; simpl; elem_of_literal).
  - intros k b a Hk. script_cases k Hk ltac:(fail).
  - intros i body ms Hb Hin.
    destruct i as [|[|i]]; [| |done]; sleeps_of_literal Hb Hin.
Qed.

(** X16. A program whose main module starts no thread twice, joins only
    threads it has started and prints the elapsed time only after reading
    the clock twice, and whose threads only print and sleep, cannot hang:
    from every state of every run it can be run to the end of the main
    module with every started thread returned, and then nothing but the
    clock moves.  01_threading.py, 02_multiprocessing.py, 05_thread_one.py
    and 06_thread_two.py are such programs. *)
Theorem started_and_joined_threads_never_hang :
  (∀ p, ThreadsInv.well_formed p →
     ∀ sch tr s,
       Threads.run p sch (Threads.init p) = Some (tr, s) →
       ∃ sch' tr' s',
         Threads.run p sch' s = Some (tr', s') ∧ ThreadsInv.final p s') ∧
  (∀ p s, ThreadsInv.final p s →
     Threads.step p Threads.RunMain s = None ∧
     ∀ i, Threads.step p (Threads.RunWorker i) s = None) ∧
  ThreadsInv.well_formed Threading.program ∧
  ThreadsInv.well_formed Multiprocessing.program ∧
  ThreadsInv.well_formed ThreadOne.program ∧
  ThreadsInv.well_formed ThreadTwo.program.
Proof.
  split; [|split;
            [|by auto using well_formed_threading,
                 well_formed_multiprocessing, well_formed_thread_one,
                 well_formed_thread_two]].
  - intros p Hwf sch tr s Hr.
    pose proof (ordered_run p sch tr s Hr) as Ho.
    apply (threads_can_finish p Hwf (Z.to_nat (ThreadsInv.left p s)) tr s Ho).
    pose proof (left_nonneg p s). lia.
  - intros p s [Hend Hidle]. split.
    + simpl. unfold Threads.main_step. by rewrite Hend.
    + intros i. simpl. unfold Threads.worker_step.
      destruct (Threads.targets p !! i) as [body|] eqn:Hb; simpl; [|done].
      destruct (Threads.threads s !! i) as [t|] eqn:Hi; simpl; [|done].
      specialize (Hidle i t body Hi Hb).
      destruct t as [|pc|pc u|pc]; [done| |done|done]. simpl in Hidle.
      apply bool_decide_eq_false in Hidle.
      rewrite lookup_ge_None_2 by lia. done.
Qed.

(** 05_thread_one.py after the threads were started and the first has
    fallen asleep. *)
Lemma started_and_joined_threads_never_hang_witness :
  ∃ tr s,
    Threads.run ThreadOne.program
      (replicate 7 Threads.RunMain ++ [Threads.RunWorker 0; Threads.RunWorker 0])
      (Threads.init ThreadOne.program) = Some (tr, s) ∧
    ∃ sch' tr' s',
      Threads.run ThreadOne.program sch' s = Some (tr', s') ∧
      ThreadsInv.final ThreadOne.program s'.
Proof.
  eexists _, _. split; [vm_compute; reflexivity|].
  destruct started_and_joined_threads_never_hang as (H & _ & _ & _ & Hwf & _).
  refine (H ThreadOne.program Hwf
            (replicate 7 Threads.RunMain
             ++ [Threads.RunWorker 0; Threads.RunWorker 0]) _ _ _).
  vm_compute. reflexivity.
Defined.

(** ** What 11_process_queue.py prints *)

Section QueueOutputFacts.
Import Pickle ProcessQueue ProcessQueueOutput.

Lemma queue_output_step d s e s' :
  sound pickled_masala s →
  program_step (H:=pickle_str) d s = Some (e, s') →
  printed (child s') (main s') = printed (child s) (main s) ++ prints [e]
  ∧ steps_left s = S (steps_left s').
Proof.
  destruct s as [[bufs ms] c r m msg]. unfold sound, fed, steps_left. simpl.
  intros [Heq Hocc].
  destruct ms as [|m0 ms], msg as [x|]; destruct c, m; simpl in Hocc;
    try done; vm_compute in Heq; simplify_eq;
    destruct d; intros Hs; vm_compute in Hs; try done;
    injection Hs as <- <-; split; vm_compute; reflexivity.
Qed.

Lemma queue_output_run sch : ∀ g s tr s',
  sound pickled_masala s → prints g = printed (child s) (main s) →
  program_run (H:=pickle_str) sch s = Some (tr, s') →
  sound pickled_masala s' ∧
  prints (g ++ tr) = printed (child s') (main s') ∧
  steps_left s = (length sch + steps_left s')%nat.
Proof.
  induction sch as [|d sch IH]; intros g s tr s' Hc Hg Hr.
  - simpl in Hr. injection Hr as <- <-. by rewrite app_nil_r.
  - apply exec_cons in Hr as (e & s1 & tr' & Hs & Hr & ->).
    destruct (queue_output_step _ _ _ _ Hc Hs) as [Hp Hl].
    destruct (IH (g ++ [e]) s1 tr' s') as (Hc' & Hg' & Hl'); [| |done|].
    + by eapply program_sound_step.
    + unfold prints in *. by rewrite omap_app, Hg, Hp.
    + split; [done|]. rewrite <- app_assoc in Hg'. split; [done|].
      simpl. lia.
Qed.

(** A state of a run in which nothing can run is the end of the
    program. *)
Lemma queue_stuck_done s :
  sound pickled_masala s → stuck (program_step (H:=pickle_str)) s →
  main s = MainDone.
Proof.
  destruct s as [[bufs ms] c r m msg]. unfold sound, fed. simpl.
  intros [Heq Hocc] Hst.
  pose proof (Hst RunMain) as S0. pose proof (Hst RunChild) as S1.
  pose proof (Hst RunFeeder) as S2.
  destruct ms as [|m0 ms], msg as [x|]; destruct c, m; simpl in Hocc;
    try done; vm_compute in Heq; simplify_eq;
    vm_compute in S0; vm_compute in S1; vm_compute in S2; done.
Qed.
End QueueOutputFacts.

(** X17. 11_process_queue.py (after its banner): in every run the lines
    printed so far are a beginning of "Worker: Put", "Main: Received",
    "communication successful", in this order, each with the message
    "☕ Masala chai is ready!"; when the main process is at its end all
    three have been printed; no run has more than 10 steps, and a state in
    which nothing can run is the end of the main process: the join before
    the get does not hang (the pipe takes the one short message whole). *)
Theorem queue_script_prints_in_order sch tr s :
  ProcessQueue.program_run (H:=pickle_str) sch ProcessQueue.init
    = Some (tr, s) →
  ProcessQueueOutput.prints tr `prefix_of`
    [ProcessQueueOutput.said_put; ProcessQueueOutput.said_received;
     ProcessQueueOutput.said_success] ∧
  (ProcessQueue.main s = ProcessQueue.MainDone →
   ProcessQueueOutput.prints tr
   = ["📤 Worker: Put '☕ Masala chai is ready!' into queue";
      "📥 Main: Received '☕ Masala chai is ready!' from queue";
      nl +:+ "✅ Inter-process communication successful!"]) ∧
  (stuck (ProcessQueue.program_step (H:=pickle_str)) s →
   ProcessQueue.main s = ProcessQueue.MainDone) ∧
  (length sch ≤ 10)%nat.
Proof.
  intros Hr.
  assert (ProcessQueue.sound ProcessQueue.pickled_masala ProcessQueue.init)
    as H0 by (split; vm_compute; reflexivity).
  destruct (queue_output_run sch [] _ _ _ H0 eq_refl Hr) as (Hs & Hp & Hl).
  simpl in Hp. rewrite Hp. split; [|split; [|split]].
  - destruct Hs as [_ Hocc].
    destruct (ProcessQueue.child s), (ProcessQueue.fed s),
      (ProcessQueue.main s); simpl in Hocc; try done;
      first [ by exists [] | by eexists [_] | by eexists [_; _]
            | by eexists [_; _; _] ].
  - intros Hm. destruct Hs as [_ Hocc]. rewrite Hm in Hocc |- *.
    by destruct (ProcessQueue.child s), (ProcessQueue.fed s).
  - by apply queue_stuck_done.
  - change (ProcessQueueOutput.steps_left ProcessQueue.init) with 10%nat in Hl.
    lia.
Qed.

(** The run in which the child goes first. *)
Lemma queue_script_prints_in_order_witness :
  ∃ tr s,
    ProcessQueue.program_run (H:=pickle_str)
      [ProcessQueue.RunMain; ProcessQueue.RunChild; ProcessQueue.RunChild;
       ProcessQueue.RunFeeder; ProcessQueue.RunChild; ProcessQueue.RunChild;
       ProcessQueue.RunMain; ProcessQueue.RunMain; ProcessQueue.RunMain;
       ProcessQueue.RunMain] ProcessQueue.init = Some (tr, s) ∧
    ProcessQueue.main s = ProcessQueue.MainDone ∧
    ProcessQueueOutput.prints tr
    = ["📤 Worker: Put '☕ Masala chai is ready!' into queue";
       "📥 Main: Received '☕ Masala chai is ready!' from queue";
       nl +:+ "✅ Inter-process communication successful!"].
Proof.
  eexists _, _. split; [vm_compute; reflexivity|]. split; [reflexivity|].
  refine (proj1 (proj2 (queue_script_prints_in_order
                          [ProcessQueue.RunMain; ProcessQueue.RunChild;
                           ProcessQueue.RunChild; ProcessQueue.RunFeeder;
                           ProcessQueue.RunChild; ProcessQueue.RunChild;
                           ProcessQueue.RunMain; ProcessQueue.RunMain;
                           ProcessQueue.RunMain; ProcessQueue.RunMain]
                          _ _ _)) _).
  - vm_compute. reflexivity.
  - reflexivity.
Defined.

(** ** What 02_async_two.py prints *)

Section AsyncOutputFacts.
Import AsyncTwo AsyncTwoOutput.

Lemma logged_three g a b c m gt :
  logged g (State m [a; b; c] gt) ↔
  (match a with
   | Created => True
   | Brewing => Print (brewing "Masala chai") ∈ g
   | Ready => Print (brewing "Masala chai") ∈ g
              ∧ Print (ready "Masala chai") ∈ g
   end) ∧
  (match b with
   | Created => True
   | Brewing => Print (brewing "Green chai") ∈ g
   | Ready => Print (brewing "Green chai") ∈ g
              ∧ Print (ready "Green chai") ∈ g
   end) ∧
  (match c with
   | Created => True
   | Brewing => Print (brewing "Ginger chai") ∈ g
   | Ready => Print (brewing "Ginger chai") ∈ g
              ∧ Print (ready "Ginger chai") ∈ g
   end).
Proof.
  unfold logged. simpl. split.
  - intros H. split; [|split].
    + apply (H 0%nat "Masala chai" a eq_refl eq_refl).
    + apply (H 1%nat "Green chai" b eq_refl eq_refl).
    + apply (H 2%nat "Ginger chai" c eq_refl eq_refl).
  - intros (Ha & Hb & Hc) i name p Hn Hp.
    destruct i as [|[|[|i]]]; simpl in Hn, Hp; simplify_eq; done.
Qed.

Lemma async_output_step d g s e s' :
  sound s → logged g s → step d s = Some (e, s') →
  logged (g ++ [e]) s' ∧ steps_left s = S (steps_left s') ∧
  (∀ i name, names !! i = Some name → e = Print (ready name) →
             brews s !! i = Some Brewing) ∧
  (e = Print closing → main s = AfterGather ∧ main s' = MainDone).
Proof.
  destruct s as [m bs [ch nf out]]. unfold sound. simpl.
  destruct m; try done.
  - intros -> _. destruct d as [|i]; simpl.
    + intros [= <- <-]. split; [|split; [done|split; [done|done]]].
      apply logged_three. done.
    + unfold brew. simpl. by destruct (names !! i).
  - intros (Hlen & -> & -> & -> & _).
    destruct bs as [|a [|b [|c [|]]]]; try done.
    intros Hlog%logged_three.
    destruct d as [|[|[|[|i]]]]; destruct a, b, c; intros Hs;
      vm_compute in Hs; try done; injection Hs as <- <-;
      (split; [apply logged_three; rewrite ?elem_of_app,
                 ?list_elem_of_singleton; intuition done|]);
      (split; [done|]);
      (split; [|done]);
      intros [|[|[|i]]] name Hn He; simpl in Hn; simplify_eq; done.
  - intros (Hlen & -> & -> & -> & Hall).
    specialize (Hall ltac:(done)).
    destruct bs as [|a [|b [|c [|]]]]; try done.
    destruct a, b, c; try done.
    intros Hlog%logged_three.
    destruct d as [|[|[|[|i]]]]; intros Hs;
      vm_compute in Hs; try done; injection Hs as <- <-;
      (split; [apply logged_three; rewrite ?elem_of_app,
                 ?list_elem_of_singleton; intuition done|]);
      (split; [done|]);
      (split; [|done]);
      intros [|[|[|i]]] name Hn He; simpl in Hn; simplify_eq; done.
  - intros (Hlen & -> & -> & -> & Hall).
    specialize (Hall ltac:(done)).
    destruct bs as [|a [|b [|c [|]]]]; try done.
    destruct a, b, c; try done.
    intros _. destruct d as [|[|[|[|i]]]]; intros Hs; vm_compute in Hs; done.
Qed.
End AsyncOutputFacts.

Section AsyncOutputRun.
Import AsyncTwo AsyncTwoOutput.

Lemma async_output_run sch : ∀ g s tr s',
  sound s → logged g s → run sch s = Some (tr, s') →
  sound s' ∧ logged (g ++ tr) s' ∧
  steps_left s = (length sch + steps_left s')%nat.
Proof.
  induction sch as [|d sch IH]; intros g s tr s' Hc Hg Hr.
  - simpl in Hr. injection Hr as <- <-. by rewrite app_nil_r.
  - apply exec_cons in Hr as (e & s1 & tr' & Hs & Hr & ->).
    destruct (async_output_step _ _ _ _ _ Hc Hg Hs) as (Hg1 & Hl & _).
    destruct (IH (g ++ [e]) s1 tr' s') as (Hc' & Hg' & Hl'); [|done|done|].
    + by eapply async_sound_step.
    + split; [done|]. rewrite <- app_assoc in Hg'. split; [done|].
      simpl. lia.
Qed.

Lemma async_done_stuck s : sound s → main s = MainDone → stuck step s.
Proof.
  destruct s as [m bs [ch nf out]]. unfold sound. simpl.
  intros Hs ->. destruct Hs as (Hlen & -> & -> & -> & Hall).
  specialize (Hall ltac:(done)).
  destruct bs as [|a [|b [|c [|]]]]; try done.
  destruct a, b, c; try done.
  by intros [|[|[|[|i]]]].
Qed.

Lemma async_stuck_done s : sound s → stuck step s → main s = MainDone.
Proof.
  destruct s as [m bs [ch nf out]]. unfold sound. simpl.
  intros Hs Hst.
  pose proof (Hst RunMain) as S0. pose proof (Hst (RunBrew 0)) as S1.
  pose proof (Hst (RunBrew 1)) as S2. pose proof (Hst (RunBrew 2)) as S3.
  destruct m; try done.
  destruct Hs as (Hlen & -> & -> & -> & _).
  destruct bs as [|a [|b [|c [|]]]]; try done.
  destruct a, b, c; vm_compute in S0, S1, S2, S3; done.
Qed.

Lemma logged_init : logged [] init.
Proof. by intros i name p _ ?. Qed.
End AsyncOutputRun.

(** X18. 02_async_two.py, whatever the order in which the event loop runs
    the three brews: a brew prints that it is ready only after it has
    printed that it is brewing; the closing line of [main] is printed only
    after all three brews have printed that they are ready, and nothing is
    printed after it; no run has more than 9 steps, and a state in which
    nothing can run is the end of [main]. *)
Theorem brews_are_ready_before_the_closing_line sch tr s :
  AsyncTwo.run sch AsyncTwo.init = Some (tr, s) →
  (∀ tr1 tr2 i name,
     AsyncTwo.names !! i = Some name →
     tr = tr1 ++ AsyncTwo.Print (AsyncTwoOutput.ready name) :: tr2 →
     AsyncTwo.Print (AsyncTwoOutput.brewing name) ∈ tr1) ∧
  (∀ tr1 tr2,
     tr = tr1 ++ AsyncTwo.Print AsyncTwoOutput.closing :: tr2 →
     tr2 = [] ∧
     ∀ name, name ∈ AsyncTwo.names →
             AsyncTwo.Print (AsyncTwoOutput.ready name) ∈ tr1) ∧
  (stuck AsyncTwo.step s ↔ AsyncTwo.main s = AsyncTwo.MainDone) ∧
  (length sch ≤ 9)%nat.
Proof.
  intros Hr.
  assert (AsyncTwo.sound AsyncTwo.init) as H0 by done.
  destruct (async_output_run sch [] _ _ _ H0 logged_init Hr)
    as (Hs & Hlog & Hl).
  split; [|split; [|split]].
  - intros tr1 tr2 i name Hn ->.
    apply exec_split_event in Hr
      as (sch1 & d & sch2 & c1 & c2 & -> & Hr1 & Hstep & Hr2).
    destruct (async_output_run sch1 [] _ _ _ H0 logged_init Hr1)
      as (Hs1 & Hlog1 & _).
    destruct (async_output_step _ _ _ _ _ Hs1 Hlog1 Hstep)
      as (_ & _ & Hready & _).
    specialize (Hready i name Hn eq_refl).
    apply (Hlog1 i name AsyncTwo.Brewing Hn Hready).
  - intros tr1 tr2 ->.
    apply exec_split_event in Hr
      as (sch1 & d & sch2 & c1 & c2 & -> & Hr1 & Hstep & Hr2).
    destruct (async_output_run sch1 [] _ _ _ H0 logged_init Hr1)
      as (Hs1 & Hlog1 & _).
    destruct (async_output_step _ _ _ _ _ Hs1 Hlog1 Hstep)
      as (_ & _ & _ & Hclose).
    destruct (Hclose eq_refl) as [Hm1 Hm2]. split.
    + pose proof (async_done_stuck c2
                    (async_sound_step _ _ _ _ Hs1 Hstep) Hm2) as Hst.
      destruct sch2 as [|d2 sch2].
      * simpl in Hr2. by injection Hr2 as <- _.
      * apply exec_cons in Hr2 as (e & c3 & tr' & Hs2 & _).
        by rewrite Hst in Hs2.
    + intros name [i Hn]%list_elem_of_lookup.
      destruct c1 as [m bs gt]. simpl in *. subst m.
      destruct Hs1 as (Hlen & _ & _ & _ & Hall).
      specialize (Hall ltac:(done)).
      destruct bs as [|a [|b [|c [|]]]]; try done.
      destruct a, b, c; try done.
      assert (i < 3)%nat as Hi by (by apply lookup_lt_Some in Hn).
      destruct (lookup_lt_is_Some_2 [AsyncTwo.Ready; AsyncTwo.Ready;
                                     AsyncTwo.Ready] i Hi) as [p Hp].
      pose proof (Hlog1 i name p Hn Hp) as Hlg.
      destruct i as [|[|[|i]]]; simpl in Hp; simplify_eq; by destruct Hlg.
  - split; [by apply async_stuck_done|by apply async_done_stuck].
  - change (AsyncTwoOutput.steps_left AsyncTwo.init) with 9%nat in Hl. lia.
Qed.

(** Green chai is brewed and ready before the others have begun. *)
Lemma brews_are_ready_before_the_closing_line_witness :
  ∃ tr1 tr2 s,
    AsyncTwo.run [AsyncTwo.RunMain; AsyncTwo.RunBrew 1; AsyncTwo.RunBrew 1]
      AsyncTwo.init
    = Some (tr1 ++ AsyncTwo.Print (AsyncTwoOutput.ready "Green chai") :: tr2, s)
    ∧ AsyncTwo.Print (AsyncTwoOutput.brewing "Green chai") ∈ tr1.
Proof.
  exists [AsyncTwo.Gathered;
          AsyncTwo.Print (AsyncTwoOutput.brewing "Green chai")], [].
  eexists. split; [vm_compute; reflexivity|].
  refine (proj1 (brews_are_ready_before_the_closing_line
                   [AsyncTwo.RunMain; AsyncTwo.RunBrew 1; AsyncTwo.RunBrew 1]
                   _ _ _) _ [] 1%nat "Green chai" eq_refl _).
  - vm_compute. reflexivity.
  - reflexivity.
Defined.
